(** * HotSpot: G1 write barriers and the native-memory malloc site table

    A shallow embedding of
      - src/hotspot/share/gc/g1/g1BarrierSet.cpp
      - src/hotspot/share/services/mallocSiteTable.cpp
    with the properties the specification states about them. *)

From stdpp Require Import base option list gmap.
From Stdlib Require Import ZArith Lia.

Local Open Scope Z_scope.

(** ** G1BarrierSet (g1BarrierSet.cpp) *)
Module G1BarrierSet.

(** A card is one byte of the card table; a [CardValue*] is the address of
    that byte. *)
Definition CardValue := Z.
Definition card_ptr := Z.

(** An ordinary object pointer, and the thread handle [Thread*]. *)
Definition oop := Z.
Definition Thread := nat.

(** The state the barrier reads and writes: the card table bytes, the
    thread-local dirty card and SATB queues ([G1ThreadLocalData]), and the
    activity flag of [_satb_mark_queue_set]. *)
Record state := mkState {
  byte_map : card_ptr -> CardValue;
  dirty_card_queue : Thread -> list card_ptr;
  satb_mark_queue : Thread -> list oop;
  satb_is_active : bool
}.

Definition fun_upd {A B} `{EqDecision A} (f : A -> B) (a : A) (b : B) : A -> B :=
  fun x => if decide (x = a) then b else f x.

(** [*byte = v] *)
Definition store_card (byte : card_ptr) (v : CardValue) (st : state) : state :=
  mkState (fun_upd (byte_map st) byte v) (dirty_card_queue st)
          (satb_mark_queue st) (satb_is_active st).

(** Modelled from the spec: [G1DirtyCardQueue::enqueue] is not in the sources;
    the dirty card queue is an ordered sequence of pending card addresses that
    is always active, so enqueueing appends the address to the thread's
    queue. *)
Definition dcq_enqueue (thr : Thread) (byte : card_ptr) (st : state) : state :=
  mkState (byte_map st)
          (fun_upd (dirty_card_queue st) thr (dirty_card_queue st thr ++ [byte]))
          (satb_mark_queue st) (satb_is_active st).

(** Modelled from the spec: [SATBMarkQueue::enqueue] is not in the sources;
    a reference is appended to the thread's SATB queue, but only if the
    marking-phase flag is active. *)
Definition satb_enqueue (thr : Thread) (pre_val : oop) (st : state) : state :=
  if satb_is_active st then
    mkState (byte_map st) (dirty_card_queue st)
            (fun_upd (satb_mark_queue st) thr (satb_mark_queue st thr ++ [pre_val]))
            (satb_is_active st)
  else st.

(** The element type [T] of [write_ref_array_pre_work<T>]: [oop] or
    [narrowOop], with [CompressedOops::is_null] and
    [CompressedOops::decode_not_null]. *)
Class HeapOop (T : Type) := {
  is_null : T -> bool;
  decode_not_null : T -> oop
}.

#[export] Instance oop_HeapOop : HeapOop oop := {|
  is_null o := o =? 0;
  decode_not_null o := o
|}.

(** A compressed reference, decoded against the heap base and shift. *)
Record narrowOop := mkNarrow { narrow_bits : Z }.

Definition narrowOop_HeapOop (base shift : Z) : HeapOop narrowOop := {|
  is_null v := narrow_bits v =? 0;
  decode_not_null v := base + Z.shiftl (narrow_bits v) shift
|}.

(** The values [write_ref_array_pre_work] finds in the [count] slots from
    [dst] on and forwards: the non-null ones, decoded, in slot order. *)
Definition existing_values {T} `{HeapOop T} (load : Z -> T) (dst : Z)
    (count : nat) : list oop :=
  omap (fun p => let v := load p in
                 if is_null v then None else Some (decode_not_null v))
       (seqZ dst (Z.of_nat count)).

(** [MemRegion]: a start address and a size in heap words. *)
Record MemRegion := mkMemRegion { mr_start : Z; mr_word_size : Z }.

Section Barrier.

(** Constants of [G1CardTable] / [CardTable], whose headers are not among
    the sources. *)
Variable g1_young_card_val : CardValue.
Variable dirty_card_val : CardValue.
Variable byte_map_base : Z.
Variable card_shift : Z.
Variable HeapWordSize : Z.

Definition is_empty (mr : MemRegion) : bool := mr_word_size mr =? 0.
Definition mr_end (mr : MemRegion) : Z :=
  mr_start mr + mr_word_size mr * HeapWordSize.
Definition mr_last (mr : MemRegion) : Z := mr_end mr - HeapWordSize.

(** Modelled from the spec: [CardTable::byte_for] is not in the sources; a
    card is a fixed-size slice of the heap address space tracked by one
    byte of the card table. *)
Definition byte_for (p : Z) : card_ptr := byte_map_base + Z.shiftr p card_shift.

(** [G1BarrierSet::enqueue]: nulls have already been filtered (the
    assertion [oopDesc::is_oop] looks at the heap, which is not part of the
    state). *)
Definition enqueue (thr : Thread) (pre_val : oop) (st : state) : state :=
  satb_enqueue thr pre_val st.

(** The loop of [write_ref_array_pre_work]; [n] is [count - i]. *)
Fixpoint write_ref_array_pre_loop {T} `{HeapOop T} (load : Z -> T)
    (thr : Thread) (n : nat) (elem_ptr : Z) (st : state) : state :=
  match n with
  | O => st
  | S n' =>
      let heap_oop := load elem_ptr in
      let st' := if negb (is_null heap_oop)
                 then enqueue thr (decode_not_null heap_oop) st
                 else st in
      write_ref_array_pre_loop load thr n' (elem_ptr + 1) st'
  end.

(** [G1BarrierSet::write_ref_array_pre_work<T>(T* dst, size_t count)];
    [load] is [RawAccess<>::oop_load], slots are addressed in units of
    [T]. *)
Definition write_ref_array_pre_work {T} `{HeapOop T} (load : Z -> T)
    (thr : Thread) (dst : Z) (count : nat) (st : state) : state :=
  if negb (satb_is_active st) then st
  else write_ref_array_pre_loop load thr count dst st.

(** [G1BarrierSet::write_ref_array_pre], for both [oop*] and
    [narrowOop*]. *)
Definition write_ref_array_pre {T} `{HeapOop T} (load : Z -> T)
    (thr : Thread) (dst : Z) (count : nat) (dest_uninitialized : bool)
    (st : state) : state :=
  if negb dest_uninitialized
  then write_ref_array_pre_work load thr dst count st
  else st.

(** [G1BarrierSet::write_ref_field_post_slow]; the result is [None] when
    the assertion on entry fails.  [OrderAccess::storeload()] orders the
    accesses of the thread and does not change the state. *)
Definition write_ref_field_post_slow (thr : Thread) (byte : card_ptr)
    (st : state) : option state :=
  if decide (byte_map st byte = g1_young_card_val) then None
  else if decide (byte_map st byte = dirty_card_val) then Some st
  else Some (dcq_enqueue thr byte (store_card byte dirty_card_val st)).

(** [for (; byte <= last_byte && *byte == g1_young_card_val(); byte++);] *)
Fixpoint skip_young (fuel : nat) (byte last_byte : card_ptr) (st : state)
    : card_ptr :=
  match fuel with
  | O => byte
  | S fuel' =>
      if decide (byte <= last_byte /\ byte_map st byte = g1_young_card_val)
      then skip_young fuel' (byte + 1) last_byte st
      else byte
  end.

(** [for (; byte <= last_byte; byte++) { ... }] *)
Fixpoint dirty_loop (fuel : nat) (thr : Thread) (byte last_byte : card_ptr)
    (st : state) : state :=
  match fuel with
  | O => st
  | S fuel' =>
      if decide (byte <= last_byte) then
        let bv := byte_map st byte in
        let st' :=
          if decide (bv <> g1_young_card_val /\ bv <> dirty_card_val)
          then dcq_enqueue thr byte (store_card byte dirty_card_val st)
          else st in
        dirty_loop fuel' thr (byte + 1) last_byte st'
      else st
  end.

(** The number of cards from [byte] to [last_byte]: each loop advances
    [byte] by one per iteration and stops past [last_byte]. *)
Definition span (byte last_byte : card_ptr) : nat :=
  Z.to_nat (last_byte - byte + 1).

(** [G1BarrierSet::invalidate(MemRegion mr)] *)
Definition invalidate (thr : Thread) (mr : MemRegion) (st : state) : state :=
  if is_empty mr then st
  else
    let byte := byte_for (mr_start mr) in
    let last_byte := byte_for (mr_last mr) in
    let byte := skip_young (span byte last_byte) byte last_byte st in
    if decide (byte <= last_byte)
    then dirty_loop (span byte last_byte) thr byte last_byte st
    else st.

(** The cards [invalidate] ranges over: from the card of the region's first
    word to the card of its last word. *)
Definition covering_cards (mr : MemRegion) : list card_ptr :=
  seqZ (byte_for (mr_start mr))
       (byte_for (mr_last mr) - byte_for (mr_start mr) + 1).

(** A card that is neither young nor dirty. *)
Definition needs_dirtying (st : state) (c : card_ptr) : Prop :=
  byte_map st c <> g1_young_card_val /\ byte_map st c <> dirty_card_val.

#[export] Instance needs_dirtying_dec st c : Decision (needs_dirtying st c).
Proof. unfold needs_dirtying. apply _. Defined.

(** Cards in a thread's queue are dirty and no card is queued twice. *)
Definition dcq_consistent (st : state) : Prop :=
  forall t, NoDup (dirty_card_queue st t) /\
            forall c, c ∈ dirty_card_queue st t -> byte_map st c = dirty_card_val.

(** A run of slow-path post barriers, each by a thread on a card. *)
Fixpoint post_barriers (calls : list (Thread * card_ptr)) (st : state)
    : option state :=
  match calls with
  | [] => Some st
  | (thr, byte) :: rest =>
      st' ← write_ref_field_post_slow thr byte st;
      post_barriers rest st'
  end.

(** No card sits twice in the dirty card queues, neither in the queue of
    one thread nor in the queues of two threads. *)
Definition enqueued_at_most_once (st : state) : Prop :=
  forall t1 t2 i j c,
    dirty_card_queue st t1 !! i = Some c ->
    dirty_card_queue st t2 !! j = Some c -> t1 = t2 /\ i = j.

(** Where a thread inside [write_ref_field_post_slow] stands: each
    constructor is the point before one access to the card or to the
    queue. *)
Inductive post_slow_pc :=
| AtAssert
| AtCheck
| AtStore
| AtEnqueue
| PostReturned.

(** One access of [write_ref_field_post_slow] by [thr] on [byte], as one
    atomic step: the read of the assertion, the read of [*byte !=
    dirty_card_val()], the store [*byte = dirty_card_val()], and the
    enqueue.  [None] when the assertion fails or the call has returned. *)
Definition post_slow_step (thr : Thread) (byte : card_ptr) (pc : post_slow_pc)
    (st : state) : option (post_slow_pc * state) :=
  match pc with
  | AtAssert =>
      if decide (byte_map st byte = g1_young_card_val) then None
      else Some (AtCheck, st)
  | AtCheck =>
      if decide (byte_map st byte = dirty_card_val) then Some (PostReturned, st)
      else Some (AtStore, st)
  | AtStore => Some (AtEnqueue, store_card byte dirty_card_val st)
  | AtEnqueue => Some (PostReturned, dcq_enqueue thr byte st)
  | PostReturned => None
  end.

(** The steps of one call run to its return with no other thread in
    between; the call takes at most four steps. *)
Fixpoint post_slow_alone (fuel : nat) (thr : Thread) (byte : card_ptr)
    (pc : post_slow_pc) (st : state) : option state :=
  match pc with
  | PostReturned => Some st
  | _ =>
      match fuel with
      | O => None
      | S fuel' =>
          '(pc', st') ← post_slow_step thr byte pc st;
          post_slow_alone fuel' thr byte pc' st'
      end
  end.

(** Threads inside [write_ref_field_post_slow] on the same card [byte],
    interleaved: each thread named by the schedule takes the next step of
    its call. *)
Fixpoint post_slow_race (byte : card_ptr) (schedule : list Thread)
    (pcs : Thread -> post_slow_pc) (st : state)
    : option ((Thread -> post_slow_pc) * state) :=
  match schedule with
  | [] => Some (pcs, st)
  | thr :: rest =>
      '(pc', st') ← post_slow_step thr byte (pcs thr) st;
      post_slow_race byte rest (fun_upd pcs thr pc') st'
  end.

(** A post-write barrier call of a mutator: the slow path on one card, or
    the bulk variant on a region. *)
Inductive barrier_call :=
| PostSlow (thr : Thread) (byte : card_ptr)
| Invalidate (thr : Thread) (mr : MemRegion).

Definition barrier (c : barrier_call) (st : state) : option state :=
  match c with
  | PostSlow thr byte => write_ref_field_post_slow thr byte st
  | Invalidate thr mr => Some (invalidate thr mr st)
  end.

(** A run of post-write barrier calls. *)
Fixpoint barriers (calls : list barrier_call) (st : state) : option state :=
  match calls with
  | [] => Some st
  | c :: rest => st' ← barrier c st; barriers rest st'
  end.

End Barrier.

(** *** Sample inputs

    A card table whose cards 2 and 5 are dirty, card 3 is young and every
    other card is clean, with empty queues. *)
Definition sample_young : CardValue := 32.
Definition sample_dirty : CardValue := 0.
Definition sample_clean : CardValue := 255.

Definition sample_state : state :=
  mkState (fun c => if decide (c = 3) then sample_young
                    else if decide (c = 2 \/ c = 5) then sample_dirty
                    else sample_clean)
          (fun _ => []) (fun _ => []) true.

(** Threads 0 and 1 both pass the assertion and both find the card not
    dirty before either of them stores; then each stores and enqueues. *)
Definition racing_writers : list Thread :=
  [0; 1; 0; 1; 0; 0; 1; 1]%nat.

End G1BarrierSet.

Local Close Scope Z_scope.

(** ** MallocSiteTable (mallocSiteTable.cpp) *)
Module MallocSiteTable.

(** The address of a [MallocSiteHashtableEntry]; a pointer is an
    [option addr], [None] being [NULL].  [MallocSiteHashtableEntry::data()]
    and [peek()] return the address of the [MallocSite] embedded in the
    entry, so a [MallocSite*] is identified with the entry's address. *)
Definition addr := positive.

(** A code address, and a native call stack: the frames it holds. *)
Definition address := Z.
Definition NativeCallStack := list address.

(** The memory type tag (an enumeration whose header is not among the
    sources). *)
Definition MEMFLAGS := Z.

(** [MallocSite]: the call stack and memory type identifying the site (its
    counters are not read or written by the table). *)
Record MallocSite := mkSite {
  call_stack : NativeCallStack;
  flags : MEMFLAGS
}.

#[export] Instance MallocSite_eq_dec : EqDecision MallocSite.
Proof. solve_decision. Defined.

(** [MallocSiteHashtableEntry]: a site and the link to the next entry of the
    bucket. *)
Record MallocSiteHashtableEntry := mkEntry {
  _malloc_site : MallocSite;
  _next : option addr
}.

(** The static fields of [MallocSiteTable] together with the memory holding
    the entries. *)
Record state := mkState {
  _table : list (option addr);
  store : gmap addr MallocSiteHashtableEntry;
  _hash_entry_allocation_stack : option NativeCallStack;
  _hash_entry_allocation_site : option addr
}.

Definition set_table (t : list (option addr)) (st : state) : state :=
  mkState t (store st) (_hash_entry_allocation_stack st)
          (_hash_entry_allocation_site st).

Definition set_store (h : gmap addr MallocSiteHashtableEntry) (st : state)
    : state :=
  mkState (_table st) h (_hash_entry_allocation_stack st)
          (_hash_entry_allocation_site st).

(** [AllocateHeap(..., AllocFailStrategy::RETURN_NULL)] belongs to the
    allocator: what it answers, given the memory in use, is an argument of
    the operations that allocate. *)
Definition Allocator := gmap addr MallocSiteHashtableEntry -> option addr.

(** An allocator hands out memory that is not in use. *)
Definition fresh_allocator (AllocateHeap : Allocator) : Prop :=
  forall h a, AllocateHeap h = Some a -> h !! a = None.

(** [delete p] *)
Definition delete_entry (p : addr) (st : state) : state :=
  set_store (delete p (store st)) st.

(** [MallocSiteTable::new_entry].  The allocation is attributed to
    [*hash_entry_allocation_stack()], so that pointer is dereferenced: no
    result when it is [NULL].  The entry is constructed in the memory the
    allocator returned, with no successor; the result is [NULL] when
    allocation failed. *)
Definition new_entry (AllocateHeap : Allocator) (key : NativeCallStack)
    (flags : MEMFLAGS) (st : state) : option (option addr * state) :=
  _ ← _hash_entry_allocation_stack st;
  match AllocateHeap (store st) with
  | None => Some (None, st)
  | Some p =>
      Some (Some p,
            set_store (<[p := mkEntry (mkSite key flags) None]> (store st)) st)
  end.

(** [Atomic::replace_if_null(entry, &_table[index])] *)
Definition replace_if_null_head (entry : addr) (index : nat) (st : state)
    : option (bool * state) :=
  cur ← _table st !! index;
  match cur with
  | None => Some (true, set_table (<[index := Some entry]> (_table st)) st)
  | Some _ => Some (false, st)
  end.

(** [MallocSiteHashtableEntry::atomic_insert]:
    [Atomic::replace_if_null(entry, &_next)] on the entry at [this]. *)
Definition atomic_insert (this entry : addr) (st : state)
    : option (bool * state) :=
  e ← store st !! this;
  match _next e with
  | None =>
      Some (true, set_store (<[this := mkEntry (_malloc_site e) (Some entry)]> (store st)) st)
  | Some _ => Some (false, st)
  end.

(** [site->flags() == flags && site->equals(key)] *)
Definition site_matches (key : NativeCallStack) (fl : MEMFLAGS)
    (site : MallocSite) : Prop :=
  flags site = fl /\ call_stack site = key.

#[export] Instance site_matches_dec key fl site : Decision (site_matches key fl site).
Proof. unfold site_matches. apply _. Defined.

(** [chain h head l]: following [_next] from [head] through the entries in
    [h] visits exactly the addresses [l], in order, and ends at [NULL]. *)
Inductive chain (h : gmap addr MallocSiteHashtableEntry)
    : option addr -> list addr -> Prop :=
| chain_nil : chain h None []
| chain_cons a e l :
    h !! a = Some e -> chain h (_next e) l -> chain h (Some a) (a :: l).

(** No entry among [l] holds the site [(key, fl)]. *)
Definition no_match (h : gmap addr MallocSiteHashtableEntry)
    (key : NativeCallStack) (fl : MEMFLAGS) (l : list addr) : Prop :=
  forall a e, a ∈ l -> h !! a = Some e -> ~ site_matches key fl (_malloc_site e).

Section Table.

(** Constants and helpers of mallocSiteTable.hpp and nativeCallStack.hpp,
    which are not among the sources. *)
Variable hash : NativeCallStack -> nat.
Variable mtNone : MEMFLAGS.
Variable mtNMT : MEMFLAGS.
Variable table_size : nat.
Variable MAX_BUCKET_LENGTH : nat.
Variable MAX_MALLOCSITE_TABLE_SIZE : nat.
Variable NMT_TrackingStackDepth : nat.

(** Modelled from the spec: [hash_to_index] is declared in the header; the
    index is the hash modulo the table size. *)
Definition hash_to_index (h : nat) : nat := h mod table_size.

(** What one pass over the body of the chain walk of [lookup_or_add] does
    when the entry at [head] does not match: the attempt to append at the
    tail.  [inl r] is an early [return r]; [inr st'] falls through to the
    advance of [head]. *)
Definition try_append (AllocateHeap : Allocator) (key : NativeCallStack)
    (fl : MEMFLAGS) (head : addr) (e : MallocSiteHashtableEntry)
    (pos_idx : nat) (st : state)
    : option ((option addr * nat * state) + state) :=
  if decide (_next e = None /\ pos_idx < MAX_BUCKET_LENGTH) then
    '(entry, st1) ← new_entry AllocateHeap key fl st;
    match entry with
    | None => Some (inl (None, pos_idx, st1))
    | Some entry =>
        '(inserted, st2) ← atomic_insert head entry st1;
        if inserted : bool then Some (inl (Some entry, S pos_idx, st2))
        else Some (inr (delete_entry entry st2))
    end
  else Some (inr st).

(** [while (head != NULL && *pos_idx <= MAX_BUCKET_LENGTH) { ... }
    return NULL;] of [lookup_or_add].  The loop runs at most
    [MAX_BUCKET_LENGTH + 1] times; [fuel] bounds the iterations left. *)
Fixpoint lookup_loop (fuel : nat) (AllocateHeap : Allocator)
    (key : NativeCallStack) (fl : MEMFLAGS) (head : option addr)
    (pos_idx : nat) (st : state) : option (option addr * nat * state) :=
  match fuel with
  | O => Some (None, pos_idx, st)
  | S fuel' =>
      match head with
      | None => Some (None, pos_idx, st)
      | Some h =>
          if decide (pos_idx <= MAX_BUCKET_LENGTH) then
            e ← store st !! h;
            if decide (site_matches key fl (_malloc_site e))
            then Some (Some h, pos_idx, st)
            else
              r ← try_append AllocateHeap key fl h e pos_idx st;
              match r with
              | inl ret => Some ret
              | inr st' =>
                  e' ← store st' !! h;
                  lookup_loop fuel' AllocateHeap key fl (_next e') (S pos_idx) st'
              end
          else Some (None, pos_idx, st)
      end
  end.

(** [MallocSiteTable::lookup_or_add].  The result is the returned
    [MallocSite*], the values left in [*bucket_idx] and [*pos_idx], and the
    state; [None] when an assertion fails or a pointer that is followed
    does not point to an entry. *)
Definition lookup_or_add (AllocateHeap : Allocator) (key : NativeCallStack)
    (fl : MEMFLAGS) (st : state)
    : option (option addr * nat * nat * state) :=
  if decide (fl = mtNone) then None
  else
    let index := hash_to_index (hash key) in
    let bucket_idx := index in
    let search (st : state) :=
      head ← _table st !! index;
      '(site, pos_idx, st') ←
        lookup_loop (S MAX_BUCKET_LENGTH) AllocateHeap key fl head 0 st;
      Some (site, bucket_idx, pos_idx, st') in
    first ← _table st !! index;
    match first with
    | None =>
        '(entry, st1) ← new_entry AllocateHeap key fl st;
        match entry with
        | None => Some (None, bucket_idx, 0, st1)
        | Some entry =>
            '(swapped, st2) ← replace_if_null_head entry index st1;
            if swapped : bool then Some (Some entry, bucket_idx, 0, st2)
            else search (delete_entry entry st2)
        end
    | Some _ => search st
    end.

(** The [for] loop of [malloc_site]; [n] is [pos_idx - index]. *)
Fixpoint malloc_site_loop (n : nat) (head : option addr) (st : state)
    : option (option addr) :=
  match n with
  | O => Some head
  | S n' =>
      match head with
      | None => Some None
      | Some h => e ← store st !! h; malloc_site_loop n' (_next e) st
      end
  end.

(** [MallocSiteTable::malloc_site]; [None] when an assertion fails. *)
Definition malloc_site (bucket_idx pos_idx : nat) (st : state) : option addr :=
  if decide (bucket_idx < table_size) then
    head ← _table st !! bucket_idx;
    head' ← malloc_site_loop pos_idx head st;
    head'
  else None.

Section Walk.

(** A [MallocSiteWalker]: its state and its [do_malloc_site]. *)
Context {W : Type}.
Variable do_malloc_site : W -> MallocSite -> bool * W.

(** The inner [while (head != NULL)] loop of [walk].  A chain is not bounded
    by the code; [fuel] bounds the entries visited and running out of it is
    no result. *)
Fixpoint walk_chain (fuel : nat) (head : option addr) (st : state) (w : W)
    : option (bool * W) :=
  match head with
  | None => Some (true, w)
  | Some h =>
      match fuel with
      | O => None
      | S fuel' =>
          e ← store st !! h;
          let '(continue, w') := do_malloc_site w (_malloc_site e) in
          if continue : bool then walk_chain fuel' (_next e) st w'
          else Some (false, w')
      end
  end.

(** The outer [for] loop of [walk] over the bucket indexes. *)
Fixpoint walk_buckets (indexes : list nat) (st : state) (w : W)
    : option (bool * W) :=
  match indexes with
  | [] => Some (true, w)
  | index :: rest =>
      head ← _table st !! index;
      '(continue, w') ← walk_chain (size (store st)) head st w;
      if continue : bool then walk_buckets rest st w' else Some (false, w')
  end.

(** [MallocSiteTable::walk] *)
Definition walk (st : state) (w : W) : option (bool * W) :=
  walk_buckets (seq 0 table_size) st w.

End Walk.

(** [MallocSiteTable::delete_linked_list]; [fuel] as in [walk_chain]. *)
Fixpoint delete_linked_list (fuel : nat) (head : option addr) (st : state)
    : option state :=
  match head with
  | None => Some st
  | Some p =>
      match fuel with
      | O => None
      | S fuel' =>
          e ← store st !! p;
          let head' := _next e in
          let st' := if decide (Some p <> _hash_entry_allocation_site st)
                     then delete_entry p st else st in
          delete_linked_list fuel' head' st'
      end
  end.

(** The [for] loop of [reset]. *)
Fixpoint reset_buckets (indexes : list nat) (st : state) : option state :=
  match indexes with
  | [] => Some st
  | index :: rest =>
      head ← _table st !! index;
      let st1 := set_table (<[index := None]> (_table st)) st in
      st2 ← delete_linked_list (size (store st1)) head st1;
      reset_buckets rest st2
  end.

(** [MallocSiteTable::reset] *)
Definition reset (st : state) : option state :=
  st' ← reset_buckets (seq 0 table_size) st;
  Some (mkState (_table st') (store st') None None).

(** The pseudo call stack [initialize] builds for the allocation of hash
    entries: the addresses of [new_entry], [lookup_or_add] and
    [allocation_at], cut to the tracking depth. *)
Definition pseudo_stack (pc_new_entry pc_lookup_or_add pc_allocation_at : address)
    : NativeCallStack :=
  take (Nat.min 3 NMT_TrackingStackDepth)
       [pc_new_entry; pc_lookup_or_add; pc_allocation_at].

(** [MallocSiteTable::initialize].  The arguments are the addresses of the
    three functions and the address [entry] of the function's static hash
    entry; [None] when an assertion fails.  [stack] and [entry] are
    function-local statics: they are constructed by the first call and keep
    what they hold on every later call, so the memory at [entry] is written
    only when nothing lives there yet. *)
Definition initialize (pc_new_entry pc_lookup_or_add pc_allocation_at : address)
    (entry : addr) (st : state) : option (bool * state) :=
  if decide (table_size <= MAX_MALLOCSITE_TABLE_SIZE /\
             1 < NMT_TrackingStackDepth /\
             _hash_entry_allocation_stack st = None /\
             _hash_entry_allocation_site st = None) then
    let stack := pseudo_stack pc_new_entry pc_lookup_or_add pc_allocation_at in
    let index := hash_to_index (hash stack) in
    let h := match store st !! entry with
             | Some _ => store st
             | None => <[entry := mkEntry (mkSite stack mtNMT) None]> (store st)
             end in
    Some (true,
          mkState (<[index := Some entry]> (_table st)) h
                  (Some stack) (Some entry))
  else None.

(** The table before [initialize]: every bucket is [NULL]. *)
Definition initial_state : state :=
  mkState (replicate table_size None) ∅ None None.

(** The invariant of the table, with [buckets] the chain of every bucket:
    the chains are well linked and pairwise disjoint, every entry sits in
    the bucket of its call stack's hash, and no two entries of a bucket hold
    the same site. *)
Record table_inv (st : state) (buckets : list (list addr)) : Prop := {
  inv_size : length (_table st) = table_size;
  inv_chains : Forall2 (chain (store st)) (_table st) buckets;
  inv_disjoint : forall i j li lj a,
    buckets !! i = Some li -> buckets !! j = Some lj ->
    a ∈ li -> a ∈ lj -> i = j;
  inv_index : forall i l a e,
    buckets !! i = Some l -> a ∈ l -> store st !! a = Some e ->
    hash_to_index (hash (call_stack (_malloc_site e))) = i;
  inv_unique : forall i l a b ea eb,
    buckets !! i = Some l -> a ∈ l -> b ∈ l ->
    store st !! a = Some ea -> store st !! b = Some eb ->
    _malloc_site ea = _malloc_site eb -> a = b
}.

Definition wf (st : state) : Prop := exists buckets, table_inv st buckets.

(** The state after a new entry at [n] for [(key, fl)] has been installed as
    the head of the empty bucket [index]. *)
Definition installed_head (index : nat) (n : addr) (key : NativeCallStack)
    (fl : MEMFLAGS) (st : state) : state :=
  mkState (<[index := Some n]> (_table st))
          (<[n := mkEntry (mkSite key fl) None]> (store st))
          (_hash_entry_allocation_stack st) (_hash_entry_allocation_site st).

(** The state after a new entry at [n] for [(key, fl)] has been linked
    behind the tail [t], whose entry was [et]. *)
Definition appended_tail (t : addr) (et : MallocSiteHashtableEntry) (n : addr)
    (key : NativeCallStack) (fl : MEMFLAGS) (st : state) : state :=
  set_store (<[t := mkEntry (_malloc_site et) (Some n)]>
               (<[n := mkEntry (mkSite key fl) None]> (store st))) st.

(** The state after [n] has joined the bucket [index] whose chain was [l]. *)
Definition added_state (index : nat) (l : list addr) (n : addr)
    (key : NativeCallStack) (fl : MEMFLAGS) (st : state) : state :=
  match last l with
  | None => installed_head index n key fl st
  | Some t =>
      match store st !! t with
      | Some et => appended_tail t et n key fl st
      | None => st
      end
  end.

(** Repeated calls of [lookup_or_add] with the same key and flags, one per
    allocator answer in [allocs]; the results of the calls, in order, and
    the final state. *)
Fixpoint repeat_lookup_or_add (allocs : list Allocator)
    (key : NativeCallStack) (fl : MEMFLAGS) (st : state)
    : option (list (option addr * nat * nat) * state) :=
  match allocs with
  | [] => Some ([], st)
  | alloc :: rest =>
      '(site, bucket_idx, pos_idx, st1) ← lookup_or_add alloc key fl st;
      '(results, st2) ← repeat_lookup_or_add rest key fl st1;
      Some ((site, bucket_idx, pos_idx) :: results, st2)
  end.

(** [a] is an entry of one of the buckets [idxs]. *)
Definition in_buckets (buckets : list (list addr)) (idxs : list nat) (a : addr)
    : Prop :=
  exists i l, i ∈ idxs /\ buckets !! i = Some l /\ a ∈ l.

(** The sites held by the entries [l], in order. *)
Definition sites_of (h : gmap addr MallocSiteHashtableEntry) (l : list addr)
    : list MallocSite :=
  omap (fun a => _malloc_site <$> h !! a) l.

(** A walker called on the sites [sites] in order, until it answers false:
    whether it went through all of them, and its final state. *)
Fixpoint visit {W : Type} (do_malloc_site : W -> MallocSite -> bool * W)
    (sites : list MallocSite) (w : W) : bool * W :=
  match sites with
  | [] => (true, w)
  | site :: rest =>
      let '(continue, w') := do_malloc_site w site in
      if continue : bool then visit do_malloc_site rest w' else (false, w')
  end.

(** No chain holds more than [MAX_BUCKET_LENGTH + 1] entries. *)
Definition bounded_buckets (buckets : list (list addr)) : Prop :=
  forall i l, buckets !! i = Some l -> length l <= S MAX_BUCKET_LENGTH.

(** A run of [lookup_or_add] calls, each with its allocator answer, key and
    flags; the state after the last call. *)
Fixpoint lookup_calls (calls : list (Allocator * NativeCallStack * MEMFLAGS))
    (st : state) : option state :=
  match calls with
  | [] => Some st
  | (alloc, key, fl) :: rest =>
      '(_, _, _, st1) ← lookup_or_add alloc key fl st;
      lookup_calls rest st1
  end.

End Table.

(** *** Sample inputs

    A table of four buckets with [MAX_BUCKET_LENGTH] 2, a hash that adds
    the frames, and an allocator that always finds memory.  The keys [[3]],
    [[7]], [[11]] and [[15]] all fall into bucket 3. *)
Definition sample_hash (k : NativeCallStack) : nat :=
  Z.to_nat (foldr Z.add 0%Z k).
Definition sample_mtNone : MEMFLAGS := 19%Z.
Definition sample_mtNMT : MEMFLAGS := 10%Z.
Definition sample_flags : MEMFLAGS := 5%Z.
Definition sample_alloc : Allocator := fun h => Some (fresh (dom h)).
Definition no_memory : Allocator := fun _ => None.

(** The table after [initialize], with the bootstrap entry at address 1 in
    bucket 1. *)
Definition sample_s0 : state :=
  match initialize sample_hash sample_mtNMT 4 4095 4 3%Z 7%Z 11%Z 1%positive
          (initial_state 4) with
  | Some (_, st) => st
  | None => initial_state 4
  end.

(** Then with one, two and three entries in bucket 3, at the addresses 2, 3
    and 4. *)
Definition sample_s1 : state := added_state 3 [] 2%positive [3%Z] sample_flags sample_s0.
Definition sample_s2 : state :=
  added_state 3 [2%positive] 3%positive [7%Z] sample_flags sample_s1.
Definition sample_s3 : state :=
  added_state 3 [2%positive; 3%positive] 4%positive [11%Z] sample_flags sample_s2.

End MallocSiteTable.

(** ** MallocSiteTable::AccessLock (mallocSiteTable.cpp) *)
Module AccessLock.

Local Open Scope Z_scope.

(** [int] is 32 bits wide; atomic arithmetic on it wraps. *)
Definition min_jint : Z := - 2 ^ 31.
Definition wrap_int (z : Z) : Z := (z + 2 ^ 31) mod 2 ^ 32 - 2 ^ 31.

(** [AccessLock::LockState] *)
Inductive LockState := NoLock | SharedLock | ExclusiveLock.

#[export] Instance LockState_eq_dec : EqDecision LockState.
Proof. solve_decision. Defined.

(** Where the thread inside [exclusiveLock] stands: each constructor is the
    point before one access to the shared counter [*_lock], with the locals
    [val] and [target] read so far. *)
Inductive exclusive_pc :=
| AtEntry
| AtReadVal
| AtReadTarget (val : Z)
| AtCmpxchg (val target : Z)
| AtWait
| Returned.

(** The counter [_access_count] that [_lock] points to, the threads that
    hold shared access, and the thread calling [exclusiveLock] with the
    [_lock_state] of its [AccessLock]. *)
Record system := mkSystem {
  lock : Z;
  readers : list nat;
  writer_pc : exclusive_pc;
  writer_state : LockState
}.

Definition initial : system := mkSystem 0 [] AtEntry NoLock.

Section Lock.

(** [_MAGIC_] is declared in the header, which is not among the sources. *)
Variable _MAGIC_ : Z.

(** One access of [AccessLock::exclusiveLock] to the counter, as one atomic
    step: the assertions on entry, [val = *_lock], [target = _MAGIC_ +
    *_lock], the [cmpxchg], and one test of the waiting loop.  [None] when an
    assertion fails or the call has returned. *)
Definition exclusiveLock_step (s : system) : option system :=
  match writer_pc s with
  | AtEntry =>
      if decide (writer_state s <> ExclusiveLock /\ 0 <= lock s)
      then Some (mkSystem (lock s) (readers s) AtReadVal (writer_state s))
      else None
  | AtReadVal =>
      Some (mkSystem (lock s) (readers s) (AtReadTarget (lock s)) (writer_state s))
  | AtReadTarget val =>
      Some (mkSystem (lock s) (readers s)
                     (AtCmpxchg val (wrap_int (_MAGIC_ + lock s))) (writer_state s))
  | AtCmpxchg val target =>
      if decide (lock s = val)
      then Some (mkSystem target (readers s) AtWait (writer_state s))
      else Some (mkSystem (lock s) (readers s) AtReadVal (writer_state s))
  | AtWait =>
      if decide (lock s <> _MAGIC_)
      then Some s
      else Some (mkSystem (lock s) (readers s) Returned ExclusiveLock)
  | Returned => None
  end.

(** Modelled from the spec: [AccessLock::sharedLock] is defined in the
    header; it is a lock-free increment of the access counter, but only if
    the counter is currently non-negative, and fails without blocking
    otherwise. *)
Definition sharedLock (t : nat) (s : system) : bool * system :=
  if decide (0 <= lock s)
  then (true, mkSystem (wrap_int (lock s + 1)) (t :: readers s)
                       (writer_pc s) (writer_state s))
  else (false, s).

(** Modelled from the spec: releasing shared access is a pure decrement of
    the counter by a thread that holds shared access. *)
Definition sharedUnlock (t : nat) (s : system) : option system :=
  if decide (t ∈ readers s)
  then Some (mkSystem (wrap_int (lock s - 1))
                      (filter (fun r => r <> t) (readers s))
                      (writer_pc s) (writer_state s))
  else None.

(** What the scheduler runs next: a thread acquiring or releasing shared
    access, or the next step of the thread inside [exclusiveLock]. *)
Inductive event :=
| Shared (t : nat)
| Release (t : nat)
| Exclusive.

Definition step (ev : event) (s : system) : option system :=
  match ev with
  | Shared t => if decide (t ∈ readers s) then None else Some (sharedLock t s).2
  | Release t => sharedUnlock t s
  | Exclusive => exclusiveLock_step s
  end.

Fixpoint run (schedule : list event) (s : system) : option system :=
  match schedule with
  | [] => Some s
  | ev :: rest => s' ← step ev s; run rest s'
  end.

(** The counter counts the shared holders, offset by [_MAGIC_] once the
    [cmpxchg] of [exclusiveLock] has succeeded; [k] bounds the threads that
    may still come. *)
Definition counter_inv (k : Z) (s : system) : Prop :=
  let n := Z.of_nat (length (readers s)) in
  NoDup (readers s) /\ n + k < - _MAGIC_ /\
  match writer_pc s with
  | AtEntry | AtReadVal => lock s = n
  | AtReadTarget val => lock s = n /\ val = n
  | AtCmpxchg val target => lock s = n /\ target = _MAGIC_ + val
  | AtWait => lock s = _MAGIC_ + n
  | Returned => lock s = _MAGIC_ /\ n = 0
  end.

(** A schedule in which no other thread touches the counter between the
    two reads of it in [exclusiveLock], [val = *_lock] and [target = _MAGIC_
    + *_lock]. *)
Fixpoint undisturbed (schedule : list event) (s : system) : Prop :=
  match schedule with
  | [] => True
  | ev :: rest =>
      match writer_pc s, ev with
      | AtReadTarget _, (Shared _ | Release _) => False
      | _, _ => match step ev s with
                | Some s' => undisturbed rest s'
                | None => True
                end
      end
  end.

End Lock.

(** The interleaving: threads 1 and 2 acquire shared access; the writer
    enters [exclusiveLock] and reads [val = 2]; thread 1 releases; the
    writer reads the counter again for [target = _MAGIC_ + 1]; thread 3
    acquires, so the counter is 2 again and the [cmpxchg] succeeds; thread
    3 releases and the counter equals [_MAGIC_]. *)
Definition racy_schedule : list event :=
  [Shared 1%nat; Shared 2%nat; Exclusive; Exclusive; Release 1%nat; Exclusive;
   Shared 3%nat; Exclusive; Release 3%nat; Exclusive].

(** Thread 1 holds shared access while the writer adds [_MAGIC_]; the
    writer waits until thread 1 has released. *)
Definition calm_schedule : list event :=
  [Shared 1%nat; Exclusive; Exclusive; Exclusive; Exclusive; Exclusive;
   Release 1%nat; Exclusive].

End AccessLock.

(** ** MallocSiteTable::walk_malloc_site (mallocSiteTable.cpp) *)
Module MallocSiteTableAccess.

Import MallocSiteTable AccessLock.

Section Access.

Variable table_size : nat.
Context {W : Type}.
Variable do_malloc_site : W -> MallocSite -> bool * W.

(** [MallocSiteTable::walk_malloc_site] called by thread [t], with no other
    thread running meanwhile.  The [AccessLock locker] lives until the
    function returns: when [sharedLock] has succeeded its destructor
    releases the shared access after the walk ([sharedUnlock]; the
    destructor is defined in the header).  The assertion that the walker is
    not [NULL] holds of every walker here, and the update of [_peak_count]
    exists in non-product builds only. *)
Definition walk_malloc_site (t : nat) (s : system) (st : state) (w : W)
    : option (bool * W * system) :=
  let '(granted, s1) := sharedLock t s in
  if granted : bool then
    '(result, w') ← walk table_size do_malloc_site st w;
    s2 ← sharedUnlock t s1;
    Some (result, w', s2)
  else Some (false, w, s1).

End Access.

End MallocSiteTableAccess.

(** * Properties *)

(** ** G1BarrierSet *)
Module G1BarrierSetProofs.
Import G1BarrierSet.

Local Open Scope Z_scope.

Lemma fun_upd_eq {A B} `{EqDecision A} (f : A -> B) a b : fun_upd f a b a = b.
Proof. unfold fun_upd. by rewrite decide_True. Qed.

Lemma fun_upd_ne {A B} `{EqDecision A} (f : A -> B) a b x :
  x <> a -> fun_upd f a b x = f x.
Proof. intros. unfold fun_upd. by rewrite decide_False. Qed.

Section Props.
Variable g1_young_card_val : CardValue.
Variable dirty_card_val : CardValue.
Variable byte_map_base : Z.
Variable card_shift : Z.
Variable HeapWordSize : Z.

Local Abbreviation write_ref_field_post_slow :=
  (write_ref_field_post_slow g1_young_card_val dirty_card_val).
Local Abbreviation invalidate :=
  (invalidate g1_young_card_val dirty_card_val byte_map_base card_shift HeapWordSize).
Local Abbreviation byte_for := (byte_for byte_map_base card_shift).
Local Abbreviation mr_last := (mr_last HeapWordSize).
Local Abbreviation skip_young := (skip_young g1_young_card_val).
Local Abbreviation dirty_loop := (dirty_loop g1_young_card_val dirty_card_val).
Local Abbreviation needs_dirtying := (needs_dirtying g1_young_card_val dirty_card_val).
Local Abbreviation dcq_consistent := (dcq_consistent dirty_card_val).
Local Abbreviation covering_cards := (covering_cards byte_map_base card_shift HeapWordSize).

Lemma write_ref_array_pre_loop_queue {T} `{HeapOop T} (load : Z -> T) thr n :
  forall p st, satb_is_active st = true ->
  let st' := write_ref_array_pre_loop load thr n p st in
  satb_mark_queue st' thr = satb_mark_queue st thr ++ existing_values load p n /\
  (forall t, t <> thr -> satb_mark_queue st' t = satb_mark_queue st t) /\
  byte_map st' = byte_map st /\ dirty_card_queue st' = dirty_card_queue st /\
  satb_is_active st' = true.
Proof.
  induction n as [|n IH]; intros p st Hact; cbn zeta.
  - simpl. unfold existing_values. rewrite seqZ_nil by lia. simpl.
    by rewrite app_nil_r.
  - cbn [write_ref_array_pre_loop]. unfold existing_values.
    rewrite seqZ_cons by lia. cbn [omap list_omap].
    replace (Z.pred (Z.of_nat (S n))) with (Z.of_nat n) by lia.
    replace (Z.succ p) with (p + 1) by lia.
    fold (existing_values load (p + 1) n).
    destruct (is_null (load p)) eqn:Hnull; cbn [negb].
    + apply IH; done.
    + unfold enqueue, satb_enqueue. rewrite Hact.
      match goal with |- context [write_ref_array_pre_loop _ _ _ _ ?s] =>
        specialize (IH (p + 1) s eq_refl) end.
      cbn zeta in IH. destruct IH as (Hq & Ho & Hb & Hd & Ha). cbn in *.
      rewrite Hq, Hb, Hd, Ha, fun_upd_eq, <- app_assoc. repeat split; try done.
      intros t Ht. rewrite Ho by done. by rewrite fun_upd_ne.
Qed.


(** C6: [write_ref_array_pre] enqueues nothing when the destination is
    flagged uninitialized or when SATB marking is inactive; otherwise it
    appends to the current thread's SATB queue exactly the non-null values
    found in the [count] slots from [dst] on, in ascending slot order, and it
    changes nothing else. *)
Theorem write_ref_array_pre_enqueues_existing_values {T} `{HeapOop T} (load : Z -> T) thr dst count
    dest_uninitialized st :
  let st' := write_ref_array_pre load thr dst count dest_uninitialized st in
  satb_mark_queue st' thr =
    satb_mark_queue st thr ++
      (if dest_uninitialized || negb (satb_is_active st) then []
       else existing_values load dst count) /\
  (forall t, t <> thr -> satb_mark_queue st' t = satb_mark_queue st t) /\
  byte_map st' = byte_map st /\ dirty_card_queue st' = dirty_card_queue st /\
  satb_is_active st' = satb_is_active st.
Proof.
  unfold write_ref_array_pre, write_ref_array_pre_work.
  destruct dest_uninitialized; cbn [negb orb].
  { by rewrite app_nil_r. }
  destruct (satb_is_active st) eqn:Hact; cbn [negb].
  - pose proof (write_ref_array_pre_loop_queue load thr count dst st Hact) as Hl.
    cbn zeta in Hl. destruct Hl as (? & ? & ? & ? & ?). by repeat split.
  - rewrite app_nil_r. by rewrite Hact.
Qed.

Lemma post_slow_dirty thr byte st :
  byte_map st byte <> g1_young_card_val ->
  byte_map st byte = dirty_card_val ->
  write_ref_field_post_slow thr byte st = Some st.
Proof.
  intros Hy Hd. unfold G1BarrierSet.write_ref_field_post_slow.
  rewrite decide_False by done. by rewrite decide_True.
Qed.

Lemma post_slow_not_dirty thr byte st :
  byte_map st byte <> g1_young_card_val ->
  byte_map st byte <> dirty_card_val ->
  write_ref_field_post_slow thr byte st =
    Some (dcq_enqueue thr byte (store_card byte dirty_card_val st)).
Proof.
  intros Hy Hd. unfold G1BarrierSet.write_ref_field_post_slow.
  by rewrite !decide_False.
Qed.

Lemma dirty_enqueue_consistent thr byte st :
  byte_map st byte <> dirty_card_val ->
  dcq_consistent st ->
  dcq_consistent (dcq_enqueue thr byte (store_card byte dirty_card_val st)).
Proof.
  intros Hd Hinv t. destruct (Hinv t) as [Hnd Hall]. cbn.
  assert (Hmap : forall c, byte_map st c = dirty_card_val ->
            fun_upd (byte_map st) byte dirty_card_val c = dirty_card_val).
  { intros c Hc. unfold fun_upd. by case_decide. }
  destruct (decide (t = thr)) as [->|Hne].
  - rewrite fun_upd_eq. split.
    + apply NoDup_app. split; [done|]. split; [|apply NoDup_singleton].
      intros c Hc Hin. apply list_elem_of_singleton in Hin as ->.
      apply Hd. by apply Hall.
    + intros c [Hc|Hc]%elem_of_app; [by apply Hmap, Hall|].
      apply list_elem_of_singleton in Hc as ->. apply fun_upd_eq.
  - rewrite fun_upd_ne by done. split; [done|].
    intros c Hc. by apply Hmap, Hall.
Qed.

Lemma post_slow_consistent thr byte st st' :
  write_ref_field_post_slow thr byte st = Some st' ->
  dcq_consistent st -> dcq_consistent st'.
Proof.
  unfold G1BarrierSet.write_ref_field_post_slow.
  repeat case_decide; intros [= <-] Hinv; [done|].
  by apply dirty_enqueue_consistent.
Qed.

Lemma post_barriers_consistent calls : forall st st',
  post_barriers g1_young_card_val dirty_card_val calls st = Some st' ->
  dcq_consistent st -> dcq_consistent st'.
Proof.
  induction calls as [|[thr byte] calls IH]; intros st st'; cbn.
  - by intros [= <-].
  - destruct (write_ref_field_post_slow thr byte st) as [st1|] eqn:H1; cbn; [|done].
    intros Hrun Hinv. eapply IH; [done|]. by eapply post_slow_consistent.
Qed.


Lemma filter_ext_in {A} (P Q : A -> Prop) `{!forall x, Decision (P x)}
    `{!forall x, Decision (Q x)} (l : list A) :
  (forall x, x ∈ l -> P x <-> Q x) -> filter P l = filter Q l.
Proof.
  induction l as [|x l IH]; intros Hext; [done|].
  rewrite !filter_cons.
  rewrite IH by (intros y Hy; apply Hext; by right).
  destruct (decide (P x)) as [HP|HP], (decide (Q x)) as [HQ|HQ]; try done.
  - exfalso. apply HQ, (Hext x); [left|done].
  - exfalso. apply HP, (Hext x); [left|done].
Qed.

Lemma filter_none {A} (P : A -> Prop) `{!forall x, Decision (P x)} (l : list A) :
  (forall x, x ∈ l -> ~ P x) -> filter P l = [].
Proof.
  induction l as [|x l IH]; intros Hno; [done|].
  rewrite filter_cons_False by (apply Hno; left).
  apply IH. intros y Hy. apply Hno. by right.
Qed.

Lemma skip_young_spec last st fuel : forall byte,
  (span byte last <= fuel)%nat ->
  let b := skip_young fuel byte last st in
  byte <= b /\
  (b <= last -> byte_map st b <> g1_young_card_val) /\
  (forall c, byte <= c < b -> c <= last /\ byte_map st c = g1_young_card_val).
Proof.
  unfold span.
  induction fuel as [|fuel IH]; intros byte Hfuel; cbn.
  - split; [lia|]. split; [lia|]. lia.
  - case_decide as Hc.
    + destruct Hc as [Hle Hy].
      destruct (IH (byte + 1)) as (H1 & H2 & H3); [lia|].
      split; [lia|]. split; [done|].
      intros c Hc. destruct (decide (c = byte)) as [->|]; [done|].
      apply H3. lia.
    + split; [lia|]. split; [|lia].
      intros Hle Hy. by apply Hc.
Qed.

Lemma dirty_loop_spec thr last fuel : forall byte st,
  (span byte last <= fuel)%nat ->
  let st' := dirty_loop fuel thr byte last st in
  (forall c, byte_map st' c =
     if decide (byte <= c <= last /\ needs_dirtying st c)
     then dirty_card_val else byte_map st c) /\
  dirty_card_queue st' thr =
    dirty_card_queue st thr ++
      filter (needs_dirtying st) (seqZ byte (last - byte + 1)) /\
  (forall t, t <> thr -> dirty_card_queue st' t = dirty_card_queue st t) /\
  satb_mark_queue st' = satb_mark_queue st /\
  satb_is_active st' = satb_is_active st.
Proof.
  unfold span.
  induction fuel as [|fuel IH]; intros byte st Hfuel; cbn zeta.
  - cbn. rewrite seqZ_nil by lia. rewrite filter_nil, app_nil_r.
    repeat split; try done. intros c. rewrite decide_False; [done|lia].
  - cbn [G1BarrierSet.dirty_loop]. case_decide as Hle.
    2:{ rewrite seqZ_nil by lia. rewrite filter_nil, app_nil_r.
        repeat split; try done. intros c. rewrite decide_False; [done|lia]. }
    rewrite seqZ_cons by lia. rewrite filter_cons.
    replace (Z.succ byte) with (byte + 1) by lia.
    replace (Z.pred (last - byte + 1)) with (last - (byte + 1) + 1) by lia.
    match goal with |- context [G1BarrierSet.dirty_loop _ _ _ _ _ _ ?s] =>
      set (st1 := s) end.
    destruct (IH (byte + 1) st1) as (Hm & Hq & Ho & Hs & Ha); [lia|].
    assert (Hsame : forall c, c <> byte -> byte_map st1 c = byte_map st c).
    { intros c Hc. subst st1. case_decide; [|done]. cbn. by rewrite fun_upd_ne. }
    assert (Hneeds : forall c, c <> byte -> needs_dirtying st1 c <-> needs_dirtying st c).
    { intros c Hc. unfold G1BarrierSet.needs_dirtying. by rewrite Hsame. }
    rewrite (filter_ext_in (needs_dirtying st1) (needs_dirtying st)) in Hq.
    2:{ intros c Hc. apply Hneeds. apply list_elem_of_lookup in Hc as [i Hi].
        apply lookup_seqZ in Hi. lia. }
    split; [|split; [|split; [|split]]].
    + intros c. rewrite Hm.
      destruct (decide (c = byte)) as [->|Hne].
      * rewrite decide_False by lia. subst st1.
        fold (needs_dirtying st byte).
        destruct (decide (needs_dirtying st byte)) as [Hn|Hn].
        -- cbn. rewrite fun_upd_eq. rewrite decide_True; [done|]. split; [lia|done].
        -- rewrite decide_False; [done|]. intros [_ ?]. done.
      * rewrite Hsame by done.
        destruct (decide (byte + 1 <= c <= last /\ needs_dirtying st1 c)) as [[? Hn]|Hn].
        -- rewrite decide_True; [done|]. split; [lia|]. by apply Hneeds.
        -- rewrite decide_False; [done|]. intros [? ?]. apply Hn. split; [lia|].
           by apply Hneeds.
    + rewrite Hq. subst st1. fold (needs_dirtying st byte).
      destruct (decide (needs_dirtying st byte)); [|done].
      cbn. rewrite fun_upd_eq. by rewrite <- app_assoc.
    + intros t Ht. rewrite Ho by done. subst st1. case_decide; [|done].
      cbn. by rewrite fun_upd_ne.
    + rewrite Hs. subst st1. by case_decide.
    + rewrite Ha. subst st1. by case_decide.
Qed.

Lemma invalidate_spec thr mr st :
  is_empty mr = false ->
  let st' := invalidate thr mr st in
  (forall c, byte_map st' c =
     if decide (c ∈ covering_cards mr /\ needs_dirtying st c)
     then dirty_card_val else byte_map st c) /\
  dirty_card_queue st' thr =
    dirty_card_queue st thr ++ filter (needs_dirtying st) (covering_cards mr) /\
  (forall t, t <> thr -> dirty_card_queue st' t = dirty_card_queue st t) /\
  satb_mark_queue st' = satb_mark_queue st /\
  satb_is_active st' = satb_is_active st.
Proof.
  intros Hne. unfold G1BarrierSet.invalidate. rewrite Hne. cbn zeta.
  set (first := byte_for (mr_start mr)). set (last := byte_for (mr_last mr)).
  destruct (skip_young_spec last st (span first last) first) as (Hb1 & Hb2 & Hb3);
    [done|].
  set (b := skip_young (span first last) first last st) in *.
  assert (Hin : forall c, c ∈ covering_cards mr <-> first <= c <= last).
  { intros c. unfold G1BarrierSet.covering_cards. fold first last.
    rewrite list_elem_of_lookup. split.
    - intros [i Hi]. apply lookup_seqZ in Hi. lia.
    - intros Hc. exists (Z.to_nat (c - first)). apply lookup_seqZ. lia. }
  assert (Hyoung : forall c, first <= c < b -> ~ needs_dirtying st c).
  { intros c Hc [Hy _]. by apply Hy, Hb3. }
  assert (Hfilter : filter (needs_dirtying st) (covering_cards mr) =
            filter (needs_dirtying st) (seqZ b (last - b + 1))).
  { unfold G1BarrierSet.covering_cards. fold first last.
    destruct (decide (b <= last)) as [Hle|Hgt].
    - replace (last - first + 1) with ((b - first) + (last - b + 1)) by lia.
      rewrite seqZ_app by lia. rewrite filter_app.
      replace (first + (b - first)) with b by lia.
      rewrite (filter_none (needs_dirtying st) (seqZ first (b - first))); [done|].
      intros c Hc. apply Hyoung.
      apply list_elem_of_lookup in Hc as [i Hi]. apply lookup_seqZ in Hi. lia.
    - rewrite (seqZ_nil b) by lia. rewrite filter_nil.
      apply filter_none. intros c Hc. apply Hyoung.
      apply list_elem_of_lookup in Hc as [i Hi]. apply lookup_seqZ in Hi. 
      split; [lia|]. 
      destruct (decide (c < b)); [done|]. 
      assert (first <= last) by lia. lia. }
  rewrite Hfilter.
  case_decide as Hle.
  - destruct (dirty_loop_spec thr last (span b last) b st) as (Hm & Hq & Ho & Hs & Ha);
      [done|].
    split; [|done]. intros c. rewrite Hm.
    destruct (decide (b <= c <= last /\ needs_dirtying st c)) as [[? Hn]|Hn].
    + rewrite decide_True; [done|]. split; [apply Hin; lia|done].
    + rewrite decide_False; [done|]. intros [Hc%Hin Hn']. apply Hn.
      split; [|done]. destruct (decide (c < b)); [|lia].
      exfalso. apply (Hyoung c); [lia|done].
  - rewrite seqZ_nil by lia. rewrite filter_nil, app_nil_r.
    repeat split; try done. intros c.
    rewrite decide_False; [done|]. intros [Hc%Hin Hn].
    apply (Hyoung c); [lia|done].
Qed.


(** C7: [invalidate] on an empty region returns the state it was given: no
    card is written and nothing is enqueued. *)
Theorem invalidate_empty_region_is_noop thr mr st :
  is_empty mr = true -> invalidate thr mr st = st.
Proof. intros He. unfold G1BarrierSet.invalidate. by rewrite He. Qed.

Lemma dirty_enqueue_once thr byte st :
  byte_map st byte <> dirty_card_val ->
  dcq_consistent st -> enqueued_at_most_once st ->
  enqueued_at_most_once (dcq_enqueue thr byte (store_card byte dirty_card_val st)).
Proof.
  intros Hd Hinv Honce.
  assert (Hnew : forall t i c,
    dirty_card_queue (dcq_enqueue thr byte (store_card byte dirty_card_val st)) t !! i
      = Some c ->
    dirty_card_queue st t !! i = Some c \/
    (t = thr /\ i = length (dirty_card_queue st thr) /\ c = byte)).
  { intros t i c. cbn. unfold fun_upd. case_decide as Ht; [|by left]. subst t.
    intros Hi. apply lookup_app_Some in Hi as [Hi|[Hlen Hi]]; [by left|].
    right. split; [done|].
    apply list_lookup_singleton_Some in Hi as [Hi ->]. split; [lia|done]. }
  assert (Hold : forall t i, dirty_card_queue st t !! i <> Some byte).
  { intros t i Hi. apply Hd. destruct (Hinv t) as [_ Hall].
    apply Hall. by eapply list_elem_of_lookup_2. }
  intros t1 t2 i j c H1 H2.
  apply Hnew in H1 as [H1|(-> & -> & ->)]; apply Hnew in H2 as [H2|(-> & -> & E2)].
  - by apply (Honce t1 t2 i j c).
  - subst c. by destruct (Hold t1 i).
  - by destruct (Hold t2 j).
  - done.
Qed.

Lemma post_barriers_once calls : forall st st',
  post_barriers g1_young_card_val dirty_card_val calls st = Some st' ->
  dcq_consistent st -> enqueued_at_most_once st ->
  enqueued_at_most_once st'.
Proof.
  induction calls as [|[thr byte] calls IH]; intros st st'; cbn.
  - by intros [= <-].
  - destruct (write_ref_field_post_slow thr byte st) as [st1|] eqn:H1; cbn; [|done].
    intros Hrun Hinv Honce. apply (IH st1 st' Hrun).
    + by eapply post_slow_consistent.
    + unfold G1BarrierSet.write_ref_field_post_slow in H1.
      case_decide; [done|]. case_decide; injection H1 as <-; [done|].
      by apply dirty_enqueue_once.
Qed.

(** The steps of [write_ref_field_post_slow], run to the return of the call
    with no other thread in between, are the call. *)
Lemma post_slow_alone_is_call thr byte st :
  post_slow_alone g1_young_card_val dirty_card_val 4 thr byte AtAssert st =
    write_ref_field_post_slow thr byte st.
Proof.
  unfold G1BarrierSet.write_ref_field_post_slow. cbn.
  case_decide; [done|]. cbn. by case_decide.
Qed.

(** C3, amended: on a card that is not young, the slow post barrier leaves
    the state as it is when the card is already dirty, and otherwise marks
    the card dirty and appends its address once to the current thread's
    dirty card queue, touching nothing else; so from drained queues, when
    the calls do not overlap, no run of such barriers leaves a card twice in
    the queues, be it in the queue of one thread or in the queues of two
    threads. *)
Theorem write_ref_field_post_slow_enqueues_at_most_once thr byte st :
  byte_map st byte <> g1_young_card_val ->
  (byte_map st byte = dirty_card_val ->
     write_ref_field_post_slow thr byte st = Some st) /\
  (byte_map st byte <> dirty_card_val ->
     exists st', write_ref_field_post_slow thr byte st = Some st' /\
       byte_map st' byte = dirty_card_val /\
       (forall c, c <> byte -> byte_map st' c = byte_map st c) /\
       dirty_card_queue st' thr = dirty_card_queue st thr ++ [byte] /\
       (forall t, t <> thr -> dirty_card_queue st' t = dirty_card_queue st t) /\
       satb_mark_queue st' = satb_mark_queue st /\
       satb_is_active st' = satb_is_active st) /\
  (forall calls st0 stn,
     (forall t, dirty_card_queue st0 t = []) ->
     post_barriers g1_young_card_val dirty_card_val calls st0 = Some stn ->
     enqueued_at_most_once stn /\
     forall t c, c ∈ dirty_card_queue stn t -> byte_map stn c = dirty_card_val).
Proof.
  intros Hy. split; [|split].
  - intros Hd. by apply post_slow_dirty.
  - intros Hd. eexists. split; [by apply post_slow_not_dirty|]. cbn.
    rewrite !fun_upd_eq. repeat split; try done.
    + intros c Hc. by rewrite fun_upd_ne.
    + intros t Ht. by rewrite fun_upd_ne.
  - intros calls st0 stn Hempty Hrun.
    assert (Hinv0 : dcq_consistent st0).
    { intros t'. rewrite Hempty. split; [apply NoDup_nil_2|].
      intros c Hc. by apply elem_of_nil in Hc. }
    split.
    + apply (post_barriers_once calls st0 stn Hrun Hinv0).
      intros t1 t2 i j c H1. by rewrite Hempty in H1.
    + intros t. by apply (post_barriers_consistent calls st0 stn Hrun Hinv0 t).
Qed.

(** C5: on a non-empty region, [invalidate] sets every covering card that is
    neither young nor dirty to dirty and appends exactly those cards, each
    once and in ascending order, to the current thread's dirty card queue;
    young and dirty cards, cards outside the region, the other threads'
    queues and the SATB state are left as they were. *)
Theorem invalidate_dirties_and_enqueues_once thr mr st :
  is_empty mr = false ->
  let st' := invalidate thr mr st in
  let enqueued := filter (needs_dirtying st) (covering_cards mr) in
  dirty_card_queue st' thr = dirty_card_queue st thr ++ enqueued /\
  NoDup enqueued /\
  (forall c, c ∈ covering_cards mr -> needs_dirtying st c ->
     byte_map st' c = dirty_card_val /\ c ∈ enqueued) /\
  (forall c, c ∈ covering_cards mr -> ~ needs_dirtying st c ->
     byte_map st' c = byte_map st c /\ c ∉ enqueued) /\
  (forall c, c ∉ covering_cards mr ->
     byte_map st' c = byte_map st c /\ c ∉ enqueued) /\
  (forall t, t <> thr -> dirty_card_queue st' t = dirty_card_queue st t) /\
  satb_mark_queue st' = satb_mark_queue st /\
  satb_is_active st' = satb_is_active st.
Proof.
  intros Hne st' enqueued.
  destruct (invalidate_spec thr mr st Hne) as (Hm & Hq & Ho & Hs & Ha).
  fold st' in Hm, Hq, Ho, Hs, Ha.
  split; [done|]. split.
  { apply NoDup_filter, NoDup_seqZ. }
  split; [|split; [|split]]; try done.
  - intros c Hc Hn. rewrite Hm. rewrite decide_True by done.
    split; [done|]. by apply list_elem_of_filter.
  - intros c Hc Hn. rewrite Hm. rewrite decide_False by (intros [? ?]; done).
    split; [done|]. intros [? ?]%list_elem_of_filter. done.
  - intros c Hc. rewrite Hm. rewrite decide_False by (intros [? ?]; done).
    split; [done|]. intros [? ?]%list_elem_of_filter. done.
Qed.

(** The cards [invalidate] ranges over are the cards of the words of the
    region, when a card is at least as large as a word. *)
Lemma covering_cards_are_cards_of_words mr c :
  0 <= card_shift -> 0 < HeapWordSize <= 2 ^ card_shift ->
  0 < mr_word_size mr ->
  c ∈ covering_cards mr <->
  exists i, 0 <= i < mr_word_size mr /\
            byte_for (mr_start mr + i * HeapWordSize) = c.
Proof.
  intros Hshift Hword Hsize.
  set (f := fun i => Z.shiftr (mr_start mr + i * HeapWordSize) card_shift).
  assert (Hpow : 0 < 2 ^ card_shift) by (apply Z.pow_pos_nonneg; lia).
  assert (Hmono : forall i j, i <= j -> f i <= f j).
  { intros i j Hij. unfold f. rewrite !Z.shiftr_div_pow2 by done.
    apply Z.div_le_mono; [done|]. nia. }
  assert (Hstep : forall i, f (i + 1) <= f i + 1).
  { intros i. unfold f. rewrite !Z.shiftr_div_pow2 by done.
    assert (Hle : (mr_start mr + (i + 1) * HeapWordSize) / 2 ^ card_shift <=
                  (mr_start mr + i * HeapWordSize + 1 * 2 ^ card_shift) / 2 ^ card_shift).
    { apply Z.div_le_mono; [done|]. nia. }
    rewrite Z.div_add in Hle by lia. lia. }
  assert (Hivt : forall m : nat, forall d, f 0 <= d <= f (Z.of_nat m) ->
            exists i, 0 <= i <= Z.of_nat m /\ f i = d).
  { induction m as [|m IH]; intros d Hd.
    - exists 0. split; [lia|]. change (Z.of_nat 0) with 0 in Hd. lia.
    - destruct (decide (d <= f (Z.of_nat m))) as [Hle|Hgt].
      + destruct (IH d) as (i & Hi & Hfi); [lia|]. exists i. split; [lia|done].
      + exists (Z.of_nat (S m)). split; [lia|].
        pose proof (Hstep (Z.of_nat m)).
        replace (Z.of_nat m + 1) with (Z.of_nat (S m)) in * by lia. lia. }
  assert (Hfirst : byte_for (mr_start mr) = byte_map_base + f 0).
  { unfold G1BarrierSet.byte_for, f. f_equal. f_equal. lia. }
  assert (Hlast : byte_for (mr_last mr) = byte_map_base + f (mr_word_size mr - 1)).
  { unfold G1BarrierSet.byte_for, G1BarrierSet.mr_last, G1BarrierSet.mr_end, f.
    f_equal. f_equal. lia. }
  unfold G1BarrierSet.covering_cards. rewrite Hfirst, Hlast.
  rewrite list_elem_of_lookup. split.
  - intros [k Hk]. apply lookup_seqZ in Hk as [-> Hk].
    destruct (Hivt (Z.to_nat (mr_word_size mr - 1)) (f 0 + Z.of_nat k))
      as (i & Hi & Hfi).
    { rewrite Z2Nat.id by lia. lia. }
    exists i. split; [lia|]. unfold G1BarrierSet.byte_for. fold (f i). lia.
  - intros (i & Hi & <-). unfold G1BarrierSet.byte_for. fold (f i).
    assert (f 0 <= f i) by (apply Hmono; lia).
    assert (f i <= f (mr_word_size mr - 1)) by (apply Hmono; lia).
    exists (Z.to_nat (f i - f 0)). apply lookup_seqZ. lia.
Qed.

End Props.

Lemma invalidate_empty_region_is_noop_witness :
  is_empty (mkMemRegion 4096 0) = true /\
  invalidate sample_young sample_dirty 0 9 8 0%nat (mkMemRegion 4096 0) sample_state
    = sample_state.
Proof.
  split; [reflexivity|].
  apply (invalidate_empty_region_is_noop sample_young sample_dirty 0 9 8).
  reflexivity.
Defined.

Lemma write_ref_field_post_slow_enqueues_at_most_once_witness :
  byte_map sample_state 4 <> sample_young /\
  exists st', write_ref_field_post_slow sample_young sample_dirty 0%nat 4 sample_state
                = Some st' /\
              byte_map st' 4 = sample_dirty /\
              dirty_card_queue st' 0%nat = [4].
Proof.
  assert (Hy : byte_map sample_state 4 <> sample_young) by (vm_compute; lia).
  split; [exact Hy|].
  destruct (write_ref_field_post_slow_enqueues_at_most_once
              sample_young sample_dirty 0%nat 4 sample_state Hy) as (_ & Hnd & _).
  destruct Hnd as (st' & Hrun & Hb & _ & Hq & _); [vm_compute; lia|].
  exists st'. split; [exact Hrun|]. split; [exact Hb|]. exact Hq.
Defined.

(** C3, refuted as stated: two threads inside the slow post barrier on the
    clean card 4, from drained queues.  Both read the card before either
    stores, so both find it not dirty, and each then stores and enqueues:
    the card is enqueued twice between drains, once in the queue of each
    thread. *)
Lemma write_ref_field_post_slow_race_counterexample :
  (forall t, dirty_card_queue sample_state t = []) /\
  byte_map sample_state 4 <> sample_young /\
  exists pcs st',
    post_slow_race sample_young sample_dirty 4 racing_writers
      (fun _ => AtAssert) sample_state = Some (pcs, st') /\
    pcs 0%nat = PostReturned /\ pcs 1%nat = PostReturned /\
    byte_map st' 4 = sample_dirty /\
    dirty_card_queue st' 0%nat = [4] /\
    dirty_card_queue st' 1%nat = [4] /\
    ~ enqueued_at_most_once st'.
Proof.
  split; [done|]. split; [vm_compute; lia|].
  eexists _, _. split; [vm_compute; reflexivity|].
  split; [reflexivity|]. split; [reflexivity|]. split; [reflexivity|].
  split; [reflexivity|]. split; [reflexivity|].
  intros Honce. by destruct (Honce 0%nat 1%nat 0%nat 0%nat 4 eq_refl eq_refl).
Qed.

Lemma invalidate_dirties_and_enqueues_once_witness :
  is_empty (mkMemRegion 512 512) = false /\
  dirty_card_queue
    (invalidate sample_young sample_dirty 0 9 8 0%nat (mkMemRegion 512 512) sample_state)
    0%nat = [1; 4; 6; 7; 8].
Proof.
  split; [reflexivity|].
  apply (invalidate_dirties_and_enqueues_once sample_young sample_dirty 0 9 8 0%nat
           (mkMemRegion 512 512) sample_state).
  reflexivity.
Defined.

(** *** Idempotence, runs of barriers and split ranges *)

Section Runs.
Variable g1_young_card_val : CardValue.
Variable dirty_card_val : CardValue.
Variable byte_map_base : Z.
Variable card_shift : Z.
Variable HeapWordSize : Z.

Local Abbreviation write_ref_field_post_slow :=
  (write_ref_field_post_slow g1_young_card_val dirty_card_val).
Local Abbreviation invalidate :=
  (invalidate g1_young_card_val dirty_card_val byte_map_base card_shift HeapWordSize).
Local Abbreviation barriers :=
  (barriers g1_young_card_val dirty_card_val byte_map_base card_shift HeapWordSize).
Local Abbreviation byte_for := (byte_for byte_map_base card_shift).
Local Abbreviation mr_last := (mr_last HeapWordSize).
Local Abbreviation skip_young := (skip_young g1_young_card_val).
Local Abbreviation dirty_loop := (dirty_loop g1_young_card_val dirty_card_val).
Local Abbreviation needs_dirtying := (needs_dirtying g1_young_card_val dirty_card_val).
Local Abbreviation dcq_consistent := (dcq_consistent dirty_card_val).
Local Abbreviation covering_cards := (covering_cards byte_map_base card_shift HeapWordSize).

Lemma elem_of_covering_cards mr c :
  c ∈ covering_cards mr <-> byte_for (mr_start mr) <= c <= byte_for (mr_last mr).
Proof.
  unfold G1BarrierSet.covering_cards. rewrite list_elem_of_lookup. split.
  - intros [i Hi]. apply lookup_seqZ in Hi. lia.
  - intros Hc. exists (Z.to_nat (c - byte_for (mr_start mr))). apply lookup_seqZ. lia.
Qed.

Lemma dirty_loop_noop thr last st fuel : forall byte,
  (forall c, byte <= c <= last -> ~ needs_dirtying st c) ->
  dirty_loop fuel thr byte last st = st.
Proof.
  induction fuel as [|fuel IH]; intros byte Hnone; [done|].
  cbn [G1BarrierSet.dirty_loop]. case_decide as Hle; [|done].
  rewrite decide_False by (apply (Hnone byte); lia).
  apply IH. intros c Hc. apply Hnone. lia.
Qed.

(** [invalidate] changes nothing when no covering card needs dirtying. *)
Lemma invalidate_noop thr mr st :
  (forall c, c ∈ covering_cards mr -> ~ needs_dirtying st c) ->
  invalidate thr mr st = st.
Proof.
  intros Hnone. unfold G1BarrierSet.invalidate.
  destruct (is_empty mr); [done|]. cbn zeta.
  set (first := byte_for (mr_start mr)). set (last := byte_for (mr_last mr)).
  destruct (skip_young_spec g1_young_card_val last st (span first last) first)
    as (Hb1 & _ & _); [done|].
  set (b := skip_young (span first last) first last st) in *.
  case_decide; [|done].
  apply dirty_loop_noop. intros c Hc. apply Hnone, elem_of_covering_cards.
  fold first last. lia.
Qed.

(** X12: the post-write barriers are idempotent: a second
    [write_ref_field_post_slow] on the same card, or a second [invalidate]
    of the same region, by any thread, changes nothing. *)
Theorem post_barrier_twice_is_once thr thr' st :
  (forall byte st', dirty_card_val <> g1_young_card_val ->
     write_ref_field_post_slow thr byte st = Some st' ->
     write_ref_field_post_slow thr' byte st' = Some st') /\
  (forall mr, invalidate thr' mr (invalidate thr mr st) = invalidate thr mr st).
Proof.
  split.
  - intros byte st' Hdy. unfold G1BarrierSet.write_ref_field_post_slow.
    case_decide as Hy; [done|]. case_decide as Hd; intros [= <-].
    + by rewrite decide_False, decide_True.
    + cbn. rewrite fun_upd_eq. by rewrite decide_False, decide_True.
  - intros mr. destruct (is_empty mr) eqn:He.
    { unfold G1BarrierSet.invalidate. by rewrite He. }
    apply invalidate_noop. intros c Hc [Hy Hd].
    destruct (invalidate_spec g1_young_card_val dirty_card_val byte_map_base card_shift
                HeapWordSize thr mr st He) as (Hm & _).
    rewrite Hm in Hy, Hd. case_decide as Hn; [done|].
    apply Hn. by split.
Qed.

(** X13: on a region that lies within one card, [invalidate] does what the
    slow path does on that card, except that it skips a young card where the
    slow path fails its assertion. *)
Theorem invalidate_of_one_card_is_post_slow thr mr st :
  is_empty mr = false ->
  byte_for (mr_start mr) = byte_for (mr_last mr) ->
  let byte := byte_for (mr_start mr) in
  (byte_map st byte = g1_young_card_val ->
     invalidate thr mr st = st /\ write_ref_field_post_slow thr byte st = None) /\
  (byte_map st byte <> g1_young_card_val ->
     write_ref_field_post_slow thr byte st = Some (invalidate thr mr st)).
Proof.
  intros He Hone byte.
  assert (Hspan : span byte byte = 1%nat) by (unfold span; lia).
  assert (Hinv : invalidate thr mr st =
            if decide (byte_map st byte = g1_young_card_val) then st
            else if decide (byte_map st byte = dirty_card_val) then st
            else dcq_enqueue thr byte (store_card byte dirty_card_val st)).
  { unfold G1BarrierSet.invalidate. rewrite He. cbn zeta. rewrite <- Hone. fold byte.
    rewrite Hspan. cbn [G1BarrierSet.skip_young].
    destruct (decide (byte_map st byte = g1_young_card_val)) as [Hy|Hy].
    - rewrite (decide_True (P := byte <= byte /\ _)) by (split; [lia|done]).
      by rewrite (decide_False (P := byte + 1 <= byte)) by lia.
    - rewrite (decide_False (P := byte <= byte /\ _)) by (by intros [_ ?]).
      rewrite (decide_True (P := byte <= byte)) by lia.
      rewrite Hspan. cbn [G1BarrierSet.dirty_loop].
      rewrite (decide_True (P := byte <= byte)) by lia.
      destruct (decide (byte_map st byte = dirty_card_val)) as [Hd|Hd].
      + by rewrite decide_False by (by intros [_ ?]).
      + by rewrite decide_True. }
  rewrite Hinv. unfold G1BarrierSet.write_ref_field_post_slow.
  split; intros Hy.
  - by rewrite !decide_True.
  - rewrite !(decide_False (P := _ = g1_young_card_val)) by done.
    repeat case_decide; congruence.
Qed.

Lemma invalidate_consistent thr mr st :
  dcq_consistent st -> dcq_consistent (invalidate thr mr st).
Proof.
  intros Hinv. destruct (is_empty mr) eqn:He.
  { unfold G1BarrierSet.invalidate. by rewrite He. }
  destruct (invalidate_spec g1_young_card_val dirty_card_val byte_map_base card_shift
              HeapWordSize thr mr st He) as (Hm & Hq & Ho & _).
  assert (Hkeep : forall c, byte_map st c = dirty_card_val ->
            byte_map (invalidate thr mr st) c = dirty_card_val).
  { intros c Hc. rewrite Hm. by case_decide. }
  intros t. destruct (Hinv t) as [Hnd Hall].
  destruct (decide (t = thr)) as [->|Hne].
  - rewrite Hq. split.
    + apply NoDup_app. split; [done|]. split.
      * intros c Hc [[_ Hd] _]%list_elem_of_filter. by apply Hd, Hall.
      * apply NoDup_filter, NoDup_seqZ.
    + intros c [Hc|Hc]%elem_of_app; [by apply Hkeep, Hall|].
      apply list_elem_of_filter in Hc as [Hn Hc]. rewrite Hm. by rewrite decide_True.
  - rewrite (Ho t Hne). split; [done|]. intros c Hc. by apply Hkeep, Hall.
Qed.

(** What one barrier call does to the cards and the queues. *)
Lemma barrier_step c st st' :
  barrier g1_young_card_val dirty_card_val byte_map_base card_shift HeapWordSize c st
    = Some st' ->
  (dcq_consistent st -> dcq_consistent st') /\
  (forall t, dirty_card_queue st t `prefix_of` dirty_card_queue st' t) /\
  (forall b, byte_map st' b <> byte_map st b ->
     byte_map st b <> g1_young_card_val /\ byte_map st' b = dirty_card_val /\
     exists t, b ∈ dirty_card_queue st' t) /\
  satb_mark_queue st' = satb_mark_queue st /\
  satb_is_active st' = satb_is_active st.
Proof.
  destruct c as [thr byte|thr mr]; cbn [barrier].
  - intros Hrun. split; [by eapply post_slow_consistent|].
    unfold G1BarrierSet.write_ref_field_post_slow in Hrun.
    case_decide as Hy; [done|]. case_decide as Hd; injection Hrun as <-.
    { split; [done|]. split; [done|]. done. }
    cbn. split.
    { intros t. unfold fun_upd. case_decide as Ht; [|done]. subst t.
      by apply prefix_app_r. }
    split; [|done]. intros b.
    destruct (decide (b = byte)) as [->|Hb]; [|by rewrite fun_upd_ne].
    intros _. split; [done|]. split; [apply fun_upd_eq|].
    exists thr. rewrite fun_upd_eq. apply elem_of_app. right. by apply list_elem_of_singleton.
  - intros [= <-]. split; [by apply invalidate_consistent|].
    destruct (is_empty mr) eqn:He.
    { unfold G1BarrierSet.invalidate. rewrite He.
      split; [done|]. split; [done|]. done. }
    destruct (invalidate_spec g1_young_card_val dirty_card_val byte_map_base card_shift
                HeapWordSize thr mr st He) as (Hm & Hq & Ho & Hs & Ha).
    split.
    { intros t. destruct (decide (t = thr)) as [->|Hne].
      - rewrite Hq. by apply prefix_app_r.
      - by rewrite (Ho t Hne). }
    split; [|done]. intros b. rewrite Hm. case_decide as Hn; [|done].
    destruct Hn as [Hc [Hy Hd]]. intros _. split; [done|]. split; [done|].
    exists thr. rewrite Hq. apply elem_of_app. right.
    apply list_elem_of_filter. by split.
Qed.

(** X14: whatever post-write barriers run, the dirty card queues stay
    consistent (every queued card is dirty, none is queued twice) and only
    grow; a card whose value has changed was not young, is now dirty and
    sits in a queue; the SATB queues are not touched. *)
Theorem post_barriers_only_dirty_and_enqueue calls : forall st st',
  barriers calls st = Some st' ->
  (dcq_consistent st -> dcq_consistent st') /\
  (forall t, dirty_card_queue st t `prefix_of` dirty_card_queue st' t) /\
  (forall b, byte_map st' b <> byte_map st b ->
     byte_map st b <> g1_young_card_val /\ byte_map st' b = dirty_card_val /\
     exists t, b ∈ dirty_card_queue st' t) /\
  satb_mark_queue st' = satb_mark_queue st /\
  satb_is_active st' = satb_is_active st.
Proof.
  induction calls as [|c calls IH]; intros st st'; cbn [G1BarrierSet.barriers].
  - intros [= <-]. split; [done|]. split; [done|]. split; [done|]. done.
  - destruct (barrier _ _ _ _ _ c st) as [st1|] eqn:Hc; cbn; [|done].
    intros Hrun.
    destruct (barrier_step c st st1 Hc) as (Hc1 & Hp1 & Hb1 & Hs1 & Ha1).
    destruct (IH st1 st' Hrun) as (Hc2 & Hp2 & Hb2 & Hs2 & Ha2).
    split; [by intros ?%Hc1%Hc2|]. split.
    { intros t. etrans; [apply Hp1|apply Hp2]. }
    split; [|split; congruence].
    intros b Hne. destruct (decide (byte_map st' b = byte_map st1 b)) as [Heq|Hne2].
    + rewrite Heq in Hne. destruct (Hb1 b Hne) as (Hy & Hd & t & Ht).
      split; [done|]. split; [congruence|].
      exists t. destruct (Hp2 t) as [k ->]. apply elem_of_app. by left.
    + destruct (Hb2 b Hne2) as (Hy & Hd & Hq). split; [|done].
      destruct (decide (byte_map st1 b = byte_map st b)) as [Heq1|Hne1]; [congruence|].
      by destruct (Hb1 b Hne1).
Qed.

End Runs.

Lemma write_ref_array_pre_loop_app {T} `{HeapOop T} (load : Z -> T) thr n m :
  forall p st,
  write_ref_array_pre_loop load thr (n + m) p st =
    write_ref_array_pre_loop load thr m (p + Z.of_nat n)
      (write_ref_array_pre_loop load thr n p st).
Proof.
  induction n as [|n IH]; intros p st.
  - cbn. by rewrite Z.add_0_r.
  - cbn [Nat.add write_ref_array_pre_loop]. rewrite IH.
    by replace (p + 1 + Z.of_nat n) with (p + Z.of_nat (S n)) by lia.
Qed.

(** X15: the pre-write barrier of an array may be taken in pieces:
    [write_ref_array_pre] on [n + m] slots is [write_ref_array_pre] on the
    first [n] slots followed by [write_ref_array_pre] on the [m] slots
    behind them. *)
Theorem write_ref_array_pre_of_adjacent_ranges {T} `{HeapOop T} (load : Z -> T)
    thr dst (n m : nat) dest_uninitialized st :
  write_ref_array_pre load thr dst (n + m) dest_uninitialized st =
    write_ref_array_pre load thr (dst + Z.of_nat n) m dest_uninitialized
      (write_ref_array_pre load thr dst n dest_uninitialized st).
Proof.
  unfold write_ref_array_pre, write_ref_array_pre_work.
  destruct dest_uninitialized; cbn [negb]; [done|].
  destruct (satb_is_active st) eqn:Ha; cbn [negb].
  - destruct (write_ref_array_pre_loop_queue load thr n dst st Ha)
      as (_ & _ & _ & _ & Ha').
    rewrite Ha'. cbn [negb]. apply write_ref_array_pre_loop_app.
  - by rewrite Ha.
Qed.

Lemma post_barriers_only_dirty_and_enqueue_witness :
  exists st',
    barriers sample_young sample_dirty 0 9 8
      [PostSlow 0%nat 4; Invalidate 1%nat (mkMemRegion 512 512); PostSlow 1%nat 4]
      sample_state = Some st' /\
    dcq_consistent sample_dirty st' /\
    dirty_card_queue st' 0%nat = [4] /\
    dirty_card_queue st' 1%nat = [1; 6; 7; 8].
Proof.
  eexists. split; [vm_compute; reflexivity|]. split; [|split; reflexivity].
  eapply (post_barriers_only_dirty_and_enqueue sample_young sample_dirty 0 9 8
            [PostSlow 0%nat 4; Invalidate 1%nat (mkMemRegion 512 512); PostSlow 1%nat 4]
            sample_state); [vm_compute; reflexivity|].
  intros t. split; [apply NoDup_nil_2|]. intros c Hc. by apply elem_of_nil in Hc.
Defined.

Lemma invalidate_of_one_card_is_post_slow_witness :
  is_empty (mkMemRegion 2048 8) = false /\
  write_ref_field_post_slow sample_young sample_dirty 0%nat 4 sample_state =
    Some (invalidate sample_young sample_dirty 0 9 8 0%nat (mkMemRegion 2048 8)
            sample_state).
Proof.
  split; [reflexivity|].
  apply (invalidate_of_one_card_is_post_slow sample_young sample_dirty 0 9 8 0%nat
           (mkMemRegion 2048 8) sample_state); [reflexivity|reflexivity|].
  vm_compute. lia.
Defined.

Lemma post_barrier_twice_is_once_witness :
  write_ref_field_post_slow sample_young sample_dirty 1%nat 4
    (dcq_enqueue 0%nat 4 (store_card 4 sample_dirty sample_state)) =
    Some (dcq_enqueue 0%nat 4 (store_card 4 sample_dirty sample_state)).
Proof.
  apply (proj1 (post_barrier_twice_is_once sample_young sample_dirty 0 9 8
                  0%nat 1%nat sample_state) 4); [vm_compute; lia|].
  reflexivity.
Defined.

End G1BarrierSetProofs.

(** ** MallocSiteTable *)
Module MallocSiteTableProofs.
Import MallocSiteTable.

Lemma chain_det h head l1 : forall l2, chain h head l1 -> chain h head l2 -> l1 = l2.
Proof.
  intros l2 H1. revert l2.
  induction H1 as [|a e l He Hc IH]; intros l2 H2; inversion H2; subst; [done|].
  f_equal. apply IH. congruence.
Qed.

Lemma chain_suffix h head l a :
  chain h head l -> a ∈ l ->
  exists l1 l2, l = l1 ++ a :: l2 /\ chain h (Some a) (a :: l2).
Proof.
  induction 1 as [|b e l He Hc IH]; intros Hin.
  - by apply elem_of_nil in Hin.
  - destruct (decide (a = b)) as [->|Hne].
    + exists [], l. split; [done|]. by econstructor.
    + apply elem_of_cons in Hin as [?|Hin]; [done|].
      destruct (IH Hin) as (l1 & l2 & -> & Hc').
      by exists (b :: l1), l2.
Qed.

Lemma chain_NoDup h head l : chain h head l -> NoDup l.
Proof.
  induction 1 as [|a e l He Hc IH]; [apply NoDup_nil_2|].
  apply NoDup_cons. split; [|done].
  intros Hin.
  destruct (chain_suffix _ _ _ _ Hc Hin) as (l1 & l2 & Heq & Hc').
  assert (Hc2 : chain h (Some a) (a :: l)) by by econstructor.
  pose proof (chain_det _ _ _ _ Hc' Hc2) as Hl.
  apply (f_equal length) in Hl. apply (f_equal length) in Heq.
  rewrite length_app in Heq. cbn in Hl, Heq. lia.
Qed.

Lemma chain_in_store h head l a : chain h head l -> a ∈ l -> is_Some (h !! a).
Proof.
  induction 1 as [|b e l He Hc IH]; intros Hin.
  - by apply elem_of_nil in Hin.
  - apply elem_of_cons in Hin as [->|Hin]; [by eexists|by apply IH].
Qed.

Lemma chain_insert_notin h head l a e :
  chain h head l -> a ∉ l -> chain (<[a := e]> h) head l.
Proof.
  induction 1 as [|b eb l He Hc IH]; intros Hni; [constructor|].
  apply not_elem_of_cons in Hni as [Hne Hni].
  econstructor; [by rewrite lookup_insert_ne|by apply IH].
Qed.

Lemma chain_delete_notin h head l a :
  chain h head l -> a ∉ l -> chain (delete a h) head l.
Proof.
  induction 1 as [|b eb l He Hc IH]; intros Hni; [constructor|].
  apply not_elem_of_cons in Hni as [Hne Hni].
  econstructor; [by rewrite lookup_delete_ne|by apply IH].
Qed.

Lemma chain_length h head l : chain h head l -> length l <= size h.
Proof.
  intros Hc. revert h head Hc.
  induction l as [|a l IH]; intros h head Hc; [cbn; lia|].
  inversion Hc as [|a' e l' He Hc']; subst.
  pose proof (chain_NoDup _ _ _ Hc) as [Hni _]%NoDup_cons.
  apply (chain_delete_notin _ _ _ a) in Hc'; [|done].
  apply IH in Hc'. rewrite map_size_delete_Some in Hc' by done. 
  assert (size h <> 0).
  { intros Hz. apply map_size_empty_iff in Hz. subst h. by rewrite lookup_empty in He. }
  cbn. lia.
Qed.

(** Appending a fresh entry [n] behind the tail [t] of a chain. *)
Lemma chain_append h head l n en :
  chain h head l -> h !! n = None -> _next en = None ->
  match last l with
  | None => True
  | Some t => forall et, h !! t = Some et ->
      chain (<[t := mkEntry (_malloc_site et) (Some n)]> (<[n := en]> h)) head (l ++ [n])
  end.
Proof.
  intros Hc Hn Hen. induction Hc as [|a e l He Hc IH]; [done|].
  pose proof (chain_NoDup _ _ _ (chain_cons _ _ _ _ He Hc)) as [Hni _]%NoDup_cons.
  assert (Han : a <> n) by (intros ->; congruence).
  destruct l as [|b l].
  - cbn. intros et Het. assert (et = e) as -> by congruence.
    inversion Hc as [Hnx|]; subst.
    econstructor; [by rewrite lookup_insert_eq|]. cbn.
    econstructor.
    + rewrite lookup_insert_ne by done. by rewrite lookup_insert_eq.
    + rewrite Hen. constructor.
  - rewrite last_cons_cons.
    destruct (last (b :: l)) as [t|] eqn:Hlast; [|done].
    intros et Het.
    assert (Hta : t <> a).
    { intros ->. apply Hni. by apply last_Some_elem_of. }
    cbn. econstructor.
    + rewrite lookup_insert_ne by done. rewrite lookup_insert_ne by done. done.
    + by apply IH.
Qed.


Lemma chain_None_inv h l : chain h None l -> l = [].
Proof. by inversion 1. Qed.

Lemma no_match_nil h key fl : no_match h key fl [].
Proof. intros a e Hin. by apply elem_of_nil in Hin. Qed.

Lemma no_match_cons h key fl a e l :
  h !! a = Some e -> ~ site_matches key fl (_malloc_site e) ->
  no_match h key fl l -> no_match h key fl (a :: l).
Proof.
  intros He Hne Hl b eb [->|Hin]%elem_of_cons Hb.
  - by assert (eb = e) as -> by congruence.
  - by eapply Hl.
Qed.

Section Loop.
Variable MAX_BUCKET_LENGTH : nat.
Local Abbreviation lookup_loop := (lookup_loop MAX_BUCKET_LENGTH).

(** What the chain walk does on the chain [l] that starts at [head], from
    position [pos_idx] on: it finds the first matching entry; or, no entry
    matching and the tail within the bound, it asks for a new entry and
    links it behind the tail; or it gives up with the state unchanged. *)
Lemma lookup_loop_spec alloc key fl :
  fresh_allocator alloc ->
  forall l fuel head pos st,
  chain (store st) head l -> MAX_BUCKET_LENGTH < fuel + pos ->
  (exists j a e, l !! j = Some a /\ store st !! a = Some e /\
     site_matches key fl (_malloc_site e) /\
     no_match (store st) key fl (take j l) /\ pos + j <= MAX_BUCKET_LENGTH /\
     lookup_loop fuel alloc key fl head pos st = Some (Some a, pos + j, st))
  \/ (exists t et, last l = Some t /\ store st !! t = Some et /\
     no_match (store st) key fl l /\
     pos + length l <= MAX_BUCKET_LENGTH /\
     lookup_loop fuel alloc key fl head pos st =
       (_ ← _hash_entry_allocation_stack st;
        match alloc (store st) with
        | Some n =>
            Some (Some n, pos + length l, appended_tail t et n key fl st)
        | None => Some (None, pos + length l - 1, st)
        end))
  \/ (no_match (store st) key fl (take (S MAX_BUCKET_LENGTH - pos) l) /\
     (l = [] \/ MAX_BUCKET_LENGTH < pos + length l) /\
     exists pos', lookup_loop fuel alloc key fl head pos st = Some (None, pos', st)).
Proof.
  intros Hfresh l.
  induction l as [|a l IH]; intros fuel head pos st Hc Hfuel.
  { inversion Hc; subst. right. right.
    split; [rewrite take_nil; apply no_match_nil|]. split; [by left|].
    exists pos. by destruct fuel. }
  inversion Hc as [|a' e l' He Hc']; subst.
  destruct (decide (pos <= MAX_BUCKET_LENGTH)) as [Hpos|Hpos].
  2:{ right. right. replace (S MAX_BUCKET_LENGTH - pos) with 0 by lia.
      split; [apply no_match_nil|]. split; [right; cbn; lia|].
      exists pos. destruct fuel; [done|]. cbn. by rewrite decide_False. }
  destruct fuel as [|fuel]; [lia|].
  cbn [MallocSiteTable.lookup_loop]. rewrite decide_True by done.
  rewrite He. cbn [mbind option_bind].
  destruct (decide (site_matches key fl (_malloc_site e))) as [Hm|Hm].
  { left. exists 0, a, e. rewrite Nat.add_0_r.
    split; [done|]. split; [done|]. split; [done|].
    split; [apply no_match_nil|]. split; [lia|done]. }
  unfold try_append.
  destruct (decide (_next e = None /\ pos < MAX_BUCKET_LENGTH)) as [[Hnx Hlt]|Hno].
  - rewrite Hnx in Hc'. apply chain_None_inv in Hc' as ->.
    assert (Hnm : no_match (store st) key fl [a]).
    { eapply no_match_cons; [done..|apply no_match_nil]. }
    right. left. exists a, e.
    split; [done|]. split; [done|]. split; [done|]. split; [cbn; lia|].
    unfold new_entry.
    destruct (_hash_entry_allocation_stack st) as [stk|]; [|done].
    cbn [mbind option_bind].
    destruct (alloc (store st)) as [n|] eqn:Halloc; cbn [mbind option_bind].
    + pose proof (Hfresh _ _ Halloc) as Hn.
      assert (Han : a <> n) by (intros ->; congruence).
      unfold atomic_insert. cbn [store set_store].
      rewrite lookup_insert_ne by done. rewrite He. cbn [mbind option_bind].
      rewrite Hnx. cbn. by rewrite Nat.add_1_r.
    + cbn. do 3 f_equal. lia.
  - cbn [mbind option_bind]. rewrite He. cbn [mbind option_bind].
    destruct (IH fuel (_next e) (S pos) st Hc') as
      [(j & b & eb & Hj & Hb & Hmb & Hnm & Hle & Hrun)
      |[(t & et & Hlast & Ht & Hnm & Hle & Hrun)
       |(Hnm & Hwhy & pos' & Hrun)]]; [lia|..].
    + left. exists (S j), b, eb.
      replace (pos + S j) with (S pos + j) by lia.
      split; [done|]. split; [done|]. split; [done|].
      split; [cbn; by eapply no_match_cons|]. split; [lia|done].
    + right. left. exists t, et.
      replace (pos + length (a :: l)) with (S pos + length l) by (cbn; lia).
      split; [destruct l; [done|]; by rewrite last_cons_cons|].
      split; [done|]. split; [by eapply no_match_cons|]. split; [cbn in *; lia|].
      done.
    + right. right.
      replace (S MAX_BUCKET_LENGTH - pos) with (S (S MAX_BUCKET_LENGTH - S pos)) by lia.
      split; [cbn; by eapply no_match_cons|].
      split; [|by exists pos'].
      destruct Hwhy as [->|Hlen].
      * right. inversion Hc' as [Hnx|]; subst.
        cbn. destruct (decide (pos < MAX_BUCKET_LENGTH)); [|lia].
        exfalso. by apply Hno.
      * right. cbn. lia.
Qed.

Lemma lookup_loop_hit alloc key fl : forall l fuel head pos st j a e,
  chain (store st) head l -> l !! j = Some a -> store st !! a = Some e ->
  site_matches key fl (_malloc_site e) ->
  no_match (store st) key fl (take j l) ->
  pos + j <= MAX_BUCKET_LENGTH -> MAX_BUCKET_LENGTH < fuel + pos ->
  lookup_loop fuel alloc key fl head pos st = Some (Some a, pos + j, st).
Proof.
  induction l as [|b l IH]; intros fuel head pos st j a e Hc Hj He Hm Hnm Hle Hfuel;
    [done|].
  inversion Hc as [|b' eb l' Heb Hc']; subst.
  destruct fuel as [|fuel]; [lia|].
  cbn [MallocSiteTable.lookup_loop]. rewrite decide_True by lia.
  rewrite Heb. cbn [mbind option_bind].
  destruct j as [|j].
  - cbn in Hj. injection Hj as ->. assert (eb = e) as -> by congruence.
    rewrite decide_True by done. by rewrite Nat.add_0_r.
  - cbn in Hj. rewrite decide_False.
    2:{ apply (Hnm b eb); [cbn; left|done]. }
    unfold try_append. rewrite decide_False.
    2:{ intros [Hnx _]. rewrite Hnx in Hc'. apply chain_None_inv in Hc' as ->. done. }
    cbn [mbind option_bind]. rewrite Heb. cbn [mbind option_bind].
    replace (pos + S j) with (S pos + j) by lia.
    eapply IH; try done; try lia.
    intros c ec Hin. apply Hnm. cbn. by right.
Qed.

Lemma lookup_loop_overflow alloc key fl : forall l fuel head pos st,
  chain (store st) head l ->
  no_match (store st) key fl l ->
  MAX_BUCKET_LENGTH < pos + length l -> MAX_BUCKET_LENGTH < fuel + pos ->
  exists pos', lookup_loop fuel alloc key fl head pos st = Some (None, pos', st).
Proof.
  induction l as [|b l IH]; intros fuel head pos st Hc Hnm Hlen Hfuel.
  { inversion Hc; subst. exists pos. by destruct fuel. }
  inversion Hc as [|b' eb l' Heb Hc']; subst.
  destruct fuel as [|fuel]; [by exists pos|].
  cbn [MallocSiteTable.lookup_loop].
  destruct (decide (pos <= MAX_BUCKET_LENGTH)) as [Hpos|Hpos]; [|by exists pos].
  rewrite Heb. cbn [mbind option_bind].
  rewrite decide_False.
  2:{ apply (Hnm b eb); [left|done]. }
  unfold try_append. rewrite decide_False.
  2:{ intros [Hnx Hlt]. rewrite Hnx in Hc'. apply chain_None_inv in Hc' as ->.
      cbn in Hlen. lia. }
  cbn [mbind option_bind]. rewrite Heb. cbn [mbind option_bind].
  apply IH; try done.
  - intros c ec Hin. apply Hnm. by right.
  - cbn in Hlen. lia.
  - lia.
Qed.

End Loop.


Lemma chain_ext h h' head l :
  chain h head l -> (forall a, a ∈ l -> h' !! a = h !! a) -> chain h' head l.
Proof.
  induction 1 as [|a e l He Hc IH]; intros Hext; [constructor|].
  econstructor.
  - rewrite Hext; [done|]. left.
  - apply IH. intros b Hb. apply Hext. by right.
Qed.

Section Table.
Variable hash : NativeCallStack -> nat.
Variable mtNone : MEMFLAGS.
Variable table_size : nat.
Variable MAX_BUCKET_LENGTH : nat.

Local Abbreviation hash_to_index := (hash_to_index table_size).
Local Abbreviation table_inv := (table_inv hash table_size).
Local Abbreviation wf := (wf hash table_size).
Local Abbreviation lookup_or_add :=
  (lookup_or_add hash mtNone table_size MAX_BUCKET_LENGTH).
Local Abbreviation lookup_loop := (lookup_loop MAX_BUCKET_LENGTH).
Local Abbreviation reset := (reset table_size).
Local Abbreviation walk := (walk table_size).

Lemma table_inv_bucket st buckets i :
  table_inv st buckets -> i < table_size ->
  exists head l, _table st !! i = Some head /\ buckets !! i = Some l /\
                 chain (store st) head l.
Proof.
  intros Hinv Hi. destruct Hinv as [Hsize Hchains _ _ _].
  destruct (lookup_lt_is_Some_2 (_table st) i) as [head Hhead]; [lia|].
  destruct (Forall2_lookup_l _ _ _ _ _ Hchains Hhead) as (l & Hl & Hc).
  by exists head, l.
Qed.

Lemma table_inv_chain st buckets i head l :
  table_inv st buckets -> _table st !! i = Some head -> buckets !! i = Some l ->
  chain (store st) head l.
Proof.
  intros [_ Hchains _ _ _] Hhead Hl.
  destruct (Forall2_lookup_l _ _ _ _ _ Hchains Hhead) as (l' & Hl' & Hc).
  congruence.
Qed.

(** The invariant is kept when one new entry [n] for [(key, fl)] joins the
    end of the chain of the bucket of [key], whatever the way it was
    linked. *)
Lemma table_inv_add st st' buckets i l n key fl :
  table_inv st buckets -> buckets !! i = Some l ->
  i = hash_to_index (hash key) ->
  store st !! n = None -> no_match (store st) key fl l ->
  length (_table st') = table_size ->
  (forall k, k <> i -> _table st' !! k = _table st !! k) ->
  (exists head, _table st' !! i = Some head /\ chain (store st') head (l ++ [n])) ->
  store st' !! n = Some (mkEntry (mkSite key fl) None) ->
  (forall a, a <> n -> _malloc_site <$> store st' !! a = _malloc_site <$> store st !! a) ->
  (forall a, a <> n -> a ∉ l -> store st' !! a = store st !! a) ->
  table_inv st' (<[i := l ++ [n]]> buckets).
Proof.
  intros Hinv Hl Hi Hn Hnm Hsize Htable (head & Hhead & Hchain) Hnew Hsites Hframe.
  pose proof Hinv as [Hsz Hchains Hdisj Hidx Huniq].
  assert (Hlen : length buckets = table_size).
  { rewrite <- Hsz. symmetry. by eapply Forall2_length. }
  assert (Hilt : i < length buckets) by (by eapply lookup_lt_Some).
  assert (Hfresh : forall k lk, buckets !! k = Some lk -> n ∉ lk).
  { intros k lk Hk Hin.
    destruct (lookup_lt_is_Some_2 (_table st) k) as [hk Hhk].
    { rewrite Hsz, <- Hlen. by eapply lookup_lt_Some. }
    pose proof (table_inv_chain _ _ _ _ _ Hinv Hhk Hk) as Hc.
    destruct (chain_in_store _ _ _ _ Hc Hin) as [? ?]. congruence. }
  assert (Hold : forall k lk a, buckets !! k = Some lk -> a ∈ lk -> a <> n).
  { intros k lk a Hk Hin ->. by eapply Hfresh. }
  assert (Hget : forall k lk, <[i := l ++ [n]]> buckets !! k = Some lk ->
            (k = i /\ lk = l ++ [n]) \/ (k <> i /\ buckets !! k = Some lk)).
  { intros k lk Hk. destruct (decide (k = i)) as [->|Hne].
    - rewrite list_lookup_insert_eq in Hk by done. left. split; congruence.
    - rewrite list_lookup_insert_ne in Hk by done. by right. }
  assert (Hsite : forall a e', a <> n -> store st' !! a = Some e' ->
            exists e, store st !! a = Some e /\ _malloc_site e = _malloc_site e').
  { intros a e' Han He'. specialize (Hsites a Han). rewrite He' in Hsites.
    destruct (store st !! a) as [e|]; [|done]. exists e. split; [done|].
    cbn in Hsites. congruence. }
  split.
  - done.
  - apply Forall2_same_length_lookup. split.
    { rewrite length_insert. lia. }
    intros k hk lk Hhk Hk.
    destruct (Hget k lk Hk) as [[-> ->]|[Hne Hk']].
    + assert (hk = head) as -> by congruence. done.
    + rewrite Htable in Hhk by done.
      pose proof (table_inv_chain _ _ _ _ _ Hinv Hhk Hk') as Hc.
      eapply chain_ext; [done|]. intros a Ha. apply Hframe.
      * by eapply Hold.
      * intros Hal. apply Hne. by eapply (Hdisj k i lk l a).
  - intros k1 k2 l1 l2 a Hk1 Hk2 Ha1 Ha2.
    destruct (Hget _ _ Hk1) as [[-> ->]|[Hne1 Hk1']],
             (Hget _ _ Hk2) as [[-> ->]|[Hne2 Hk2']]; try done.
    + apply elem_of_app in Ha1 as [Ha1|Ha1].
      * by eapply (Hdisj i k2 l l2 a).
      * apply list_elem_of_singleton in Ha1 as ->. by destruct (Hfresh _ _ Hk2' Ha2).
    + apply elem_of_app in Ha2 as [Ha2|Ha2].
      * by eapply (Hdisj k1 i l1 l a).
      * apply list_elem_of_singleton in Ha2 as ->. by destruct (Hfresh _ _ Hk1' Ha1).
    + by eapply (Hdisj k1 k2 l1 l2 a).
  - intros k lk a e' Hk Ha He'.
    destruct (decide (a = n)) as [->|Han].
    + assert (e' = mkEntry (mkSite key fl) None) as -> by congruence. cbn.
      destruct (Hget _ _ Hk) as [[-> ->]|[Hne Hk']]; [done|].
      by destruct (Hfresh _ _ Hk' Ha).
    + destruct (Hsite a e' Han He') as (e & He & <-).
      destruct (Hget _ _ Hk) as [[-> ->]|[Hne Hk']].
      * apply elem_of_app in Ha as [Ha|Ha].
        -- by eapply Hidx.
        -- by apply list_elem_of_singleton in Ha.
      * by eapply Hidx.
  - intros k lk a b ea' eb' Hk Ha Hb Hea' Heb' Heq.
    assert (Hnew_old : forall c ec', c <> n -> c ∈ l -> store st' !! c = Some ec' ->
              _malloc_site ec' <> mkSite key fl).
    { intros c ec' Hcn Hc Hec' Hs. destruct (Hsite c ec' Hcn Hec') as (ec & Hec & Hs').
      apply (Hnm c ec Hc Hec). unfold site_matches. rewrite Hs', Hs. done. }
    destruct (Hget _ _ Hk) as [[-> ->]|[Hne Hk']].
    + apply elem_of_app in Ha as [Ha|Ha], Hb as [Hb|Hb].
      * destruct (Hsite a ea' (Hold _ _ _ Hl Ha) Hea') as (ea & Hea & Hsa).
        destruct (Hsite b eb' (Hold _ _ _ Hl Hb) Heb') as (eb & Heb & Hsb).
        eapply (Huniq i l a b ea eb); try done. congruence.
      * apply list_elem_of_singleton in Hb as ->.
        assert (eb' = mkEntry (mkSite key fl) None) as -> by congruence.
        exfalso. by eapply (Hnew_old a ea' (Hold _ _ _ Hl Ha) Ha Hea').
      * apply list_elem_of_singleton in Ha as ->.
        assert (ea' = mkEntry (mkSite key fl) None) as -> by congruence.
        exfalso. by eapply (Hnew_old b eb' (Hold _ _ _ Hl Hb) Hb Heb').
      * apply list_elem_of_singleton in Ha as ->.
        by apply list_elem_of_singleton in Hb as ->.
    + destruct (Hsite a ea' (Hold _ _ _ Hk' Ha) Hea') as (ea & Hea & Hsa).
      destruct (Hsite b eb' (Hold _ _ _ Hk' Hb) Heb') as (eb & Heb & Hsb).
      eapply (Huniq k lk a b ea eb); try done. congruence.
Qed.


Lemma table_inv_installed_head st buckets n key fl :
  table_inv st buckets ->
  buckets !! hash_to_index (hash key) = Some [] ->
  store st !! n = None ->
  table_inv (installed_head (hash_to_index (hash key)) n key fl st)
            (<[hash_to_index (hash key) := [] ++ [n]]> buckets).
Proof.
  intros Hinv Hl Hn.
  eapply (table_inv_add st _ buckets _ [] n key fl); try done.
  - apply no_match_nil.
  - cbn. rewrite length_insert. apply Hinv.
  - intros k Hk. cbn. by rewrite list_lookup_insert_ne.
  - exists (Some n). cbn. split.
    + apply list_lookup_insert_eq. destruct Hinv as [Hsz Hch _ _ _].
      rewrite (Forall2_length _ _ _ Hch). by eapply lookup_lt_Some.
    + econstructor; [apply lookup_insert_eq|]. constructor.
  - cbn. apply lookup_insert_eq.
  - intros a Ha. cbn. by rewrite lookup_insert_ne.
  - intros a Ha _. cbn. by rewrite lookup_insert_ne.
Qed.

Lemma table_inv_appended_tail st buckets head l t et n key fl :
  table_inv st buckets ->
  _table st !! hash_to_index (hash key) = Some head ->
  buckets !! hash_to_index (hash key) = Some l ->
  last l = Some t -> store st !! t = Some et ->
  store st !! n = None -> no_match (store st) key fl l ->
  table_inv (appended_tail t et n key fl st)
            (<[hash_to_index (hash key) := l ++ [n]]> buckets).
Proof.
  intros Hinv Hhead Hl Hlast Het Hn Hnm.
  assert (Htn : t <> n) by (intros ->; congruence).
  pose proof (table_inv_chain _ _ _ _ _ Hinv Hhead Hl) as Hc.
  eapply (table_inv_add st _ buckets _ l n key fl); try done.
  - cbn. apply Hinv.
  - exists head. split; [done|]. cbn.
    pose proof (chain_append _ _ _ n (mkEntry (mkSite key fl) None) Hc Hn eq_refl) as Happ.
    rewrite Hlast in Happ. by apply Happ.
  - cbn. rewrite lookup_insert_ne by done. apply lookup_insert_eq.
  - intros a Ha. cbn. destruct (decide (a = t)) as [->|Hat].
    + rewrite lookup_insert_eq. by rewrite Het.
    + rewrite lookup_insert_ne by done. by rewrite lookup_insert_ne.
  - intros a Ha Hal. cbn.
    assert (a <> t) by (intros ->; by apply Hal, last_Some_elem_of).
    rewrite lookup_insert_ne by done. by rewrite lookup_insert_ne.
Qed.

(** What [lookup_or_add] does on a table that satisfies the invariant, with
    [l] the chain of the bucket of [key]: it returns the first matching
    entry of [l] and changes nothing; or, [l] holding no match and at most
    [MAX_BUCKET_LENGTH] entries, it asks for a new entry, adds it behind
    [l] and returns it, or returns [NULL] when there is no memory; or, [l]
    holding more entries, it returns [NULL] and changes nothing. *)
Lemma lookup_or_add_spec alloc key fl st buckets :
  fresh_allocator alloc -> table_inv st buckets ->
  fl <> mtNone -> 0 < table_size ->
  exists l, buckets !! hash_to_index (hash key) = Some l /\
  ((exists j a e, l !! j = Some a /\ store st !! a = Some e /\
      site_matches key fl (_malloc_site e) /\
      no_match (store st) key fl (take j l) /\ j <= MAX_BUCKET_LENGTH /\
      lookup_or_add alloc key fl st =
        Some (Some a, hash_to_index (hash key), j, st))
   \/ (no_match (store st) key fl l /\ length l <= MAX_BUCKET_LENGTH /\
      lookup_or_add alloc key fl st =
        (_ ← _hash_entry_allocation_stack st;
         match alloc (store st) with
         | Some n =>
             Some (Some n, hash_to_index (hash key), length l,
                   added_state (hash_to_index (hash key)) l n key fl st)
         | None => Some (None, hash_to_index (hash key), length l - 1, st)
         end) /\
      forall n, store st !! n = None ->
        table_inv (added_state (hash_to_index (hash key)) l n key fl st)
                  (<[hash_to_index (hash key) := l ++ [n]]> buckets))
   \/ (no_match (store st) key fl (take (S MAX_BUCKET_LENGTH) l) /\
      MAX_BUCKET_LENGTH < length l /\
      exists p, lookup_or_add alloc key fl st =
        Some (None, hash_to_index (hash key), p, st))).
Proof.
  intros Hfresh Hinv Hfl Hts.
  set (i := hash_to_index (hash key)).
  assert (Hi : i < table_size).
  { subst i. unfold MallocSiteTable.hash_to_index. apply Nat.mod_upper_bound. lia. }
  destruct (table_inv_bucket _ _ i Hinv Hi) as (head & l & Hhead & Hl & Hc).
  exists l. split; [done|].
  unfold MallocSiteTable.lookup_or_add. rewrite decide_False by done.
  cbn zeta. fold i. rewrite Hhead. cbn [mbind option_bind].
  destruct head as [h|].
  - destruct (lookup_loop_spec MAX_BUCKET_LENGTH alloc key fl Hfresh l
                (S MAX_BUCKET_LENGTH) (Some h) 0 st Hc) as
      [(j & b & eb & Hj & Hb & Hmb & Hnm & Hle & Hrun)
      |[(t & et & Hlast & Ht & Hnm & Hle & Hrun)
       |(Hnm & Hwhy & pos' & Hrun)]]; [lia|..]; rewrite Hrun.
    + left. by exists j, b, eb.
    + right. left. split; [done|]. split; [done|]. split.
      * destruct (_hash_entry_allocation_stack st) as [stk|]; [|done]. cbn.
        destruct (alloc (store st)) as [n|]; [|done]. cbn.
        unfold added_state. by rewrite Hlast, Ht.
      * intros n Hn. unfold added_state. rewrite Hlast, Ht.
        by eapply table_inv_appended_tail.
    + right. right. rewrite Nat.sub_0_r in Hnm. split; [done|]. split.
      * destruct Hwhy as [->|?]; [by inversion Hc|done].
      * cbn. by exists pos'.
  - apply chain_None_inv in Hc as ->. right. left.
    split; [apply no_match_nil|]. split; [cbn; lia|]. split.
    + unfold new_entry.
      destruct (_hash_entry_allocation_stack st) as [stk|]; [|done]. cbn.
      destruct (alloc (store st)) as [n|] eqn:Halloc; [|done]. cbn.
      unfold replace_if_null_head. cbn [_table set_store].
      rewrite Hhead. done.
    + intros n Hn. by apply table_inv_installed_head.
Qed.

Lemma hash_to_index_lt h : 0 < table_size -> hash_to_index h < table_size.
Proof. intros. unfold MallocSiteTable.hash_to_index. apply Nat.mod_upper_bound. lia. Qed.

Lemma site_matches_eq key fl site : site_matches key fl site <-> site = mkSite key fl.
Proof.
  unfold site_matches. destruct site as [k f]. cbn. split.
  - by intros [-> ->].
  - by intros [= -> ->].
Qed.

(** In a table that satisfies the invariant, no entry in front of a matching
    entry matches. *)
Lemma first_match_unique st buckets i l j a e key fl :
  table_inv st buckets -> buckets !! i = Some l ->
  l !! j = Some a -> store st !! a = Some e ->
  site_matches key fl (_malloc_site e) ->
  no_match (store st) key fl (take j l).
Proof.
  intros Hinv Hl Hj He Hm c ec Hc Hec Hmc.
  assert (Hil : i < table_size).
  { destruct Hinv as [Hsz Hch _ _ _]. rewrite <- Hsz, (Forall2_length _ _ _ Hch).
    by eapply lookup_lt_Some. }
  destruct (table_inv_bucket _ _ i Hinv Hil) as (head & l' & Hhead & Hl' & Hch).
  assert (l' = l) as -> by congruence.
  pose proof (chain_NoDup _ _ _ Hch) as Hnd.
  apply list_elem_of_lookup in Hc as [k Hk].
  apply lookup_take_Some in Hk as [Hk Hlt].
  assert (c = a) as ->.
  { eapply (inv_unique _ _ _ _ Hinv i l c a ec e); try done.
    - apply list_elem_of_lookup. by exists k.
    - apply list_elem_of_lookup. by exists j.
    - apply site_matches_eq in Hm, Hmc. congruence. }
  pose proof (NoDup_lookup _ _ _ _ Hnd Hk Hj). lia.
Qed.

(** A call for a site that has an entry within reach of the walk returns
    that entry and its position, whatever the allocator would answer, and
    leaves the state as it is. *)
Lemma lookup_or_add_hit alloc key fl st buckets l j a e :
  table_inv st buckets -> fl <> mtNone -> 0 < table_size ->
  buckets !! hash_to_index (hash key) = Some l ->
  l !! j = Some a -> store st !! a = Some e ->
  site_matches key fl (_malloc_site e) -> j <= MAX_BUCKET_LENGTH ->
  lookup_or_add alloc key fl st = Some (Some a, hash_to_index (hash key), j, st).
Proof.
  intros Hinv Hfl Hts Hl Hj He Hm Hle.
  pose proof (first_match_unique _ _ _ _ _ _ _ _ _ Hinv Hl Hj He Hm) as Hnm.
  set (i := hash_to_index (hash key)) in *.
  destruct (table_inv_bucket _ _ i Hinv (hash_to_index_lt _ Hts))
    as (head & l' & Hhead & Hl' & Hc).
  assert (l' = l) as -> by congruence.
  unfold MallocSiteTable.lookup_or_add. rewrite decide_False by done.
  cbn zeta. fold i. rewrite Hhead. cbn [mbind option_bind].
  destruct head as [h|].
  2:{ apply chain_None_inv in Hc as ->. done. }
  rewrite (lookup_loop_hit MAX_BUCKET_LENGTH alloc key fl l (S MAX_BUCKET_LENGTH)
             (Some h) 0 st j a e); try done; lia.
Qed.

Lemma added_state_facts st head i l n key fl :
  chain (store st) head l -> store st !! n = None ->
  store (added_state i l n key fl st) !! n = Some (mkEntry (mkSite key fl) None) /\
  (forall a, a <> n ->
     _malloc_site <$> store (added_state i l n key fl st) !! a =
     _malloc_site <$> store st !! a) /\
  _hash_entry_allocation_site (added_state i l n key fl st) =
    _hash_entry_allocation_site st /\
  _hash_entry_allocation_stack (added_state i l n key fl st) =
    _hash_entry_allocation_stack st.
Proof.
  intros Hc Hn. unfold added_state.
  destruct (last l) as [t|] eqn:Hlast.
  - destruct (chain_in_store _ _ _ t Hc) as [et Het]; [by apply last_Some_elem_of|].
    rewrite Het. cbn. assert (t <> n) by (intros ->; congruence).
    split; [|split; [|done]].
    + rewrite lookup_insert_ne by done. apply lookup_insert_eq.
    + intros a Ha. destruct (decide (a = t)) as [->|Hat].
      * rewrite lookup_insert_eq. by rewrite Het.
      * rewrite lookup_insert_ne by done. by rewrite lookup_insert_ne.
  - cbn. split; [apply lookup_insert_eq|]. split; [|done].
    intros a Ha. by rewrite lookup_insert_ne.
Qed.

(** A successful call returns a handle to an entry of the table: the entry
    sits at position [p] of the chain of bucket [b], within reach of the
    walk, and holds the site asked for. *)
Lemma lookup_or_add_handle alloc key fl st buckets e b p st1 :
  fresh_allocator alloc -> table_inv st buckets ->
  lookup_or_add alloc key fl st = Some (Some e, b, p, st1) ->
  fl <> mtNone /\ 0 < table_size /\ b = hash_to_index (hash key) /\
  exists buckets1 l1 ee,
    table_inv st1 buckets1 /\ buckets1 !! b = Some l1 /\ l1 !! p = Some e /\
    p <= MAX_BUCKET_LENGTH /\ store st1 !! e = Some ee /\
    _malloc_site ee = mkSite key fl /\
    (forall a, a <> e -> _malloc_site <$> store st1 !! a = _malloc_site <$> store st !! a) /\
    (st1 = st \/
     (store st !! e = None /\
      forall k lk, buckets !! k = Some lk -> no_match (store st) key fl lk)).
Proof.
  intros Hfresh Hinv Hrun.
  assert (Hfl : fl <> mtNone).
  { intros ->. unfold MallocSiteTable.lookup_or_add in Hrun.
    by rewrite decide_True in Hrun. }
  assert (Hts : 0 < table_size).
  { unfold MallocSiteTable.lookup_or_add in Hrun. rewrite decide_False in Hrun by done.
    cbn zeta in Hrun.
    destruct (_table st !! hash_to_index (hash key)) eqn:Hh; [|done].
    apply lookup_lt_Some in Hh. destruct Hinv as [Hsz _ _ _ _]. lia. }
  split; [done|]. split; [done|].
  destruct (lookup_or_add_spec alloc key fl st buckets Hfresh Hinv Hfl Hts)
    as (l & Hl & [(j & a & ea & Hj & Ha & Hm & Hnm & Hle & Hres)
                 |[(Hnm & Hle & Hres & Hinv1)
                  |(_ & _ & p' & Hres)]]);
    rewrite Hres in Hrun; [| |done].
  - injection Hrun as <- <- <- <-. split; [done|].
    exists buckets, l, ea. split; [done|]. split; [done|]. split; [done|].
    split; [done|]. split; [done|]. split; [by apply site_matches_eq|].
    split; [done|]. by left.
  - destruct (_hash_entry_allocation_stack st) as [stk|]; [|done].
    cbn [mbind option_bind] in Hrun.
    destruct (alloc (store st)) as [n|] eqn:Halloc; [|done].
    injection Hrun as <- <- <- <-. split; [done|].
    destruct (table_inv_bucket _ _ _ Hinv (hash_to_index_lt (hash key) Hts))
      as (head & l' & Hhead & Hl' & Hc).
    assert (l' = l) as -> by congruence.
    pose proof (Hfresh _ _ Halloc) as Hn.
    destruct (added_state_facts st head (hash_to_index (hash key)) l n key fl Hc Hn)
      as (Hnew & Hsites & _ & _).
    eexists _, (l ++ [n]), _. split; [exact (Hinv1 n Hn)|].
    split.
    { apply list_lookup_insert_eq. by eapply lookup_lt_Some. }
    split.
    { rewrite lookup_app_r by lia. by rewrite Nat.sub_diag. }
    split; [done|]. split; [exact Hnew|]. split; [done|]. split; [done|].
    right. split; [done|].
    intros k lk Hk c ec Hc' Hec Hmc.
    assert (k = hash_to_index (hash key)) as ->.
    { symmetry. rewrite <- (inv_index _ _ _ _ Hinv k lk c ec Hk Hc' Hec).
      destruct Hmc as [_ ->]. done. }
    assert (lk = l) as -> by congruence.
    by apply (Hnm c ec).
Qed.


Lemma malloc_site_loop_chain st : forall l head p a,
  chain (store st) head l -> l !! p = Some a ->
  malloc_site_loop p head st = Some (Some a).
Proof.
  induction l as [|b l IH]; intros head p a Hc Hp; [done|].
  inversion Hc as [|b' eb l' Heb Hc']; subst.
  destruct p as [|p]; cbn in *.
  - congruence.
  - rewrite Heb. cbn. by eapply IH.
Qed.

(** C10: the bucket and position indexes [lookup_or_add] writes with a
    non-null result are a handle to the returned entry: [malloc_site] on
    them, in the state [lookup_or_add] left, returns the same entry. *)
Theorem lookup_or_add_malloc_site_round_trip alloc key fl st e b p st1 :
  fresh_allocator alloc -> wf st ->
  lookup_or_add alloc key fl st = Some (Some e, b, p, st1) ->
  malloc_site table_size b p st1 = Some e.
Proof.
  intros Hfresh [buckets Hinv] Hrun.
  destruct (lookup_or_add_handle _ _ _ _ _ _ _ _ _ Hfresh Hinv Hrun)
    as (Hfl & Hts & -> & buckets1 & l1 & ee & Hinv1 & Hl1 & Hp & _).
  destruct (table_inv_bucket _ _ _ Hinv1 (hash_to_index_lt (hash key) Hts))
    as (head & l' & Hhead & Hl' & Hc).
  assert (l' = l1) as -> by congruence.
  unfold malloc_site. rewrite decide_True by by apply hash_to_index_lt.
  rewrite Hhead. cbn [mbind option_bind].
  by rewrite (malloc_site_loop_chain st1 l1 head p e).
Qed.

Lemma repeat_lookup_or_add_hit key fl st buckets l j a e :
  table_inv st buckets -> fl <> mtNone -> 0 < table_size ->
  buckets !! hash_to_index (hash key) = Some l ->
  l !! j = Some a -> store st !! a = Some e ->
  site_matches key fl (_malloc_site e) -> j <= MAX_BUCKET_LENGTH ->
  forall allocs,
  repeat_lookup_or_add hash mtNone table_size MAX_BUCKET_LENGTH allocs key fl st =
    Some (replicate (length allocs) (Some a, hash_to_index (hash key), j), st).
Proof.
  intros Hinv Hfl Hts Hl Hj He Hm Hle allocs.
  induction allocs as [|alloc allocs IH]; [done|].
  cbn [repeat_lookup_or_add].
  rewrite (lookup_or_add_hit alloc key fl st buckets l j a e) by done.
  cbn [mbind option_bind]. rewrite IH. done.
Qed.

(** C1: once a call of [lookup_or_add] for [(key, fl)] has succeeded, the
    returned entry holds that site and is the only entry of the table that
    does; the call created no entry but, at most, the returned one (and did
    create it when the table held none for the site); and every later call
    for [(key, fl)], whatever the allocator would answer, returns the same
    entry with the same indexes and leaves the state as it is. *)
Theorem lookup_or_add_creates_exactly_one_site alloc key fl st e b p st1 :
  fresh_allocator alloc -> wf st ->
  lookup_or_add alloc key fl st = Some (Some e, b, p, st1) ->
  (exists ee, store st1 !! e = Some ee /\ _malloc_site ee = mkSite key fl) /\
  (forall a, a <> e -> store st1 !! a = None <-> store st !! a = None) /\
  (forall buckets, table_inv st buckets ->
     (forall k lk, buckets !! k = Some lk -> no_match (store st) key fl lk) ->
     store st !! e = None) /\
  wf st1 /\
  (forall buckets1 k lk a ea, table_inv st1 buckets1 ->
     buckets1 !! k = Some lk -> a ∈ lk -> store st1 !! a = Some ea ->
     _malloc_site ea = mkSite key fl -> a = e) /\
  (forall allocs,
     repeat_lookup_or_add hash mtNone table_size MAX_BUCKET_LENGTH allocs key fl st1 =
       Some (replicate (length allocs) (Some e, b, p), st1)).
Proof.
  intros Hfresh [buckets Hinv] Hrun.
  destruct (lookup_or_add_handle _ _ _ _ _ _ _ _ _ Hfresh Hinv Hrun)
    as (Hfl & Hts & -> & buckets1 & l1 & ee & Hinv1 & Hl1 & Hp & Hle & Hee & Hsite
        & Hsites & Hnew).
  assert (He_in : e ∈ l1) by (apply list_elem_of_lookup; by exists p).
  split; [by exists ee|]. split; [|split; [|split; [|split]]].
  - intros a Ha. specialize (Hsites a Ha).
    destruct (store st1 !! a), (store st !! a); try done; split; done.
  - intros buckets' Hinv' Hnone.
    destruct Hnew as [->|[Hn _]]; [|done].
    exfalso. 
    assert (Hk : exists lk, buckets' !! hash_to_index (hash key) = Some lk /\ e ∈ lk).
    { destruct (table_inv_bucket _ _ _ Hinv' (hash_to_index_lt (hash key) Hts))
        as (head & lk & Hhead & Hlk & Hc).
      destruct (table_inv_bucket _ _ _ Hinv1 (hash_to_index_lt (hash key) Hts))
        as (head1 & l1' & Hhead1 & Hl1' & Hc1).
      assert (l1' = l1) as -> by congruence.
      assert (head1 = head) as -> by congruence.
      assert (lk = l1) as -> by by eapply chain_det.
      by exists l1. }
    destruct Hk as (lk & Hlk & Hin).
    apply (Hnone _ _ Hlk e ee Hin Hee). by apply site_matches_eq.
  - by exists buckets1.
  - intros buckets' k lk a ea Hinv' Hk Ha Hea Hsa.
    assert (k = hash_to_index (hash key)) as ->.
    { rewrite <- (inv_index _ _ _ _ Hinv' k lk a ea Hk Ha Hea). by rewrite Hsa. }
    assert (lk = l1) as ->.
    { destruct (table_inv_bucket _ _ _ Hinv' (hash_to_index_lt (hash key) Hts))
        as (head & lk' & Hhead & Hlk' & Hc).
      destruct (table_inv_bucket _ _ _ Hinv1 (hash_to_index_lt (hash key) Hts))
        as (head1 & l1' & Hhead1 & Hl1' & Hc1).
      assert (lk' = lk) as -> by congruence.
      assert (l1' = l1) as -> by congruence.
      assert (head1 = head) as -> by congruence.
      by eapply chain_det. }
    eapply (inv_unique _ _ _ _ Hinv' _ l1 a e ea ee); try done. congruence.
  - apply (repeat_lookup_or_add_hit key fl st1 buckets1 l1 p e ee); try done.
    by apply site_matches_eq.
Qed.

(** A walk that meets no matching entry and cannot append, because the
    chain is longer than [MAX_BUCKET_LENGTH], returns [NULL]. *)
Lemma lookup_or_add_overflow_run alloc key fl st buckets l :
  table_inv st buckets -> fl <> mtNone -> 0 < table_size ->
  buckets !! hash_to_index (hash key) = Some l ->
  MAX_BUCKET_LENGTH < length l ->
  no_match (store st) key fl l ->
  exists p, lookup_or_add alloc key fl st =
              Some (None, hash_to_index (hash key), p, st).
Proof.
  intros Hinv Hfl Hts Hl Hlen Hnm.
  set (i := hash_to_index (hash key)) in *.
  destruct (table_inv_bucket _ _ i Hinv (hash_to_index_lt _ Hts))
    as (head & l' & Hhead & Hl' & Hc).
  assert (l' = l) as -> by congruence.
  unfold MallocSiteTable.lookup_or_add. rewrite decide_False by done.
  cbn zeta. fold i. rewrite Hhead. cbn [mbind option_bind].
  destruct head as [h|].
  2:{ apply chain_None_inv in Hc as ->. cbn in Hlen. lia. }
  destruct (lookup_loop_overflow MAX_BUCKET_LENGTH alloc key fl l
              (S MAX_BUCKET_LENGTH) (Some h) 0 st) as [pos' Hrun]; try done; try lia.
  rewrite Hrun. cbn. by exists pos'.
Qed.

(** C2, as amended: when the chain of the bucket holds more than
    [MAX_BUCKET_LENGTH] entries (that is, [MAX_BUCKET_LENGTH + 1], the most
    a chain can hold), none matching [(key, fl)], [lookup_or_add] returns
    [NULL] and leaves the state, and so every entry, unchanged. *)
Theorem lookup_or_add_overflow_returns_null alloc key fl st buckets l :
  table_inv st buckets -> fl <> mtNone -> 0 < table_size ->
  buckets !! hash_to_index (hash key) = Some l ->
  length l = S MAX_BUCKET_LENGTH ->
  no_match (store st) key fl l ->
  exists p, lookup_or_add alloc key fl st =
              Some (None, hash_to_index (hash key), p, st).
Proof.
  intros Hinv Hfl Hts Hl Hlen Hnm.
  eapply lookup_or_add_overflow_run; try done. lia.
Qed.

(** With exactly [MAX_BUCKET_LENGTH] entries in the chain, none matching,
    and memory available, [lookup_or_add] still adds an entry. *)
Lemma lookup_or_add_adds_at_max alloc key fl st buckets l n :
  fresh_allocator alloc -> table_inv st buckets ->
  fl <> mtNone -> 0 < table_size ->
  _hash_entry_allocation_stack st <> None ->
  buckets !! hash_to_index (hash key) = Some l ->
  length l = MAX_BUCKET_LENGTH ->
  no_match (store st) key fl l ->
  alloc (store st) = Some n ->
  lookup_or_add alloc key fl st =
    Some (Some n, hash_to_index (hash key), MAX_BUCKET_LENGTH,
          added_state (hash_to_index (hash key)) l n key fl st).
Proof.
  intros Hfresh Hinv Hfl Hts Hinit Hl Hlen Hnm Halloc.
  destruct (lookup_or_add_spec alloc key fl st buckets Hfresh Hinv Hfl Hts)
    as (l' & Hl' & [(j & a & ea & Hj & Ha & Hm & _ & _ & _)
                   |[(_ & _ & Hres & _)
                    |(_ & Hwhy & _)]]);
    assert (l' = l) as -> by congruence.
  - exfalso. apply (Hnm a ea); [|done..]. apply list_elem_of_lookup. by exists j.
  - rewrite Hres, Halloc, Hlen.
    by destruct (_hash_entry_allocation_stack st).
  - lia.
Qed.

(** A call that returns [NULL] leaves the state as it was. *)
Lemma lookup_or_add_null_unchanged alloc key fl st buckets b p st1 :
  fresh_allocator alloc -> table_inv st buckets ->
  lookup_or_add alloc key fl st = Some (None, b, p, st1) -> st1 = st.
Proof.
  intros Hfresh Hinv Hrun.
  assert (Hfl : fl <> mtNone).
  { intros ->. unfold MallocSiteTable.lookup_or_add in Hrun.
    by rewrite decide_True in Hrun. }
  assert (Hts : 0 < table_size).
  { unfold MallocSiteTable.lookup_or_add in Hrun. rewrite decide_False in Hrun by done.
    cbn zeta in Hrun.
    destruct (_table st !! hash_to_index (hash key)) eqn:Hh; [|done].
    apply lookup_lt_Some in Hh. destruct Hinv as [Hsz _ _ _ _]. lia. }
  destruct (lookup_or_add_spec alloc key fl st buckets Hfresh Hinv Hfl Hts)
    as (l & Hl & [(j & a & ea & _ & _ & _ & _ & _ & Hres)
                 |[(_ & _ & Hres & _)
                  |(_ & _ & p' & Hres)]]);
    rewrite Hres in Hrun.
  - done.
  - destruct (_hash_entry_allocation_stack st) as [stk|]; [|done]. cbn in Hrun.
    destruct (alloc (store st)); [done|]. by injection Hrun as <- <- <-.
  - by injection Hrun as <- <- <-.
Qed.

(** X1: [lookup_or_add] keeps the table well formed, and a call that returns
    [NULL] (no memory, or a bucket that is full) leaves the state exactly
    as it was. *)
Theorem lookup_or_add_preserves_wf alloc key fl st r b p st1 :
  fresh_allocator alloc -> wf st ->
  lookup_or_add alloc key fl st = Some (r, b, p, st1) ->
  wf st1 /\ (r = None -> st1 = st).
Proof.
  intros Hfresh [buckets Hinv] Hrun. destruct r as [e|].
  - destruct (lookup_or_add_handle _ _ _ _ _ _ _ _ _ Hfresh Hinv Hrun)
      as (_ & _ & _ & buckets1 & _ & _ & Hinv1 & _).
    split; [by exists buckets1|done].
  - rewrite (lookup_or_add_null_unchanged _ _ _ _ _ _ _ _ Hfresh Hinv Hrun).
    split; [by exists buckets|done].
Qed.

(** The table before [initialize] satisfies the invariant. *)
Lemma initial_state_inv :
  table_inv (initial_state table_size) (replicate table_size []).
Proof.
  split; cbn.
  - apply length_replicate.
  - apply Forall2_same_length_lookup. split; [by rewrite !length_replicate|].
    intros i x y [-> _]%lookup_replicate [-> _]%lookup_replicate. constructor.
  - intros i j li lj a [-> _]%lookup_replicate _ Ha. by apply elem_of_nil in Ha.
  - intros i l a e [-> _]%lookup_replicate Ha. by apply elem_of_nil in Ha.
  - intros i l a b ea eb [-> _]%lookup_replicate Ha. by apply elem_of_nil in Ha.
Qed.


Lemma delete_linked_list_spec : forall l fuel head st,
  chain (store st) head l -> length l <= fuel ->
  exists st', delete_linked_list fuel head st = Some st' /\
    _table st' = _table st /\
    _hash_entry_allocation_site st' = _hash_entry_allocation_site st /\
    _hash_entry_allocation_stack st' = _hash_entry_allocation_stack st /\
    (forall a, a ∈ l -> Some a <> _hash_entry_allocation_site st ->
       store st' !! a = None) /\
    (forall a, a ∉ l \/ Some a = _hash_entry_allocation_site st ->
       store st' !! a = store st !! a).
Proof.
  induction l as [|p l IH]; intros fuel head st Hc Hfuel.
  { inversion Hc; subst. exists st.
    split; [by destruct fuel|]. split; [done|]. split; [done|]. split; [done|].
    split; [|done]. intros a Ha. by apply elem_of_nil in Ha. }
  inversion Hc as [|p' e l' He Hc']; subst.
  pose proof (chain_NoDup _ _ _ Hc) as [Hni _]%NoDup_cons.
  destruct fuel as [|fuel]; [cbn in Hfuel; lia|].
  cbn [delete_linked_list]. rewrite He. cbn [mbind option_bind].
  set (st1 := if decide (Some p <> _hash_entry_allocation_site st)
              then delete_entry p st else st).
  assert (Hsite1 : _hash_entry_allocation_site st1 = _hash_entry_allocation_site st).
  { subst st1. by case_decide. }
  assert (Hc1 : chain (store st1) (_next e) l).
  { subst st1. case_decide; [|done]. cbn. by apply chain_delete_notin. }
  destruct (IH fuel (_next e) st1 Hc1) as (st' & Hrun & Ht & Hs & Hk & Hdel & Hkeep).
  { cbn in Hfuel. lia. }
  exists st'. split; [done|].
  split; [rewrite Ht; subst st1; by case_decide|].
  split; [congruence|].
  split; [rewrite Hk; subst st1; by case_decide|].
  split.
  - intros a [->|Ha]%elem_of_cons Hne.
    + rewrite Hkeep by by left. subst st1. rewrite decide_True by done.
      cbn. apply lookup_delete_eq.
    + apply Hdel; [done|]. by rewrite Hsite1.
  - intros a Ha. rewrite Hkeep.
    2:{ destruct Ha as [Ha|Ha]; [left|right; by rewrite Hsite1].
        intros Hin. apply Ha. by right. }
    subst st1. case_decide as Hp; [|done]. cbn.
    apply lookup_delete_ne. intros ->. destruct Ha as [Ha|Ha]; [|done].
    apply Ha. left.
Qed.

Lemma delete_linked_list_gone l fuel head st st' a :
  chain (store st) head l -> length l <= fuel ->
  delete_linked_list fuel head st = Some st' ->
  store st !! a = None -> store st' !! a = None.
Proof.
  intros Hc Hfuel Hrun Ha.
  destruct (delete_linked_list_spec l fuel head st Hc Hfuel)
    as (st'' & Hrun' & _ & _ & _ & _ & Hkeep).
  assert (st'' = st') as -> by congruence.
  rewrite Hkeep; [done|]. left. intros Hin.
  destruct (chain_in_store _ _ _ _ Hc Hin). congruence.
Qed.

(** Emptying bucket [i] and removing entries of its chain keeps the
    invariant. *)
Lemma table_inv_clear_bucket st st' buckets i l :
  table_inv st buckets -> buckets !! i = Some l ->
  _table st' = <[i := None]> (_table st) ->
  (forall a, a ∉ l -> store st' !! a = store st !! a) ->
  table_inv st' (<[i := []]> buckets).
Proof.
  intros Hinv Hl Htable Hframe.
  pose proof Hinv as [Hsz Hchains Hdisj Hidx Huniq].
  assert (Hget : forall k lk, <[i := []]> buckets !! k = Some lk ->
            (k = i /\ lk = []) \/ (k <> i /\ buckets !! k = Some lk)).
  { intros k lk Hk. destruct (decide (k = i)) as [->|Hne].
    - rewrite list_lookup_insert_eq in Hk by by eapply lookup_lt_Some.
      left. split; congruence.
    - rewrite list_lookup_insert_ne in Hk by done. by right. }
  assert (Hsame : forall k lk a, k <> i -> buckets !! k = Some lk -> a ∈ lk ->
            store st' !! a = store st !! a).
  { intros k lk a Hne Hk Ha. apply Hframe. intros Hal. apply Hne.
    by eapply (Hdisj k i lk l a). }
  split.
  - rewrite Htable, length_insert. done.
  - apply Forall2_same_length_lookup. split.
    { rewrite Htable, !length_insert. by eapply Forall2_length. }
    intros k hk lk Hhk Hk. rewrite Htable in Hhk.
    destruct (Hget k lk Hk) as [[-> ->]|[Hne Hk']].
    + rewrite list_lookup_insert_eq in Hhk.
      2:{ rewrite (Forall2_length _ _ _ Hchains). by eapply lookup_lt_Some. }
      injection Hhk as <-. constructor.
    + rewrite list_lookup_insert_ne in Hhk by done.
      pose proof (table_inv_chain _ _ _ _ _ Hinv Hhk Hk') as Hc.
      eapply chain_ext; [done|]. intros a Ha. by eapply Hsame.
  - intros k1 k2 l1 l2 a Hk1 Hk2 Ha1 Ha2.
    destruct (Hget _ _ Hk1) as [[-> ->]|[Hne1 Hk1']]; [by apply elem_of_nil in Ha1|].
    destruct (Hget _ _ Hk2) as [[-> ->]|[Hne2 Hk2']]; [by apply elem_of_nil in Ha2|].
    by eapply (Hdisj k1 k2 l1 l2 a).
  - intros k lk a e Hk Ha He.
    destruct (Hget _ _ Hk) as [[-> ->]|[Hne Hk']]; [by apply elem_of_nil in Ha|].
    rewrite (Hsame k lk a) in He by done. by eapply Hidx.
  - intros k lk a b ea eb Hk Ha Hb Hea Heb Hs.
    destruct (Hget _ _ Hk) as [[-> ->]|[Hne Hk']]; [by apply elem_of_nil in Ha|].
    rewrite (Hsame k lk a) in Hea by done. rewrite (Hsame k lk b) in Heb by done.
    by eapply (Huniq k lk a b ea eb).
Qed.

Lemma reset_buckets_spec : forall idxs st buckets,
  table_inv st buckets -> (forall i, i ∈ idxs -> i < table_size) ->
  exists st' buckets', reset_buckets idxs st = Some st' /\
    table_inv st' buckets' /\
    (forall i, i ∈ idxs -> buckets' !! i = Some [] /\ _table st' !! i = Some None) /\
    (forall i, i ∉ idxs -> buckets' !! i = buckets !! i /\
                           _table st' !! i = _table st !! i) /\
    _hash_entry_allocation_site st' = _hash_entry_allocation_site st /\
    _hash_entry_allocation_stack st' = _hash_entry_allocation_stack st /\
    (forall a, in_buckets buckets idxs a ->
       Some a <> _hash_entry_allocation_site st -> store st' !! a = None) /\
    (forall a, ~ in_buckets buckets idxs a \/ Some a = _hash_entry_allocation_site st ->
       store st' !! a = store st !! a) /\
    (forall a, store st !! a = None -> store st' !! a = None).
Proof.
  induction idxs as [|i idxs IH]; intros st buckets Hinv Hlt.
  { exists st, buckets. cbn.
    split; [done|]. split; [done|].
    split; [intros i Hi; by apply elem_of_nil in Hi|].
    split; [done|]. split; [done|]. split; [done|].
    split; [|done]. intros a (i & l & Hi & _). by apply elem_of_nil in Hi. }
  assert (Hi : i < table_size) by (apply Hlt; left).
  destruct (table_inv_bucket _ _ i Hinv Hi) as (head & l & Hhead & Hl & Hc).
  cbn [reset_buckets]. rewrite Hhead. cbn [mbind option_bind].
  set (st1 := set_table (<[i := None]> (_table st)) st).
  destruct (delete_linked_list_spec l (size (store st1)) head st1)
    as (st2 & Hrun & Ht2 & Hs2 & Hk2 & Hdel & Hkeep); [done|by eapply chain_length|].
  rewrite Hrun. cbn [mbind option_bind].
  assert (Hinv2 : table_inv st2 (<[i := []]> buckets)).
  { eapply (table_inv_clear_bucket st st2 buckets i l); try done.
    intros a Ha. rewrite Hkeep by by left. done. }
  destruct (IH st2 (<[i := []]> buckets) Hinv2) as
    (st' & buckets' & Hrun' & Hinv' & Hin & Hout & Hs' & Hk' & Hdel' & Hkeep' & Hgone').
  { intros k Hk. apply Hlt. by right. }
  assert (Hgone : forall a, store st !! a = None -> store st2 !! a = None).
  { intros a Ha.
    apply (delete_linked_list_gone l (size (store st1)) head st1 st2 a);
      [exact Hc|by eapply chain_length|exact Hrun|exact Ha]. }
  assert (Hilen : i < length buckets) by by eapply lookup_lt_Some.
  assert (Hitab : i < length (_table st)).
  { destruct Hinv as [Hsz _ _ _ _]. lia. }
  exists st', buckets'. split; [done|]. split; [done|].
  split; [|split; [|split; [|split; [|split; [|split]]]]].
  - intros k Hk. destruct (decide (k ∈ idxs)) as [Hki|Hki]; [by apply Hin|].
    apply elem_of_cons in Hk as [->|Hk]; [|done].
    destruct (Hout i Hki) as [-> ->]. rewrite Ht2. cbn.
    by rewrite !list_lookup_insert_eq.
  - intros k Hk. apply not_elem_of_cons in Hk as [Hne Hk].
    destruct (Hout k Hk) as [-> ->]. rewrite Ht2. cbn.
    by rewrite !list_lookup_insert_ne.
  - by rewrite Hs', Hs2.
  - by rewrite Hk', Hk2.
  - intros a (k & lk & Hk & Hlk & Ha) Hne.
    destruct (decide (a ∈ l)) as [Hal|Hal].
    + apply Hgone'. by apply Hdel.
    + apply Hdel'; [|by rewrite Hs2].
      assert (k <> i).
      { intros ->. apply Hal. congruence. }
      exists k, lk. split; [|split; [|done]].
      * apply elem_of_cons in Hk as [?|?]; done.
      * by rewrite list_lookup_insert_ne.
  - intros a Ha.
    rewrite Hkeep'.
    2:{ destruct Ha as [Ha|Ha]; [left|right; by rewrite Hs2].
        intros (k & lk & Hk & Hlk & Hal). apply Ha.
        destruct (decide (k = i)) as [->|Hne].
        - rewrite list_lookup_insert_eq in Hlk by done. injection Hlk as <-.
          by apply elem_of_nil in Hal.
        - rewrite list_lookup_insert_ne in Hlk by done.
          exists k, lk. split; [by right|done]. }
    apply Hkeep. destruct Ha as [Ha|Ha]; [left|by right].
    intros Hal. apply Ha. exists i, l. split; [left|done].
  - intros a Ha. by apply Hgone', Hgone.
Qed.


Lemma walk_buckets_empty {W} (walker : W -> MallocSite -> bool * W) st w :
  forall idxs, (forall i, i ∈ idxs -> _table st !! i = Some None) ->
  walk_buckets walker idxs st w = Some (true, w).
Proof.
  induction idxs as [|i idxs IH]; intros Hnone; [done|].
  cbn [walk_buckets]. rewrite (Hnone i) by left. cbn [mbind option_bind].
  replace (walk_chain walker (size (store st)) None st w) with (Some (true, w))
    by by destruct (size (store st)).
  cbn. apply IH. intros k Hk. apply Hnone. by right.
Qed.

(** On a table that satisfies the invariant [reset] returns: every bucket
    is emptied, the entries of the chains other than the bootstrap entry
    are removed from memory, and nothing else is. *)
Lemma reset_spec st buckets :
  table_inv st buckets ->
  exists st', reset st = Some st' /\
    table_inv st' (replicate table_size []) /\
    _table st' = replicate table_size None /\
    _hash_entry_allocation_site st' = None /\
    _hash_entry_allocation_stack st' = None /\
    (forall a, in_buckets buckets (seq 0 table_size) a ->
       Some a <> _hash_entry_allocation_site st -> store st' !! a = None) /\
    (forall a, ~ in_buckets buckets (seq 0 table_size) a \/
               Some a = _hash_entry_allocation_site st ->
       store st' !! a = store st !! a).
Proof.
  intros Hinv.
  destruct (reset_buckets_spec (seq 0 table_size) st buckets Hinv)
    as (st1 & buckets1 & Hrun & Hinv1 & Hin & _ & _ & _ & Hdel & Hkeep & _).
  { intros i Hi. apply elem_of_seq in Hi. lia. }
  unfold MallocSiteTable.reset. rewrite Hrun. cbn [mbind option_bind].
  eexists. split; [done|]. cbn.
  pose proof Hinv1 as [Hsz1 Hch1 Hdisj1 Hidx1 Huniq1].
  assert (Hb : buckets1 = replicate table_size []).
  { apply list_eq_same_length with table_size.
    - apply length_replicate.
    - rewrite <- Hsz1. symmetry. by eapply Forall2_length.
    - intros i x y Hi Hx [-> _]%lookup_replicate.
      destruct (Hin i) as [Hx' _]; [apply elem_of_seq; lia|]. congruence. }
  assert (Ht : _table st1 = replicate table_size None).
  { apply list_eq_same_length with table_size; [apply length_replicate|done|].
    intros i x y Hi Hx [-> _]%lookup_replicate.
    destruct (Hin i) as [_ Hx']; [apply elem_of_seq; lia|]. congruence. }
  split; [|done].
  rewrite <- Hb. split; cbn; try done.
Qed.

(** C9: on a well-formed table [reset] removes from memory every entry
    reachable from a bucket head except the bootstrap entry
    [_hash_entry_allocation_site]: a reachable entry is gone afterwards if
    and only if it is not the bootstrap entry, the bootstrap entry is kept
    as it was, and so is all memory no chain reaches. *)
Theorem reset_deletes_all_but_bootstrap_entry st :
  wf st ->
  exists st', reset st = Some st' /\
    (forall i head l a,
       _table st !! i = Some head -> chain (store st) head l -> a ∈ l ->
       (store st' !! a = None <-> Some a <> _hash_entry_allocation_site st)) /\
    (forall a, Some a = _hash_entry_allocation_site st ->
       store st' !! a = store st !! a) /\
    (forall a,
       (forall i head l, _table st !! i = Some head ->
                         chain (store st) head l -> a ∉ l) ->
       store st' !! a = store st !! a).
Proof.
  intros [buckets Hinv].
  destruct (reset_spec st buckets Hinv)
    as (st' & Hrun & _ & _ & _ & _ & Hdel & Hkeep).
  exists st'. split; [done|].
  assert (Hreach : forall i head l a,
            _table st !! i = Some head -> chain (store st) head l -> a ∈ l ->
            in_buckets buckets (seq 0 table_size) a).
  { intros i head l a Hhead Hc Ha.
    assert (Hi : i < table_size).
    { destruct Hinv as [Hsz _ _ _ _]. rewrite <- Hsz. by eapply lookup_lt_Some. }
    destruct (table_inv_bucket _ _ i Hinv Hi) as (head' & l' & Hhead' & Hl' & Hc').
    assert (head' = head) as -> by congruence.
    assert (l' = l) as -> by by eapply chain_det.
    exists i, l. split; [apply elem_of_seq; lia|done]. }
  split; [|split].
  - intros i head l a Hhead Hc Ha. split.
    + intros Hgone Hsite. rewrite Hkeep in Hgone by by right.
      destruct (chain_in_store _ _ _ _ Hc Ha). congruence.
    + intros Hne. apply Hdel; [|done]. by eapply Hreach.
  - intros a Ha. apply Hkeep. by right.
  - intros a Ha. apply Hkeep. left. intros (i & l & Hi & Hl & Hal).
    apply elem_of_seq in Hi.
    destruct (table_inv_bucket _ _ i Hinv) as (head' & l' & Hhead' & Hl' & Hc');
      [lia|].
    assert (l' = l) as -> by congruence.
    by apply (Ha i head' l).
Qed.

(** C4: after [reset] on a well-formed table every bucket is [NULL], no
    entry (the bootstrap entry included) is reachable from a bucket, and a
    subsequent [walk] calls the walker on no entry at all: it returns true
    with the walker's state untouched, and a walker that records the sites
    it is given records none. *)
Theorem reset_then_walk_visits_no_entry st :
  wf st ->
  exists st', reset st = Some st' /\
    _table st' = replicate table_size None /\
    (forall i head l, _table st' !! i = Some head ->
       chain (store st') head l -> l = []) /\
    (forall (W : Type) (walker : W -> MallocSite -> bool * W) (w : W),
       walk walker st' w = Some (true, w)) /\
    walk (fun visited site => (true, visited ++ [site])) st' [] = Some (true, []).
Proof.
  intros [buckets Hinv].
  destruct (reset_spec st buckets Hinv) as (st' & Hrun & _ & Ht & _).
  exists st'. split; [done|]. split; [done|].
  assert (Hwalk : forall (W : Type) (walker : W -> MallocSite -> bool * W) (w : W),
            walk walker st' w = Some (true, w)).
  { intros W walker w. unfold MallocSiteTable.walk. apply walk_buckets_empty.
    intros i Hi. apply elem_of_seq in Hi. rewrite Ht.
    apply lookup_replicate. split; [done|lia]. }
  split; [|split; [done|apply Hwalk]].
  intros i head l Hhead Hc. rewrite Ht in Hhead.
  apply lookup_replicate in Hhead as [-> _]. by inversion Hc.
Qed.

Lemma table_inv_added st buckets head l n key fl :
  table_inv st buckets ->
  _table st !! hash_to_index (hash key) = Some head ->
  buckets !! hash_to_index (hash key) = Some l ->
  store st !! n = None -> no_match (store st) key fl l ->
  table_inv (added_state (hash_to_index (hash key)) l n key fl st)
            (<[hash_to_index (hash key) := l ++ [n]]> buckets).
Proof.
  intros Hinv Hhead Hl Hn Hnm.
  pose proof (table_inv_chain _ _ _ _ _ Hinv Hhead Hl) as Hc.
  unfold added_state. destruct (last l) as [t|] eqn:Hlast.
  - destruct (chain_in_store _ _ _ t Hc) as [et Het]; [by apply last_Some_elem_of|].
    rewrite Het. by eapply table_inv_appended_tail.
  - apply last_None in Hlast as ->. by apply table_inv_installed_head.
Qed.

End Table.

(** [initialize] on the table before initialization: the bootstrap entry
    becomes the only entry and the invariant holds. *)
Lemma initialize_inv hash mtNMT table_size MAX_SIZE depth pc0 pc1 pc2 entry st :
  0 < table_size ->
  initialize hash mtNMT table_size MAX_SIZE depth pc0 pc1 pc2 entry
    (initial_state table_size) = Some (true, st) ->
  table_inv hash table_size st
    (<[hash_to_index table_size (hash (pseudo_stack depth pc0 pc1 pc2)) := [entry]]>
       (replicate table_size [])) /\
  _hash_entry_allocation_site st = Some entry /\
  _hash_entry_allocation_stack st = Some (pseudo_stack depth pc0 pc1 pc2).
Proof.
  intros Hts. unfold initialize. case_decide; [|done].
  change (store (initial_state table_size)) with (∅ : gmap addr MallocSiteHashtableEntry).
  rewrite lookup_empty. intros [= <-].
  split; [|done].
  apply (table_inv_add hash table_size (initial_state table_size) _
           (replicate table_size []) _ [] entry (pseudo_stack depth pc0 pc1 pc2) mtNMT);
    cbn; try done.
  - apply initial_state_inv.
  - apply lookup_replicate. split; [done|]. by apply hash_to_index_lt.
  - by rewrite length_insert, length_replicate.
  - intros k Hk. by rewrite list_lookup_insert_ne.
  - exists (Some entry). split.
    + apply list_lookup_insert_eq. rewrite length_replicate. by apply hash_to_index_lt.
    + econstructor; [apply lookup_insert_eq|]. constructor.
  - apply lookup_insert_eq.
  - intros a Ha. by rewrite lookup_insert_ne.
  - intros a Ha _. by rewrite lookup_insert_ne.
Qed.

(** *** The sample tables *)

Lemma sample_alloc_fresh : fresh_allocator sample_alloc.
Proof. intros h a [= <-]. apply not_elem_of_dom, is_fresh. Qed.

(** Decides [no_match] on a concrete store and chain. *)
Ltac solve_no_match :=
  let a := fresh "a" in let e := fresh "e" in
  let Hin := fresh "Hin" in let He := fresh "He" in
  intros a e Hin He;
  repeat (apply elem_of_cons in Hin as [->|Hin]);
  [..|by apply elem_of_nil in Hin];
  vm_compute in He; injection He as <-; intros [_ ?]; discriminate.

Lemma sample_s0_inv :
  table_inv sample_hash 4 sample_s0 [[]; [1%positive]; []; []] /\
  _hash_entry_allocation_site sample_s0 = Some 1%positive /\
  _hash_entry_allocation_stack sample_s0 = Some [3%Z; 7%Z; 11%Z].
Proof.
  apply (initialize_inv sample_hash sample_mtNMT 4 4095 4 3%Z 7%Z 11%Z 1%positive);
    [lia|reflexivity].
Qed.

Lemma sample_s1_inv :
  table_inv sample_hash 4 sample_s1 [[]; [1%positive]; []; [2%positive]].
Proof.
  apply (table_inv_added sample_hash 4 sample_s0 [[]; [1%positive]; []; []] None []
           2%positive [3%Z] sample_flags); try reflexivity.
  - apply sample_s0_inv.
  - apply no_match_nil.
Qed.

Lemma sample_s2_inv :
  table_inv sample_hash 4 sample_s2
    [[]; [1%positive]; []; [2%positive; 3%positive]].
Proof.
  apply (table_inv_added sample_hash 4 sample_s1 [[]; [1%positive]; []; [2%positive]]
           (Some 2%positive) [2%positive] 3%positive [7%Z] sample_flags);
    try reflexivity.
  - apply sample_s1_inv.
  - solve_no_match.
Qed.

Lemma sample_s3_inv :
  table_inv sample_hash 4 sample_s3
    [[]; [1%positive]; []; [2%positive; 3%positive; 4%positive]].
Proof.
  apply (table_inv_added sample_hash 4 sample_s2
           [[]; [1%positive]; []; [2%positive; 3%positive]]
           (Some 2%positive) [2%positive; 3%positive] 4%positive [11%Z] sample_flags);
    try reflexivity.
  - apply sample_s2_inv.
  - solve_no_match.
Qed.

Lemma lookup_or_add_creates_exactly_one_site_witness :
  lookup_or_add sample_hash sample_mtNone 4 2 sample_alloc [3%Z] sample_flags sample_s0
    = Some (Some 2%positive, 3, 0, sample_s1) /\
  repeat_lookup_or_add sample_hash sample_mtNone 4 2 [sample_alloc; no_memory]
    [3%Z] sample_flags sample_s1
    = Some ([(Some 2%positive, 3, 0); (Some 2%positive, 3, 0)], sample_s1).
Proof.
  assert (Hrun : lookup_or_add sample_hash sample_mtNone 4 2 sample_alloc [3%Z]
                   sample_flags sample_s0 = Some (Some 2%positive, 3, 0, sample_s1))
    by (vm_compute; reflexivity).
  split; [exact Hrun|].
  assert (Hwf : wf sample_hash 4 sample_s0).
  { eexists. apply sample_s0_inv. }
  destruct (lookup_or_add_creates_exactly_one_site sample_hash sample_mtNone 4 2
              sample_alloc [3%Z] sample_flags sample_s0 2%positive 3 0 sample_s1
              sample_alloc_fresh Hwf Hrun) as (_ & _ & _ & _ & _ & Hlater).
  exact (Hlater [sample_alloc; no_memory]).
Defined.

Lemma lookup_or_add_malloc_site_round_trip_witness :
  lookup_or_add sample_hash sample_mtNone 4 2 sample_alloc [11%Z] sample_flags sample_s2
    = Some (Some 4%positive, 3, 2, sample_s3) /\
  malloc_site 4 3 2 sample_s3 = Some 4%positive.
Proof.
  assert (Hrun : lookup_or_add sample_hash sample_mtNone 4 2 sample_alloc [11%Z]
                   sample_flags sample_s2 = Some (Some 4%positive, 3, 2, sample_s3))
    by (vm_compute; reflexivity).
  split; [exact Hrun|].
  apply (lookup_or_add_malloc_site_round_trip sample_hash sample_mtNone 4 2
           sample_alloc [11%Z] sample_flags sample_s2 4%positive 3 2 sample_s3
           sample_alloc_fresh).
  - eexists. apply sample_s2_inv.
  - exact Hrun.
Defined.

Lemma lookup_or_add_preserves_wf_witness :
  lookup_or_add sample_hash sample_mtNone 4 2 no_memory [15%Z] sample_flags sample_s3
    = Some (None, 3, 3, sample_s3) /\
  wf sample_hash 4 sample_s3.
Proof.
  assert (Hrun : lookup_or_add sample_hash sample_mtNone 4 2 no_memory [15%Z]
                   sample_flags sample_s3 = Some (None, 3, 3, sample_s3))
    by (vm_compute; reflexivity).
  split; [exact Hrun|].
  assert (Hwf : wf sample_hash 4 sample_s3) by (eexists; apply sample_s3_inv).
  assert (Hfresh : fresh_allocator no_memory) by (intros h a; discriminate).
  exact (proj1 (lookup_or_add_preserves_wf sample_hash sample_mtNone 4 2 no_memory
                  [15%Z] sample_flags sample_s3 None 3 3 sample_s3 Hfresh Hwf Hrun)).
Defined.

(** C2, refuted as stated: with [MAX_BUCKET_LENGTH] 2, the chain of bucket 3
    holds two entries, neither for the key [[11]]; [lookup_or_add] for that
    key returns a new entry at position 2 instead of [NULL], and the link of
    the entry at address 3 has changed. *)
Lemma lookup_or_add_full_bucket_counterexample :
  table_inv sample_hash 4 sample_s2 [[]; [1%positive]; []; [2%positive; 3%positive]] /\
  length [2%positive; 3%positive] = 2 /\
  no_match (store sample_s2) [11%Z] sample_flags [2%positive; 3%positive] /\
  lookup_or_add sample_hash sample_mtNone 4 2 sample_alloc [11%Z] sample_flags sample_s2
    = Some (Some 4%positive, 3, 2, sample_s3) /\
  _next <$> store sample_s2 !! 3%positive = Some None /\
  _next <$> store sample_s3 !! 3%positive = Some (Some 4%positive).
Proof.
  split; [apply sample_s2_inv|]. split; [reflexivity|].
  split; [solve_no_match|].
  split; [vm_compute; reflexivity|].
  split; vm_compute; reflexivity.
Qed.

Lemma lookup_or_add_overflow_returns_null_witness :
  length [2%positive; 3%positive; 4%positive] = 3 /\
  exists p,
    lookup_or_add sample_hash sample_mtNone 4 2 sample_alloc [15%Z] sample_flags sample_s3
      = Some (None, 3, p, sample_s3).
Proof.
  split; [reflexivity|].
  apply (lookup_or_add_overflow_returns_null sample_hash sample_mtNone 4 2
           sample_alloc [15%Z] sample_flags sample_s3
           [[]; [1%positive]; []; [2%positive; 3%positive; 4%positive]]
           [2%positive; 3%positive; 4%positive]).
  - apply sample_s3_inv.
  - discriminate.
  - lia.
  - reflexivity.
  - reflexivity.
  - solve_no_match.
Defined.

Lemma reset_deletes_all_but_bootstrap_entry_witness :
  exists st', reset 4 sample_s2 = Some st' /\
    store st' !! 3%positive = None /\
    store st' !! 1%positive = store sample_s2 !! 1%positive.
Proof.
  assert (Hwf : wf sample_hash 4 sample_s2).
  { eexists. apply sample_s2_inv. }
  destruct (reset_deletes_all_but_bootstrap_entry sample_hash 4 sample_s2 Hwf)
    as (st' & Hrun & Hiff & Hboot & _).
  exists st'. split; [exact Hrun|]. split.
  - apply (Hiff 3 (Some 2%positive) [2%positive; 3%positive] 3%positive).
    + reflexivity.
    + econstructor; [reflexivity|]. econstructor; [reflexivity|]. constructor.
    + right. left.
    + discriminate.
  - apply Hboot. reflexivity.
Defined.

Lemma reset_then_walk_visits_no_entry_witness :
  exists st', reset 4 sample_s2 = Some st' /\
    _table st' = [None; None; None; None] /\
    walk 4 (fun visited site => (true, visited ++ [site])) st' [] = Some (true, []).
Proof.
  assert (Hwf : wf sample_hash 4 sample_s2).
  { eexists. apply sample_s2_inv. }
  destruct (reset_then_walk_visits_no_entry sample_hash 4 sample_s2 Hwf)
    as (st' & Hrun & Ht & _ & _ & Hwalk).
  exists st'. split; [exact Hrun|]. split; [exact Ht|exact Hwalk].
Defined.


(** *** Walking, handles and the growth of the table *)

Lemma elem_of_concat {A} (x : A) (ls : list (list A)) :
  x ∈ concat ls <-> exists l, x ∈ l /\ l ∈ ls.
Proof.
  induction ls as [|l ls IH]; cbn.
  - split; [by intros ?%elem_of_nil|by intros (l & _ & ?%elem_of_nil)].
  - rewrite elem_of_app, IH. split.
    + intros [Hx|(l' & Hx & Hl')].
      * exists l. split; [done|]. apply elem_of_cons. by left.
      * exists l'. split; [done|]. apply elem_of_cons. by right.
    + intros (l' & Hx & [->|Hl']%elem_of_cons); [by left|].
      right. by exists l'.
Qed.

Lemma sites_of_cons h a e l :
  h !! a = Some e -> sites_of h (a :: l) = _malloc_site e :: sites_of h l.
Proof. intros He. unfold sites_of. cbn. by rewrite He. Qed.

Lemma sites_of_cons_None h a l :
  h !! a = None -> sites_of h (a :: l) = sites_of h l.
Proof. intros He. unfold sites_of. cbn. by rewrite He. Qed.

Lemma sites_of_app h l1 l2 : sites_of h (l1 ++ l2) = sites_of h l1 ++ sites_of h l2.
Proof. apply omap_app. Qed.

Lemma visit_app {W} (walker : W -> MallocSite -> bool * W) s1 : forall s2 w,
  visit walker (s1 ++ s2) w =
    (if (visit walker s1 w).1 then visit walker s2 (visit walker s1 w).2
     else visit walker s1 w).
Proof.
  induction s1 as [|s s1 IH]; intros s2 w; [done|].
  cbn. destruct (walker w s) as [[] w']; [|done]. apply IH.
Qed.

Lemma walk_chain_visit {W} (walker : W -> MallocSite -> bool * W) st l :
  forall fuel head w,
  chain (store st) head l -> length l <= fuel ->
  walk_chain walker fuel head st w = Some (visit walker (sites_of (store st) l) w).
Proof.
  induction l as [|a l IH]; intros fuel head w Hc Hfuel.
  - inversion Hc; subst. by destruct fuel.
  - inversion Hc as [|a' e l' He Hc']; subst.
    destruct fuel as [|fuel]; [cbn in Hfuel; lia|].
    cbn [walk_chain]. rewrite He. cbn [mbind option_bind].
    rewrite (sites_of_cons _ _ _ _ He). cbn [visit].
    destruct (walker w (_malloc_site e)) as [[] w']; [|done].
    apply IH; [done|]. cbn in Hfuel. lia.
Qed.

Lemma walk_buckets_visit {W} (walker : W -> MallocSite -> bool * W) st :
  forall bs k w,
  (forall j l, bs !! j = Some l ->
     exists head, _table st !! (k + j) = Some head /\ chain (store st) head l) ->
  walk_buckets walker (seq k (length bs)) st w =
    Some (visit walker (sites_of (store st) (concat bs)) w).
Proof.
  induction bs as [|l bs IH]; intros k w Hbs; [done|].
  cbn [length seq walk_buckets concat].
  destruct (Hbs 0 l eq_refl) as (head & Hhead & Hc).
  rewrite Nat.add_0_r in Hhead. rewrite Hhead. cbn [mbind option_bind].
  rewrite (walk_chain_visit walker st l _ head w Hc (chain_length _ _ _ Hc)).
  cbn [mbind option_bind].
  rewrite sites_of_app, visit_app.
  destruct (visit walker (sites_of (store st) l) w) as [[] w'] eqn:Hv;
    cbn [fst snd]; [|done].
  apply IH. intros j lj Hj.
  replace (S k + j) with (k + S j) by lia. by apply Hbs.
Qed.

Section More.
Variable hash : NativeCallStack -> nat.
Variable mtNone : MEMFLAGS.
Variable table_size : nat.
Variable MAX_BUCKET_LENGTH : nat.

Local Abbreviation hash_to_index := (hash_to_index table_size).
Local Abbreviation table_inv := (table_inv hash table_size).
Local Abbreviation wf := (wf hash table_size).
Local Abbreviation lookup_or_add :=
  (lookup_or_add hash mtNone table_size MAX_BUCKET_LENGTH).
Local Abbreviation lookup_calls :=
  (lookup_calls hash mtNone table_size MAX_BUCKET_LENGTH).
Local Abbreviation bounded_buckets := (bounded_buckets MAX_BUCKET_LENGTH).
Local Abbreviation reset := (reset table_size).
Local Abbreviation walk := (walk table_size).
Local Abbreviation malloc_site := (malloc_site table_size).

Lemma table_inv_length st buckets : table_inv st buckets -> length buckets = table_size.
Proof.
  intros [Hsz Hch _ _ _]. apply Forall2_length in Hch. lia.
Qed.

Lemma walk_visit {W} (walker : W -> MallocSite -> bool * W) st buckets w :
  table_inv st buckets ->
  walk walker st w = Some (visit walker (sites_of (store st) (concat buckets)) w).
Proof.
  intros Hinv. unfold MallocSiteTable.walk.
  rewrite <- (table_inv_length _ _ Hinv).
  apply walk_buckets_visit. intros j l Hj. cbn.
  destruct (table_inv_bucket _ _ _ _ j Hinv) as (head & l' & Hhead & Hl' & Hc).
  { rewrite <- (table_inv_length _ _ Hinv). by eapply lookup_lt_Some. }
  exists head. split; [done|]. congruence.
Qed.

Lemma visit_recording (sites : list MallocSite) : forall visited,
  visit (fun visited site => (true, visited ++ [site])) sites visited =
    (true, visited ++ sites).
Proof.
  induction sites as [|s sites IH]; intros visited; cbn.
  - by rewrite app_nil_r.
  - rewrite IH. by rewrite <- app_assoc.
Qed.

Lemma table_inv_entries_NoDup st buckets :
  table_inv st buckets -> NoDup (concat buckets).
Proof.
  intros Hinv.
  assert (Hnd : forall i l, buckets !! i = Some l -> NoDup l).
  { intros i l Hl.
    destruct (table_inv_bucket _ _ _ _ i Hinv) as (head & l' & _ & Hl' & Hc).
    { rewrite <- (table_inv_length _ _ Hinv). by eapply lookup_lt_Some. }
    assert (l' = l) as -> by congruence. by eapply chain_NoDup. }
  pose proof (inv_disjoint _ _ _ _ Hinv) as Hdis.
  clear Hinv. revert Hnd Hdis.
  induction buckets as [|l bs IH]; intros Hnd Hdis; [apply NoDup_nil_2|].
  cbn. apply NoDup_app. split; [by apply (Hnd 0)|]. split.
  - intros a Ha Hin. apply elem_of_concat in Hin as (l' & Ha' & Hl').
    apply list_elem_of_lookup in Hl' as [j Hj].
    by specialize (Hdis 0 (S j) l l' a eq_refl Hj Ha Ha').
  - apply IH.
    + intros i l' Hl'. by apply (Hnd (S i)).
    + intros i j li lj a Hi Hj Hai Haj.
      by specialize (Hdis (S i) (S j) li lj a Hi Hj Hai Haj) as [= ->].
Qed.

Lemma table_inv_sites_NoDup st buckets :
  table_inv st buckets -> NoDup (sites_of (store st) (concat buckets)).
Proof.
  intros Hinv.
  assert (Hinj : forall a b ea eb, a ∈ concat buckets -> b ∈ concat buckets ->
            store st !! a = Some ea -> store st !! b = Some eb ->
            _malloc_site ea = _malloc_site eb -> a = b).
  { intros a b ea eb Ha Hb Hea Heb Heq.
    apply elem_of_concat in Ha as (la & Ha & Hla).
    apply elem_of_concat in Hb as (lb & Hb & Hlb).
    apply list_elem_of_lookup in Hla as [i Hi].
    apply list_elem_of_lookup in Hlb as [j Hj].
    pose proof (inv_index _ _ _ _ Hinv i la a ea Hi Ha Hea) as Hia.
    pose proof (inv_index _ _ _ _ Hinv j lb b eb Hj Hb Heb) as Hjb.
    assert (i = j) as -> by (rewrite <- Hia, <- Hjb; by rewrite Heq).
    assert (lb = la) as -> by congruence.
    by apply (inv_unique _ _ _ _ Hinv j la a b ea eb). }
  pose proof (table_inv_entries_NoDup _ _ Hinv) as Hnd.
  revert Hinj Hnd. generalize (concat buckets) as l.
  induction l as [|a l IH]; intros Hinj Hnd; [apply NoDup_nil_2|].
  apply NoDup_cons in Hnd as [Hal Hnd].
  destruct (store st !! a) as [ea|] eqn:Hea.
  - rewrite (sites_of_cons _ _ _ _ Hea). apply NoDup_cons. split.
    + intros Hin. apply list_elem_of_omap in Hin as (b & Hb & Hsb).
      destruct (store st !! b) as [eb|] eqn:Heb; [|done]. cbn in Hsb.
      injection Hsb as Hsb.
      apply Hal. rewrite (Hinj a b ea eb); [done|apply elem_of_cons; by left
        |apply elem_of_cons; by right|done|done|done].
    + apply IH; [|done]. intros x y ex ey Hx Hy. apply Hinj; apply elem_of_cons; by right.
  - rewrite (sites_of_cons_None _ _ _ Hea).
    apply IH; [|done]. intros x y ex ey Hx Hy. apply Hinj; apply elem_of_cons; by right.
Qed.

Lemma sites_of_length st buckets :
  table_inv st buckets ->
  length (sites_of (store st) (concat buckets)) = length (concat buckets).
Proof.
  intros Hinv.
  assert (Hin : forall a, a ∈ concat buckets -> is_Some (store st !! a)).
  { intros a Ha. apply elem_of_concat in Ha as (la & Ha & Hla).
    apply list_elem_of_lookup in Hla as [i Hi].
    destruct (table_inv_bucket _ _ _ _ i Hinv) as (head & l' & _ & Hl' & Hc).
    { rewrite <- (table_inv_length _ _ Hinv). by eapply lookup_lt_Some. }
    assert (l' = la) as -> by congruence. by eapply chain_in_store. }
  revert Hin. generalize (concat buckets) as l.
  induction l as [|a l IH]; intros Hin; [done|].
  destruct (Hin a) as [e He]; [apply elem_of_cons; by left|].
  rewrite (sites_of_cons _ _ _ _ He). cbn. f_equal. apply IH.
  intros b Hb. apply Hin, elem_of_cons. by right.
Qed.

(** X3: [walk] calls the walker on the site of every entry of the table,
    bucket by bucket in ascending index order and in chain order within a
    bucket, and stops at the first call that answers false.  A walker that
    records what it is given gets the site of every entry, and no site
    twice. *)
Theorem walk_visits_every_site_in_bucket_order {W}
    (walker : W -> MallocSite -> bool * W) st buckets w :
  table_inv st buckets ->
  walk walker st w = Some (visit walker (sites_of (store st) (concat buckets)) w) /\
  walk (fun visited site => (true, visited ++ [site])) st [] =
    Some (true, sites_of (store st) (concat buckets)) /\
  length (sites_of (store st) (concat buckets)) = length (concat buckets) /\
  NoDup (sites_of (store st) (concat buckets)).
Proof.
  intros Hinv. split; [by apply walk_visit|]. split.
  - rewrite (walk_visit _ _ _ _ Hinv). by rewrite visit_recording.
  - split; [by apply sites_of_length|by apply table_inv_sites_NoDup].
Qed.

Lemma malloc_site_loop_lookup st : forall p head l,
  chain (store st) head l -> malloc_site_loop p head st = Some (l !! p).
Proof.
  induction p as [|p IH]; intros head l Hc; cbn.
  - by inversion Hc.
  - inversion Hc as [|a e l' He Hc']; subst; [done|].
    rewrite He. cbn. by apply IH.
Qed.

Lemma malloc_site_lookup st buckets b p :
  table_inv st buckets ->
  malloc_site b p st = (l ← buckets !! b; l !! p).
Proof.
  intros Hinv. unfold MallocSiteTable.malloc_site. case_decide as Hb.
  - destruct (table_inv_bucket _ _ _ _ b Hinv Hb) as (head & l & Hhead & Hl & Hc).
    rewrite Hhead, Hl. cbn. by rewrite (malloc_site_loop_lookup _ _ _ _ Hc).
  - rewrite (lookup_ge_None_2 buckets b); [done|].
    rewrite (table_inv_length _ _ Hinv). lia.
Qed.

(** X4: [malloc_site] reads the entry at position [pos_idx] of the chain of
    bucket [bucket_idx]; its assertions fail exactly when the bucket index
    is not below [table_size] or the chain has no such position. *)
Theorem malloc_site_indexes_bucket_chain st buckets b p :
  table_inv st buckets ->
  malloc_site b p st = (l ← buckets !! b; l !! p) /\
  (malloc_site b p st = None <->
   table_size <= b \/ exists l, buckets !! b = Some l /\ length l <= p).
Proof.
  intros Hinv. split; [by apply malloc_site_lookup|].
  rewrite (malloc_site_lookup _ _ _ _ Hinv).
  pose proof (table_inv_length _ _ Hinv) as Hlen.
  destruct (buckets !! b) as [l|] eqn:Hl; cbn.
  - split.
    + intros Hp. right. exists l. split; [done|]. by apply lookup_ge_None.
    + intros [Hb|(l' & [= <-] & Hp)].
      * apply lookup_lt_Some in Hl. lia.
      * by apply lookup_ge_None.
  - split; [|done]. intros _. left. apply lookup_ge_None in Hl. lia.
Qed.

Lemma lookup_or_add_Some_pre alloc key fl st buckets x :
  table_inv st buckets -> lookup_or_add alloc key fl st = Some x ->
  fl <> mtNone /\ 0 < table_size.
Proof.
  intros Hinv Hrun.
  assert (Hfl : fl <> mtNone).
  { intros ->. unfold MallocSiteTable.lookup_or_add in Hrun.
    by rewrite decide_True in Hrun. }
  split; [done|].
  unfold MallocSiteTable.lookup_or_add in Hrun. rewrite decide_False in Hrun by done.
  cbn zeta in Hrun.
  destruct (_table st !! hash_to_index (hash key)) eqn:Hh; [|done].
  apply lookup_lt_Some in Hh. destruct Hinv as [Hsz _ _ _ _]. lia.
Qed.

(** What one call of [lookup_or_add] does to a table: the chains only grow,
    by at most the returned entry at the tail of the bucket of the key; no
    site of an entry changes. *)
Lemma lookup_or_add_grows alloc key fl st buckets r b p st1 :
  fresh_allocator alloc -> table_inv st buckets ->
  lookup_or_add alloc key fl st = Some (r, b, p, st1) ->
  b = hash_to_index (hash key) /\ b < table_size /\
  exists buckets1,
    table_inv st1 buckets1 /\
    (forall i l, buckets !! i = Some l ->
       exists ext, buckets1 !! i = Some (l ++ ext) /\
                   (ext = [] \/ length l <= MAX_BUCKET_LENGTH /\ length ext = 1)) /\
    (forall a, is_Some (store st !! a) ->
       _malloc_site <$> store st1 !! a = _malloc_site <$> store st !! a) /\
    _hash_entry_allocation_site st1 = _hash_entry_allocation_site st /\
    _hash_entry_allocation_stack st1 = _hash_entry_allocation_stack st /\
    (forall e, r = Some e ->
       exists l1 ee, buckets1 !! b = Some l1 /\ l1 !! p = Some e /\
         p <= MAX_BUCKET_LENGTH /\ store st1 !! e = Some ee /\
         _malloc_site ee = mkSite key fl /\
         (st1 = st \/ store st !! e = None)).
Proof.
  intros Hfresh Hinv Hrun.
  destruct (lookup_or_add_Some_pre _ _ _ _ _ _ Hinv Hrun) as [Hfl Hts].
  pose proof (hash_to_index_lt table_size (hash key) Hts) as Hlt.
  assert (Hsame : forall st', st' = st ->
    exists buckets1,
      table_inv st' buckets1 /\
      (forall i l, buckets !! i = Some l ->
         exists ext, buckets1 !! i = Some (l ++ ext) /\
                     (ext = [] \/ length l <= MAX_BUCKET_LENGTH /\ length ext = 1)) /\
      (forall a, is_Some (store st !! a) ->
         _malloc_site <$> store st' !! a = _malloc_site <$> store st !! a) /\
      _hash_entry_allocation_site st' = _hash_entry_allocation_site st /\
      _hash_entry_allocation_stack st' = _hash_entry_allocation_stack st /\
      buckets1 = buckets).
  { intros st' ->. exists buckets. split; [done|]. split.
    - intros i l Hl. exists []. rewrite app_nil_r. split; [done|by left].
    - done. }
  destruct (lookup_or_add_spec hash mtNone table_size MAX_BUCKET_LENGTH
              alloc key fl st buckets Hfresh Hinv Hfl Hts)
    as (l & Hl & [(j & a & ea & Hj & Ha & Hm & Hnm & Hle & Hres)
                 |[(Hnm & Hle & Hres & Hinv1)
                  |(_ & _ & p' & Hres)]]);
    rewrite Hres in Hrun.
  - injection Hrun as <- <- <- <-. split; [done|]. split; [done|].
    destruct (Hsame st eq_refl) as (buckets1 & H1 & H2 & H3 & H4 & H5 & ->).
    exists buckets. split; [done|]. split; [done|]. split; [done|].
    split; [done|]. split; [done|].
    intros e [= <-]. exists l, ea. split; [done|]. split; [done|]. split; [done|].
    split; [done|]. split; [by apply site_matches_eq|by left].
  - destruct (_hash_entry_allocation_stack st) as [stk|] eqn:Hstk; [|done].
    cbn [mbind option_bind] in Hrun.
    destruct (alloc (store st)) as [n|] eqn:Halloc.
    + injection Hrun as <- <- <- <-. split; [done|]. split; [done|].
      destruct (table_inv_bucket _ _ _ _ _ Hinv Hlt) as (head & l' & Hhead & Hl' & Hc).
      assert (l' = l) as -> by congruence.
      pose proof (Hfresh _ _ Halloc) as Hn.
      destruct (added_state_facts st head (hash_to_index (hash key)) l n key fl Hc Hn)
        as (Hnew & Hsites & Hsite & Hstack).
      exists (<[hash_to_index (hash key) := l ++ [n]]> buckets).
      split; [exact (Hinv1 n Hn)|]. split.
      { intros i li Hi. destruct (decide (i = hash_to_index (hash key))) as [->|Hne].
        - assert (li = l) as -> by congruence. exists [n]. split.
          + apply list_lookup_insert_eq. by eapply lookup_lt_Some.
          + right. by split.
        - exists []. rewrite app_nil_r. split; [|by left].
          by rewrite list_lookup_insert_ne. }
      split.
      { intros a [ea Hea]. apply Hsites. intros ->. congruence. }
      split; [done|]. split; [by rewrite Hstack|].
      intros e [= <-]. exists (l ++ [n]), (mkEntry (mkSite key fl) None).
      split. { apply list_lookup_insert_eq. by eapply lookup_lt_Some. }
      split. { rewrite lookup_app_r by lia. by rewrite Nat.sub_diag. }
      split; [done|]. split; [done|]. split; [done|by right].
    + injection Hrun as <- <- <- <-. split; [done|]. split; [done|].
      destruct (Hsame st eq_refl) as (buckets1 & H1 & H2 & H3 & H4 & H5 & ->).
      exists buckets. split; [done|]. split; [done|]. split; [done|].
      split; [done|]. split; [done|]. done.
  - injection Hrun as <- <- <- <-. split; [done|]. split; [done|].
    destruct (Hsame st eq_refl) as (buckets1 & H1 & H2 & H3 & H4 & H5 & ->).
    exists buckets. split; [done|]. split; [done|]. split; [done|].
    split; [done|]. split; [done|]. done.
Qed.

Lemma bounded_buckets_grows buckets buckets1 :
  bounded_buckets buckets -> length buckets1 = length buckets ->
  (forall i l, buckets !! i = Some l ->
     exists ext, buckets1 !! i = Some (l ++ ext) /\
                 (ext = [] \/ length l <= MAX_BUCKET_LENGTH /\ length ext = 1)) ->
  bounded_buckets buckets1.
Proof.
  intros Hb Hlen Hext i l1 Hl1.
  destruct (buckets !! i) as [l|] eqn:Hl.
  - destruct (Hext i l Hl) as (ext & Hl1' & Hcase).
    assert (l1 = l ++ ext) as -> by congruence.
    rewrite length_app. specialize (Hb i l Hl).
    destruct Hcase as [->|[Hle Hone]]; cbn; lia.
  - apply lookup_ge_None in Hl. apply lookup_lt_Some in Hl1. lia.
Qed.

(** A run of [lookup_or_add] calls from a well-formed table that has been
    initialized returns, and the chains after it extend the chains before
    it. *)
Lemma lookup_calls_spec calls : forall st buckets,
  Forall (fun c => fresh_allocator c.1.1 /\ c.2 <> mtNone) calls ->
  0 < table_size -> _hash_entry_allocation_stack st <> None ->
  table_inv st buckets ->
  exists st' buckets',
    lookup_calls calls st = Some st' /\ table_inv st' buckets' /\
    (forall i l, buckets !! i = Some l ->
       exists ext, buckets' !! i = Some (l ++ ext)) /\
    (forall a, is_Some (store st !! a) ->
       _malloc_site <$> store st' !! a = _malloc_site <$> store st !! a) /\
    (bounded_buckets buckets -> bounded_buckets buckets').
Proof.
  induction calls as [|[[alloc key] fl] calls IH]; intros st buckets Hcalls Hts Hstk Hinv.
  - exists st, buckets. split; [done|]. split; [done|]. split.
    + intros i l Hl. exists []. by rewrite app_nil_r.
    + done.
  - apply Forall_cons in Hcalls as [[Hfresh Hfl] Hcalls]. cbn in Hfresh, Hfl.
    assert (Hret : exists r b p st1, lookup_or_add alloc key fl st = Some (r, b, p, st1)).
    { destruct (lookup_or_add_spec hash mtNone table_size MAX_BUCKET_LENGTH
                  alloc key fl st buckets Hfresh Hinv Hfl Hts)
        as (l & Hl & [(j & a & ea & _ & _ & _ & _ & _ & Hres)
                     |[(_ & _ & Hres & _)
                      |(_ & _ & p' & Hres)]]); rewrite Hres.
      - by eexists _, _, _, _.
      - destruct (_hash_entry_allocation_stack st) as [stk|]; [|done]. cbn.
        destruct (alloc (store st)); by eexists _, _, _, _.
      - by eexists _, _, _, _. }
    destruct Hret as (r & b & p & st1 & Hrun).
    destruct (lookup_or_add_grows _ _ _ _ _ _ _ _ _ Hfresh Hinv Hrun)
      as (_ & _ & buckets1 & Hinv1 & Hext1 & Hsites1 & _ & Hstk1 & _).
    destruct (IH st1 buckets1 Hcalls Hts) as (st' & buckets' & Hrun' & Hinv' & Hext' & Hsites' & Hb');
      [by rewrite Hstk1|done|].
    exists st', buckets'. split.
    { cbn [MallocSiteTable.lookup_calls]. rewrite Hrun. cbn. exact Hrun'. }
    split; [done|]. split.
    { intros i l Hl. destruct (Hext1 i l Hl) as (ext1 & Hl1 & _).
      destruct (Hext' i _ Hl1) as (ext' & Hl').
      exists (ext1 ++ ext'). by rewrite app_assoc. }
    split.
    { intros a Ha. rewrite Hsites'; [by apply Hsites1|].
      specialize (Hsites1 a Ha). destruct Ha as [ea Hea].
      rewrite Hea in Hsites1. by destruct (store st1 !! a). }
    intros Hb. apply Hb'.
    apply (bounded_buckets_grows buckets); [done| |done].
    by rewrite (table_inv_length _ _ Hinv1), (table_inv_length _ _ Hinv).
Qed.

(** X5: the indexes [lookup_or_add] writes are a handle that stays valid:
    after any further calls of [lookup_or_add] (which return), [malloc_site]
    on a handle still returns the same entry, and the entry still holds the
    same site. *)
Theorem malloc_site_handle_survives_lookups calls st b p e :
  Forall (fun c => fresh_allocator c.1.1 /\ c.2 <> mtNone) calls ->
  _hash_entry_allocation_stack st <> None ->
  wf st -> malloc_site b p st = Some e ->
  exists st', lookup_calls calls st = Some st' /\ wf st' /\
    malloc_site b p st' = Some e /\
    _malloc_site <$> store st' !! e = _malloc_site <$> store st !! e /\
    is_Some (store st !! e).
Proof.
  intros Hcalls Hstk [buckets Hinv] Hms.
  assert (Hts : 0 < table_size).
  { unfold MallocSiteTable.malloc_site in Hms. case_decide; [lia|done]. }
  destruct (lookup_calls_spec calls st buckets Hcalls Hts Hstk Hinv)
    as (st' & buckets' & Hrun & Hinv' & Hext & Hsites & _).
  rewrite (malloc_site_lookup _ _ _ _ Hinv) in Hms.
  destruct (buckets !! b) as [l|] eqn:Hl; [|done]. cbn in Hms.
  assert (He : is_Some (store st !! e)).
  { destruct (table_inv_bucket _ _ _ _ b Hinv) as (head & l' & _ & Hl' & Hc).
    { rewrite <- (table_inv_length _ _ Hinv). by eapply lookup_lt_Some. }
    assert (l' = l) as -> by congruence.
    eapply chain_in_store; [done|]. by eapply list_elem_of_lookup_2. }
  exists st'. split; [done|]. split; [by exists buckets'|]. split.
  - rewrite (malloc_site_lookup _ _ _ _ Hinv').
    destruct (Hext b l Hl) as (ext & ->). cbn.
    by apply lookup_app_l_Some.
  - split; [by apply Hsites|done].
Qed.

(** X6: no chain ever holds more than [MAX_BUCKET_LENGTH + 1] entries: a
    bound that holds before a run of [lookup_or_add] calls holds after
    it. *)
Theorem lookup_or_add_keeps_chains_bounded calls st :
  Forall (fun c => fresh_allocator c.1.1 /\ c.2 <> mtNone) calls ->
  0 < table_size -> _hash_entry_allocation_stack st <> None ->
  wf st ->
  (forall i head l, _table st !! i = Some head -> chain (store st) head l ->
     length l <= S MAX_BUCKET_LENGTH) ->
  exists st', lookup_calls calls st = Some st' /\
    forall i head l, _table st' !! i = Some head -> chain (store st') head l ->
      length l <= S MAX_BUCKET_LENGTH.
Proof.
  intros Hcalls Hts Hstk [buckets Hinv] Hbound.
  destruct (lookup_calls_spec calls st buckets Hcalls Hts Hstk Hinv)
    as (st' & buckets' & Hrun & Hinv' & _ & _ & Hb).
  exists st'. split; [done|].
  assert (Hb0 : bounded_buckets buckets).
  { intros i l Hl.
    destruct (table_inv_bucket _ _ _ _ i Hinv) as (head & l' & Hhead & Hl' & Hc).
    { rewrite <- (table_inv_length _ _ Hinv). by eapply lookup_lt_Some. }
    assert (l' = l) as -> by congruence. by eapply Hbound. }
  intros i head l Hhead Hc.
  destruct (table_inv_bucket _ _ _ _ i Hinv') as (head' & l' & Hhead' & Hl' & Hc').
  { rewrite <- (inv_size _ _ _ _ Hinv'). by eapply lookup_lt_Some. }
  assert (head' = head) as -> by congruence.
  rewrite (chain_det _ _ _ _ Hc Hc'). by apply (Hb Hb0 i).
Qed.

(** X7: two successive successful calls of [lookup_or_add] return the same
    entry exactly when they were given the same call stack and flags, and
    the same indexes exactly when they return the same entry. *)
Theorem lookup_or_add_entry_per_site alloc1 alloc2 key1 fl1 key2 fl2 st
    e1 b1 p1 st1 e2 b2 p2 st2 :
  fresh_allocator alloc1 -> fresh_allocator alloc2 -> wf st ->
  lookup_or_add alloc1 key1 fl1 st = Some (Some e1, b1, p1, st1) ->
  lookup_or_add alloc2 key2 fl2 st1 = Some (Some e2, b2, p2, st2) ->
  (e1 = e2 <-> (key1, fl1) = (key2, fl2)) /\
  (e1 = e2 <-> (b1, p1) = (b2, p2)).
Proof.
  intros Hf1 Hf2 [buckets Hinv] Hrun1 Hrun2.
  destruct (lookup_or_add_grows _ _ _ _ _ _ _ _ _ Hf1 Hinv Hrun1)
    as (Hb1 & _ & buckets1 & Hinv1 & _ & _ & _ & _ & Hret1).
  destruct (Hret1 e1 eq_refl) as (l1 & ee1 & Hl1 & Hp1 & Hle1 & Hee1 & Hsite1 & _).
  destruct (lookup_or_add_Some_pre _ _ _ _ _ _ Hinv Hrun1) as [Hfl1 Hts].
  destruct (lookup_or_add_grows _ _ _ _ _ _ _ _ _ Hf2 Hinv1 Hrun2)
    as (Hb2 & _ & buckets2 & Hinv2 & Hext2 & Hsites2 & _ & _ & Hret2).
  destruct (Hret2 e2 eq_refl) as (l2 & ee2 & Hl2 & Hp2 & Hle2 & Hee2 & Hsite2 & Hnew2).
  assert (Hsame : (key1, fl1) = (key2, fl2) -> e1 = e2 /\ (b1, p1) = (b2, p2)).
  { intros [= <- <-].
    rewrite Hb1 in Hl1.
    rewrite (lookup_or_add_hit hash mtNone table_size MAX_BUCKET_LENGTH
               alloc2 key1 fl1 st1 buckets1 l1 p1 e1 ee1 Hinv1 Hfl1 Hts Hl1 Hp1 Hee1)
      in Hrun2; [|by apply site_matches_eq|done].
    injection Hrun2 as <- <- <- <-. by rewrite Hb1. }
  assert (Hent : e1 = e2 -> (key1, fl1) = (key2, fl2)).
  { intros <-. destruct Hnew2 as [->|Hnone]; [|congruence].
    assert (ee2 = ee1) as -> by congruence. congruence. }
  split; [split; [done|by intros [? _]%Hsame]|].
  split; [by intros [_ ?]%Hent%Hsame|].
  intros [= <- <-].
  destruct (Hext2 b1 l1 Hl1) as (ext & Hl2' & _).
  assert (l2 = l1 ++ ext) as -> by congruence.
  rewrite (lookup_app_l_Some _ _ _ _ Hp1) in Hp2. congruence.
Qed.

(** X8: when the allocator has no memory, [lookup_or_add] on an initialized
    table is a pure lookup: it returns, leaves the state as it is, and its
    result is the entry of the bucket that holds the site, [NULL] when
    there is none. *)
Theorem lookup_or_add_without_memory_is_a_lookup alloc key fl st buckets :
  fresh_allocator alloc -> table_inv st buckets -> bounded_buckets buckets ->
  fl <> mtNone -> 0 < table_size -> _hash_entry_allocation_stack st <> None ->
  alloc (store st) = None ->
  exists r p,
    lookup_or_add alloc key fl st = Some (r, hash_to_index (hash key), p, st) /\
    forall e, r = Some e <->
      exists l ee, buckets !! hash_to_index (hash key) = Some l /\ e ∈ l /\
                   store st !! e = Some ee /\ _malloc_site ee = mkSite key fl.
Proof.
  intros Hfresh Hinv Hb Hfl Hts Hstk Halloc.
  destruct (lookup_or_add_spec hash mtNone table_size MAX_BUCKET_LENGTH
              alloc key fl st buckets Hfresh Hinv Hfl Hts)
    as (l & Hl & [(j & a & ea & Hj & Ha & Hm & Hnm & Hle & Hres)
                 |[(Hnm & Hle & Hres & _)
                  |(Hnm & Hlt & p' & Hres)]]).
  - exists (Some a), j. split; [done|]. intros e. split.
    + intros [= <-]. exists l, ea. split; [done|].
      split; [by eapply list_elem_of_lookup_2|]. split; [done|].
      by apply site_matches_eq.
    + intros (l' & ee & Hl' & He & Hee & Hsite).
      assert (l' = l) as -> by congruence. f_equal.
      apply (inv_unique _ _ _ _ Hinv _ l a e ea ee Hl); try done.
      * by eapply list_elem_of_lookup_2.
      * apply site_matches_eq in Hm. congruence.
  - destruct (_hash_entry_allocation_stack st) as [stk|]; [|done].
    rewrite Halloc in Hres. cbn in Hres.
    exists None, (length l - 1). split; [done|]. intros e. split; [done|].
    intros (l' & ee & Hl' & He & Hee & Hsite).
    assert (l' = l) as -> by congruence.
    destruct (Hnm e ee He Hee). by apply site_matches_eq.
  - exists None, p'. split; [done|]. intros e. split; [done|].
    intros (l' & ee & Hl' & He & Hee & Hsite).
    assert (l' = l) as -> by congruence.
    rewrite take_ge in Hnm by (specialize (Hb _ _ Hl); lia).
    destruct (Hnm e ee He Hee). by apply site_matches_eq.
Qed.

Lemma state_eq (s1 s2 : state) :
  _table s1 = _table s2 -> store s1 = store s2 ->
  _hash_entry_allocation_stack s1 = _hash_entry_allocation_stack s2 ->
  _hash_entry_allocation_site s1 = _hash_entry_allocation_site s2 -> s1 = s2.
Proof. destruct s1, s2. cbn. by intros -> -> -> ->. Qed.

(** X9: [reset] is idempotent: on the table a [reset] leaves, a second
    [reset] changes nothing. *)
Theorem reset_twice_is_reset st :
  wf st -> exists st', reset st = Some st' /\ reset st' = Some st'.
Proof.
  intros [buckets Hinv].
  destruct (reset_spec hash table_size st buckets Hinv)
    as (st' & Hrun & Hinv' & Htab & Hsite & Hstk & _ & _).
  exists st'. split; [done|].
  destruct (reset_spec hash table_size st' _ Hinv')
    as (st'' & Hrun' & _ & Htab' & Hsite' & Hstk' & _ & Hkept).
  rewrite Hrun'. f_equal. apply state_eq; [congruence| |congruence..].
  apply map_eq. intros a. apply Hkept. left.
  intros (i & l & _ & [-> _]%lookup_replicate & Ha). by apply elem_of_nil in Ha.
Qed.

(** X10: after a successful [lookup_or_add], [walk] hands the walker the
    site of the call, once. *)
Theorem lookup_or_add_site_is_walked alloc key fl st e b p st1 :
  fresh_allocator alloc -> wf st ->
  lookup_or_add alloc key fl st = Some (Some e, b, p, st1) ->
  exists sites,
    walk (fun visited site => (true, visited ++ [site])) st1 [] = Some (true, sites) /\
    mkSite key fl ∈ sites /\ NoDup sites.
Proof.
  intros Hfresh [buckets Hinv] Hrun.
  destruct (lookup_or_add_grows _ _ _ _ _ _ _ _ _ Hfresh Hinv Hrun)
    as (_ & _ & buckets1 & Hinv1 & _ & _ & _ & _ & Hret).
  destruct (Hret e eq_refl) as (l1 & ee & Hl1 & Hp & _ & Hee & Hsite & _).
  exists (sites_of (store st1) (concat buckets1)). split.
  { rewrite (walk_visit _ _ _ _ Hinv1). by rewrite visit_recording. }
  split; [|by apply table_inv_sites_NoDup].
  apply list_elem_of_omap. exists e. split.
  - apply elem_of_concat. exists l1.
    split; by eapply list_elem_of_lookup_2.
  - by rewrite Hee, <- Hsite.
Qed.

(** X19: [lookup_or_add] on an initialized table returns, and it returns
    [NULL] only when the allocator has no memory or the bucket of the key
    is full (its chain holds more than [MAX_BUCKET_LENGTH] entries). *)
Theorem lookup_or_add_null_means_no_memory_or_overflow alloc key fl st buckets :
  fresh_allocator alloc -> table_inv st buckets ->
  fl <> mtNone -> 0 < table_size -> _hash_entry_allocation_stack st <> None ->
  exists r p st1,
    lookup_or_add alloc key fl st = Some (r, hash_to_index (hash key), p, st1) /\
    (r = None ->
     alloc (store st) = None \/
     exists l, buckets !! hash_to_index (hash key) = Some l /\
               MAX_BUCKET_LENGTH < length l).
Proof.
  intros Hfresh Hinv Hfl Hts Hstk.
  destruct (lookup_or_add_spec hash mtNone table_size MAX_BUCKET_LENGTH
              alloc key fl st buckets Hfresh Hinv Hfl Hts)
    as (l & Hl & [(j & a & ea & _ & _ & _ & _ & _ & Hres)
                 |[(_ & _ & Hres & _)
                  |(_ & Hlt & p' & Hres)]]).
  - exists (Some a), j, st. by split.
  - destruct (_hash_entry_allocation_stack st) as [stk|]; [|done]. cbn in Hres.
    destruct (alloc (store st)) as [n|] eqn:Halloc.
    + eexists (Some n), _, _. by split.
    + exists None, (length l - 1), st. split; [done|]. by left.
  - exists None, p', st. split; [done|]. intros _. right. by exists l.
Qed.

(** X20: a table that is not initialized cannot take a new site: on the
    table before [initialize], and on the table [reset] leaves,
    [lookup_or_add] has no result, because [new_entry] dereferences
    [_hash_entry_allocation_stack], which is [NULL]. *)
Theorem lookup_or_add_needs_initialize alloc key fl st :
  wf st -> 0 < table_size ->
  lookup_or_add alloc key fl (initial_state table_size) = None /\
  exists st', reset st = Some st' /\ lookup_or_add alloc key fl st' = None.
Proof.
  intros [buckets Hinv] Hts.
  assert (Hnone : forall s, _table s = replicate table_size None ->
            _hash_entry_allocation_stack s = None ->
            lookup_or_add alloc key fl s = None).
  { intros s Htab Hstk. unfold MallocSiteTable.lookup_or_add.
    case_decide; [done|]. cbn zeta. rewrite Htab.
    rewrite lookup_replicate_2 by by apply hash_to_index_lt.
    cbn [mbind option_bind]. unfold new_entry. by rewrite Hstk. }
  split; [by apply Hnone|].
  destruct (reset_spec hash table_size st buckets Hinv)
    as (st' & Hrun & _ & Htab & _ & Hstk & _).
  exists st'. split; [done|]. by apply Hnone.
Qed.

(** X21: [delete_linked_list] on a well-linked chain returns and frees
    every entry of the chain except the bootstrap entry; the buckets, the
    bootstrap pointers and all other memory are left as they were. *)
Theorem delete_linked_list_frees_chain_but_bootstrap head l st :
  chain (store st) head l ->
  exists st', delete_linked_list (size (store st)) head st = Some st' /\
    _table st' = _table st /\
    _hash_entry_allocation_site st' = _hash_entry_allocation_site st /\
    _hash_entry_allocation_stack st' = _hash_entry_allocation_stack st /\
    forall a, store st' !! a =
      if decide (a ∈ l /\ Some a <> _hash_entry_allocation_site st)
      then None else store st !! a.
Proof.
  intros Hc.
  destruct (delete_linked_list_spec l (size (store st)) head st Hc
              (chain_length _ _ _ Hc))
    as (st' & Hrun & Htab & Hsite & Hstk & Hgone & Hkept).
  exists st'. split; [done|]. split; [done|]. split; [done|]. split; [done|].
  intros a. case_decide as Ha.
  - destruct Ha as [Hin Hne]. by apply Hgone.
  - apply Hkept. destruct (decide (a ∈ l)) as [Hin|Hout]; [|by left].
    right. destruct (decide (Some a = _hash_entry_allocation_site st)); [done|].
    by destruct Ha.
Qed.

End More.

Lemma concat_insert_replicate {A} (x : list A) n : forall i,
  i < n -> concat (<[i := x]> (replicate n [])) = x.
Proof.
  induction n as [|n IH]; intros i Hi; [lia|].
  destruct i as [|i]; cbn.
  - clear. rewrite <- (app_nil_r x) at 2. f_equal.
    induction n as [|n IH]; [done|]. cbn. exact IH.
  - apply IH. lia.
Qed.

(** X11: [initialize] on the table before initialization returns true and
    installs the bootstrap entry for the pseudo call stack as the only
    entry; [lookup_or_add] for that stack with [mtNMT] then finds it without
    allocating, whatever the allocator would answer; a second [initialize]
    fails its assertion. *)
Theorem initialize_installs_bootstrap_site hash mtNone mtNMT table_size
    MAX_BUCKET_LENGTH MAX_MALLOCSITE_TABLE_SIZE NMT_TrackingStackDepth
    pc0 pc1 pc2 entry :
  0 < table_size -> table_size <= MAX_MALLOCSITE_TABLE_SIZE ->
  1 < NMT_TrackingStackDepth -> mtNMT <> mtNone ->
  let stack := pseudo_stack NMT_TrackingStackDepth pc0 pc1 pc2 in
  let index := hash_to_index table_size (hash stack) in
  exists st,
    initialize hash mtNMT table_size MAX_MALLOCSITE_TABLE_SIZE NMT_TrackingStackDepth
      pc0 pc1 pc2 entry (initial_state table_size) = Some (true, st) /\
    wf hash table_size st /\
    _hash_entry_allocation_stack st = Some stack /\
    _hash_entry_allocation_site st = Some entry /\
    malloc_site table_size index 0 st = Some entry /\
    walk table_size (fun visited site => (true, visited ++ [site])) st [] =
      Some (true, [mkSite stack mtNMT]) /\
    (forall alloc,
       lookup_or_add hash mtNone table_size MAX_BUCKET_LENGTH alloc stack mtNMT st =
         Some (Some entry, index, 0, st)) /\
    initialize hash mtNMT table_size MAX_MALLOCSITE_TABLE_SIZE NMT_TrackingStackDepth
      pc0 pc1 pc2 entry st = None.
Proof.
  intros Hts Hmax Hdepth Hnmt stack index.
  destruct (initialize hash mtNMT table_size MAX_MALLOCSITE_TABLE_SIZE
              NMT_TrackingStackDepth pc0 pc1 pc2 entry (initial_state table_size))
    as [[r st]|] eqn:Hinit; cycle 1.
  { unfold initialize in Hinit. by rewrite decide_True in Hinit. }
  assert (r = true) as ->.
  { unfold initialize in Hinit. case_decide; [|done]. by injection Hinit as <- _. }
  destruct (initialize_inv _ _ _ _ _ _ _ _ _ _ Hts Hinit) as (Hinv & Hsite & Hstk).
  fold stack in Hinv, Hstk. fold index in Hinv.
  assert (Hidx : index < table_size) by by apply hash_to_index_lt.
  assert (Hentry : store st !! entry = Some (mkEntry (mkSite stack mtNMT) None)).
  { unfold initialize in Hinit. case_decide; [|done].
    change (store (initial_state table_size))
      with (∅ : gmap addr MallocSiteHashtableEntry) in Hinit.
    rewrite lookup_empty in Hinit. injection Hinit as <-.
    cbn. apply lookup_insert_eq. }
  assert (Hbucket : <[index := [entry]]> (replicate table_size []) !! index
                    = Some [entry]).
  { apply list_lookup_insert_eq. by rewrite length_replicate. }
  exists st. split; [done|]. split; [by eexists|]. split; [done|]. split; [done|].
  split.
  { rewrite (malloc_site_lookup _ _ _ _ _ _ Hinv). by rewrite Hbucket. }
  split.
  { rewrite (walk_visit _ _ _ _ _ _ Hinv), visit_recording.
    rewrite concat_insert_replicate by done.
    by rewrite (sites_of_cons _ _ _ _ Hentry). }
  split.
  { intros alloc.
    apply (lookup_or_add_hit hash mtNone table_size MAX_BUCKET_LENGTH alloc stack mtNMT
             st _ [entry] 0 entry (mkEntry (mkSite stack mtNMT) None) Hinv);
      [done|done|done|done|done|done|lia]. }
  unfold initialize. rewrite decide_False; [done|].
  intros (_ & _ & Hnone & _). congruence.
Qed.

(** *** The properties on the sample tables *)

Lemma walk_visits_every_site_in_bucket_order_witness :
  walk 4 (fun visited site => (true, visited ++ [site])) sample_s3 [] =
    Some (true, [mkSite [3%Z; 7%Z; 11%Z] sample_mtNMT; mkSite [3%Z] sample_flags;
                 mkSite [7%Z] sample_flags; mkSite [11%Z] sample_flags]).
Proof.
  exact (proj1 (proj2 (walk_visits_every_site_in_bucket_order sample_hash 4
           (fun visited site => (true, visited ++ [site])) sample_s3
           [[]; [1%positive]; []; [2%positive; 3%positive; 4%positive]] []
           sample_s3_inv))).
Defined.

Lemma malloc_site_indexes_bucket_chain_witness :
  malloc_site 4 3 1 sample_s3 = Some 3%positive /\
  malloc_site 4 3 3 sample_s3 = None /\
  malloc_site 4 4 0 sample_s3 = None.
Proof.
  split; [|split].
  - exact (proj1 (malloc_site_indexes_bucket_chain sample_hash 4 sample_s3
             [[]; [1%positive]; []; [2%positive; 3%positive; 4%positive]] 3 1
             sample_s3_inv)).
  - reflexivity.
  - reflexivity.
Defined.

Lemma sample_calls_ok :
  Forall (fun c : Allocator * NativeCallStack * MEMFLAGS =>
            fresh_allocator c.1.1 /\ c.2 <> sample_mtNone)
    [(sample_alloc, [7%Z], sample_flags); (no_memory, [2%Z], sample_flags);
     (sample_alloc, [11%Z], sample_flags); (sample_alloc, [15%Z], sample_flags)].
Proof.
  assert (Hnm : fresh_allocator no_memory) by (intros h a; discriminate).
  repeat (apply Forall_cons; split; [split; [first [exact sample_alloc_fresh|exact Hnm]|discriminate]|]).
  apply Forall_nil_2.
Qed.

Lemma malloc_site_handle_survives_lookups_witness :
  malloc_site 4 3 0 sample_s1 = Some 2%positive /\
  exists st',
    lookup_calls sample_hash sample_mtNone 4 2
      [(sample_alloc, [7%Z], sample_flags); (no_memory, [2%Z], sample_flags);
       (sample_alloc, [11%Z], sample_flags); (sample_alloc, [15%Z], sample_flags)]
      sample_s1 = Some st' /\
    malloc_site 4 3 0 st' = Some 2%positive.
Proof.
  split; [reflexivity|].
  destruct (malloc_site_handle_survives_lookups sample_hash sample_mtNone 4 2
              [(sample_alloc, [7%Z], sample_flags); (no_memory, [2%Z], sample_flags);
               (sample_alloc, [11%Z], sample_flags); (sample_alloc, [15%Z], sample_flags)]
              sample_s1 3 0 2%positive sample_calls_ok)
    as (st' & Hrun & _ & Hms & _).
  - discriminate.
  - eexists. apply sample_s1_inv.
  - reflexivity.
  - exists st'. by split.
Defined.

Lemma lookup_or_add_keeps_chains_bounded_witness :
  exists st',
    lookup_calls sample_hash sample_mtNone 4 2
      [(sample_alloc, [7%Z], sample_flags); (no_memory, [2%Z], sample_flags);
       (sample_alloc, [11%Z], sample_flags); (sample_alloc, [15%Z], sample_flags)]
      sample_s1 = Some st' /\
    forall i head l, _table st' !! i = Some head -> chain (store st') head l ->
      length l <= 3.
Proof.
  apply (lookup_or_add_keeps_chains_bounded sample_hash sample_mtNone 4 2 _ sample_s1
           sample_calls_ok).
  - lia.
  - discriminate.
  - eexists. apply sample_s1_inv.
  - intros i head l Hhead Hc.
    destruct (table_inv_bucket _ _ _ _ i sample_s1_inv) as (head' & l' & Hhead' & Hl' & Hc').
    { apply lookup_lt_Some in Hhead. exact Hhead. }
    assert (head' = head) as -> by congruence.
    rewrite (chain_det _ _ _ _ Hc Hc').
    destruct i as [|[|[|[|i]]]]; cbn in Hl'; try discriminate;
      injection Hl' as <-; cbn; lia.
Defined.

Lemma lookup_or_add_entry_per_site_witness :
  lookup_or_add sample_hash sample_mtNone 4 2 sample_alloc [3%Z] sample_flags sample_s0
    = Some (Some 2%positive, 3, 0, sample_s1) /\
  lookup_or_add sample_hash sample_mtNone 4 2 sample_alloc [7%Z] sample_flags sample_s1
    = Some (Some 3%positive, 3, 1, sample_s2) /\
  (2%positive = 3%positive <-> ([3%Z], sample_flags) = ([7%Z], sample_flags)).
Proof.
  assert (Hrun1 : lookup_or_add sample_hash sample_mtNone 4 2 sample_alloc [3%Z]
                    sample_flags sample_s0 = Some (Some 2%positive, 3, 0, sample_s1))
    by (vm_compute; reflexivity).
  assert (Hrun2 : lookup_or_add sample_hash sample_mtNone 4 2 sample_alloc [7%Z]
                    sample_flags sample_s1 = Some (Some 3%positive, 3, 1, sample_s2))
    by (vm_compute; reflexivity).
  split; [exact Hrun1|]. split; [exact Hrun2|].
  assert (Hwf : wf sample_hash 4 sample_s0) by (eexists; apply sample_s0_inv).
  exact (proj1 (lookup_or_add_entry_per_site sample_hash sample_mtNone 4 2
                  sample_alloc sample_alloc [3%Z] sample_flags [7%Z] sample_flags
                  sample_s0 2%positive 3 0 sample_s1 3%positive 3 1 sample_s2
                  sample_alloc_fresh sample_alloc_fresh Hwf Hrun1 Hrun2)).
Defined.

Lemma lookup_or_add_without_memory_is_a_lookup_witness :
  exists r p,
    lookup_or_add sample_hash sample_mtNone 4 2 no_memory [7%Z] sample_flags sample_s2
      = Some (r, 3, p, sample_s2) /\
    forall e, r = Some e <->
      exists l ee, [[]; [1%positive]; []; [2%positive; 3%positive]] !! 3 = Some l /\
                   e ∈ l /\ store sample_s2 !! e = Some ee /\
                   _malloc_site ee = mkSite [7%Z] sample_flags.
Proof.
  apply (lookup_or_add_without_memory_is_a_lookup sample_hash sample_mtNone 4 2
           no_memory [7%Z] sample_flags sample_s2
           [[]; [1%positive]; []; [2%positive; 3%positive]]).
  - intros h a. discriminate.
  - apply sample_s2_inv.
  - intros i l Hl.
    destruct i as [|[|[|[|i]]]]; cbn in Hl; try discriminate;
      injection Hl as <-; cbn; lia.
  - discriminate.
  - lia.
  - discriminate.
  - reflexivity.
Defined.

Lemma reset_twice_is_reset_witness :
  exists st', reset 4 sample_s3 = Some st' /\ reset 4 st' = Some st'.
Proof.
  apply (reset_twice_is_reset sample_hash 4 sample_s3).
  eexists. apply sample_s3_inv.
Defined.

Lemma lookup_or_add_site_is_walked_witness :
  lookup_or_add sample_hash sample_mtNone 4 2 sample_alloc [11%Z] sample_flags sample_s2
    = Some (Some 4%positive, 3, 2, sample_s3) /\
  exists sites,
    walk 4 (fun visited site => (true, visited ++ [site])) sample_s3 [] =
      Some (true, sites) /\
    mkSite [11%Z] sample_flags ∈ sites /\ NoDup sites.
Proof.
  assert (Hrun : lookup_or_add sample_hash sample_mtNone 4 2 sample_alloc [11%Z]
                   sample_flags sample_s2 = Some (Some 4%positive, 3, 2, sample_s3))
    by (vm_compute; reflexivity).
  split; [exact Hrun|].
  apply (lookup_or_add_site_is_walked sample_hash sample_mtNone 4 2 sample_alloc
           [11%Z] sample_flags sample_s2 4%positive 3 2 sample_s3 sample_alloc_fresh);
    [|exact Hrun].
  eexists. apply sample_s2_inv.
Defined.

Lemma initialize_installs_bootstrap_site_witness :
  exists st,
    initialize sample_hash sample_mtNMT 4 4095 4 3%Z 7%Z 11%Z 1%positive
      (initial_state 4) = Some (true, st) /\
    (forall alloc,
       lookup_or_add sample_hash sample_mtNone 4 2 alloc [3%Z; 7%Z; 11%Z]
         sample_mtNMT st = Some (Some 1%positive, 1, 0, st)).
Proof.
  destruct (initialize_installs_bootstrap_site sample_hash sample_mtNone sample_mtNMT
              4 2 4095 4 3%Z 7%Z 11%Z 1%positive)
    as (st & Hinit & _ & _ & _ & _ & _ & Hlookup & _); [lia|lia|lia|discriminate|].
  exists st. split; [exact Hinit|exact Hlookup].
Defined.

Lemma lookup_or_add_null_means_no_memory_or_overflow_witness :
  exists r p st1,
    lookup_or_add sample_hash sample_mtNone 4 2 sample_alloc [15%Z] sample_flags sample_s3
      = Some (r, 3, p, st1) /\
    (r = None ->
     sample_alloc (store sample_s3) = None \/
     exists l, [[]; [1%positive]; []; [2%positive; 3%positive; 4%positive]] !! 3 = Some l /\
               2 < length l).
Proof.
  apply (lookup_or_add_null_means_no_memory_or_overflow sample_hash sample_mtNone 4 2
           sample_alloc [15%Z] sample_flags sample_s3
           [[]; [1%positive]; []; [2%positive; 3%positive; 4%positive]]
           sample_alloc_fresh sample_s3_inv).
  - discriminate.
  - lia.
  - discriminate.
Defined.

Lemma lookup_or_add_needs_initialize_witness :
  lookup_or_add sample_hash sample_mtNone 4 2 sample_alloc [3%Z] sample_flags
    (initial_state 4) = None /\
  exists st', reset 4 sample_s2 = Some st' /\
    lookup_or_add sample_hash sample_mtNone 4 2 sample_alloc [3%Z] sample_flags st' = None.
Proof.
  apply (lookup_or_add_needs_initialize sample_hash sample_mtNone 4 2 sample_alloc
           [3%Z] sample_flags sample_s2).
  - eexists. apply sample_s2_inv.
  - lia.
Defined.

Lemma delete_linked_list_frees_chain_but_bootstrap_witness :
  exists st',
    delete_linked_list (size (store sample_s2)) (Some 2%positive) sample_s2 = Some st' /\
    store st' !! 3%positive = None /\
    store st' !! 1%positive = store sample_s2 !! 1%positive.
Proof.
  destruct (delete_linked_list_frees_chain_but_bootstrap (Some 2%positive)
              [2%positive; 3%positive] sample_s2)
    as (st' & Hrun & _ & _ & _ & Hstore).
  { econstructor; [reflexivity|]. econstructor; [reflexivity|]. constructor. }
  exists st'. split; [exact Hrun|]. split.
  - rewrite Hstore. rewrite decide_True; [done|]. split; [|discriminate].
    apply elem_of_cons. right. apply elem_of_cons. by left.
  - rewrite Hstore. rewrite decide_False; [done|]. intros [Hin _].
    apply elem_of_cons in Hin as [Hin|Hin]; [discriminate|].
    apply elem_of_cons in Hin as [Hin|Hin]; [discriminate|].
    by apply elem_of_nil in Hin.
Defined.

End MallocSiteTableProofs.

(** ** MallocSiteTable::AccessLock *)
Module AccessLockProofs.
Import AccessLock.

Local Open Scope Z_scope.

(** C8, refuted on the code: [exclusiveLock] reads the counter twice, once
    for [val] and once more for [target], so the [cmpxchg] does not always
    add [_MAGIC_] to the value it compared.  Under [racy_schedule] the call
    returns although thread 2, which acquired shared access before the call
    began, still holds it. *)
Theorem exclusiveLock_returns_while_shared_lock_held :
  run min_jint racy_schedule initial =
    Some (mkSystem min_jint [2%nat] Returned ExclusiveLock).
Proof. vm_compute. reflexivity. Qed.


Lemma wrap_int_id z : min_jint <= z < 2 ^ 31 -> wrap_int z = z.
Proof.
  unfold wrap_int, min_jint. intros Hz.
  rewrite Z.mod_small by lia. lia.
Qed.

Lemma length_filter_ne (t : nat) (l : list nat) :
  NoDup l -> t ∈ l ->
  S (length (filter (fun r => r <> t) l)) = length l.
Proof.
  induction 1 as [|x l Hx Hnd IH]; intros Hin.
  - by apply elem_of_nil in Hin.
  - rewrite filter_cons. destruct (decide (x <> t)) as [Hne|Heq].
    + apply elem_of_cons in Hin as [->|Hin]; [done|]. cbn. by rewrite IH.
    + assert (x = t) as -> by (destruct (decide (x = t)); [done|by destruct Heq]).
      cbn. f_equal.
      clear IH Hin Hnd. induction l as [|y l IH]; [done|].
      apply not_elem_of_cons in Hx as [Hty Hx].
      rewrite filter_cons_True by done. cbn. by rewrite IH.
Qed.

Lemma step_readers _MAGIC_ ev s s' :
  step _MAGIC_ ev s = Some s' -> NoDup (readers s) ->
  NoDup (readers s') /\
  forall t, t ∈ readers s' -> t ∈ readers s \/ ev = Shared t.
Proof.
  destruct s as [lk rs pc ws]. intros Hstep Hnd.
  destruct ev as [t|t|]; cbn in Hstep.
  - case_decide as Hin; [done|]. injection Hstep as <-.
    unfold sharedLock. cbn [lock readers writer_pc writer_state].
    case_decide; cbn [snd readers].
    + split; [by apply NoDup_cons|].
      intros t' [->|Ht']%elem_of_cons; [by right|by left].
    + split; [done|]. intros t' Ht'. by left.
  - unfold sharedUnlock in Hstep. cbn [lock readers writer_pc writer_state] in Hstep.
    case_decide as Hin; [|done]. injection Hstep as <-. cbn [readers].
    split; [by apply NoDup_filter|].
    intros t' [_ Ht']%list_elem_of_filter. by left.
  - assert (readers s' = rs) as ->; [|split; [done|by left]].
    unfold exclusiveLock_step in Hstep. cbn [lock readers writer_pc writer_state] in Hstep.
    destruct pc; try done; repeat case_decide; try done; by injection Hstep as <-.
Qed.

Section Safety.
Variable _MAGIC_ : Z.
Hypothesis magic_range : min_jint <= _MAGIC_ < 0.

Local Abbreviation step := (step _MAGIC_).
Local Abbreviation run := (run _MAGIC_).
Local Abbreviation undisturbed := (undisturbed _MAGIC_).

Local Abbreviation counter_inv := (counter_inv _MAGIC_).

(** A step keeps the counter in line with the holders of shared access, as
    long as the holders after it are fewer than [-_MAGIC_]. *)
Lemma step_counter_inv ev s s' :
  counter_inv 0 s ->
  match writer_pc s, ev with
  | AtReadTarget _, (Shared _ | Release _) => False
  | _, _ => True
  end ->
  step ev s = Some s' ->
  Z.of_nat (length (readers s')) < - _MAGIC_ ->
  counter_inv 0 s'.
Proof.
  unfold AccessLock.counter_inv. intros (Hnd & Hbound & Hpc) Hev Hstep Hnew.
  assert (Hwrap : forall z, - 2 ^ 31 <= z < 2 ^ 31 -> wrap_int z = z).
  { intros z Hz. apply wrap_int_id. unfold min_jint. lia. }
  unfold min_jint in magic_range.
  destruct s as [lk rs pc ws]. cbn [lock readers writer_pc writer_state] in *.
  destruct ev as [t|t|]; cbn in Hstep.
  - case_decide as Hin; [done|]. injection Hstep as <-.
    unfold sharedLock in *. cbn [lock readers writer_pc writer_state] in *.
    case_decide as Hlock; cbn [snd lock readers writer_pc writer_state] in *.
    + split; [by apply NoDup_cons|]. cbn [length] in *. split; [lia|].
      destruct pc; try done; try lia.
      all: rewrite Hwrap by lia; lia.
    + split; [done|]. split; [lia|]. done.
  - unfold sharedUnlock in Hstep. cbn [lock readers writer_pc writer_state] in Hstep.
    case_decide as Hin; [|done]. injection Hstep as <-.
    cbn [lock readers writer_pc writer_state] in *.
    pose proof (length_filter_ne t rs Hnd Hin) as Hlen.
    split; [by apply NoDup_filter|]. split; [lia|].
    destruct pc; try done; try lia.
    all: rewrite Hwrap by lia; lia.
  - unfold exclusiveLock_step in Hstep. cbn [lock readers writer_pc writer_state] in Hstep.
    destruct pc as [| |val|val target| |]; try done.
    + case_decide; [|done]. injection Hstep as <-.
      cbn [lock readers writer_pc writer_state]. repeat split; try done; lia.
    + injection Hstep as <-.
      cbn [lock readers writer_pc writer_state]. repeat split; try done; lia.
    + injection Hstep as <-.
      cbn [lock readers writer_pc writer_state].
      rewrite Hwrap by lia. repeat split; try done; lia.
    + case_decide; injection Hstep as <-;
        cbn [lock readers writer_pc writer_state]; repeat split; try done; lia.
    + case_decide; injection Hstep as <-;
        cbn [lock readers writer_pc writer_state]; repeat split; try done; lia.
Qed.

(** When the threads that take shared access are fewer than [-_MAGIC_] and
    none of them touches the counter between the two reads of
    [exclusiveLock], the counter stays in line with the holders of shared
    access. *)
Lemma undisturbed_run_counter_inv (threads : list nat) schedule :
  Z.of_nat (length threads) < - _MAGIC_ ->
  forall s s',
  (forall t, Shared t ∈ schedule -> t ∈ threads) ->
  (forall t, t ∈ readers s -> t ∈ threads) ->
  counter_inv 0 s ->
  undisturbed schedule s -> run schedule s = Some s' ->
  counter_inv 0 s' /\ (forall t, t ∈ readers s' -> t ∈ threads).
Proof.
  intros Hthreads.
  induction schedule as [|ev schedule IH]; intros s s' Hsched Hsub Hinv Hund Hrun.
  - cbn in Hrun. by injection Hrun as <-.
  - cbn [AccessLock.run] in Hrun. cbn [AccessLock.undisturbed] in Hund.
    destruct (step ev s) as [s1|] eqn:Hstep; [|done]. cbn in Hrun.
    destruct (step_readers _MAGIC_ ev s s1 Hstep) as [Hnd1 Hfrom];
      [by destruct Hinv|].
    assert (Hsub1 : forall t, t ∈ readers s1 -> t ∈ threads).
    { intros t [Ht| ->]%Hfrom; [by apply Hsub|].
      apply Hsched, elem_of_cons. by left. }
    apply (IH s1 s'); [|done| | |done].
    + intros t Ht. apply Hsched, elem_of_cons. by right.
    + apply (step_counter_inv ev s s1); [done| |done|].
      * destruct (writer_pc s), ev; done.
      * pose proof (submseteq_length _ _ (NoDup_submseteq _ _ Hnd1 Hsub1)). lia.
    + destruct (writer_pc s), ev; done.
Qed.

Lemma counter_inv_initial : counter_inv 0 initial.
Proof.
  unfold AccessLock.counter_inv, initial. cbn. unfold min_jint in magic_range.
  split; [apply NoDup_nil_2|]. split; [lia|done].
Qed.

End Safety.

(** X2: when the threads that take shared access are fewer than [-_MAGIC_]
    and none of them touches the counter between the two reads of it in
    [exclusiveLock], the call returns only when no shared lock is held,
    however long it waits. *)
Theorem exclusiveLock_excludes_shared_when_undisturbed _MAGIC_
    (threads : list nat) schedule s :
  min_jint <= _MAGIC_ < 0 ->
  Z.of_nat (length threads) < - _MAGIC_ ->
  (forall t, Shared t ∈ schedule -> t ∈ threads) ->
  undisturbed _MAGIC_ schedule initial ->
  run _MAGIC_ schedule initial = Some s ->
  writer_pc s = Returned -> readers s = [].
Proof.
  intros Hmagic Hthreads Hsched Hund Hrun Hret.
  destruct (undisturbed_run_counter_inv _MAGIC_ Hmagic threads schedule Hthreads
              initial s Hsched) as [(_ & _ & Hpc) _]; [|by apply counter_inv_initial|done..|].
  { intros t Ht. by apply elem_of_nil in Ht. }
  rewrite Hret in Hpc. destruct Hpc as [_ Hz]. by destruct (readers s).
Qed.

Lemma exclusiveLock_excludes_shared_when_undisturbed_witness :
  run min_jint calm_schedule initial = Some (mkSystem min_jint [] Returned ExclusiveLock) /\
  readers (mkSystem min_jint [] Returned ExclusiveLock) = [].
Proof.
  assert (Hrun : run min_jint calm_schedule initial =
                   Some (mkSystem min_jint [] Returned ExclusiveLock))
    by (vm_compute; reflexivity).
  split; [exact Hrun|].
  apply (exclusiveLock_excludes_shared_when_undisturbed min_jint [1%nat] calm_schedule
           (mkSystem min_jint [] Returned ExclusiveLock));
    [unfold min_jint; lia|unfold min_jint; cbn; lia|
    |vm_compute; exact I|exact Hrun|reflexivity].
  intros t Hin. unfold calm_schedule in Hin.
  repeat (apply elem_of_cons in Hin as [Hin|Hin];
          [first [discriminate Hin|injection Hin as ->; apply elem_of_cons; by left]|]).
  by apply elem_of_nil in Hin.
Defined.

(** *** Shared access and the return of exclusiveLock *)

Lemma filter_ne_notin (t : nat) (l : list nat) :
  t ∉ l -> filter (fun r => r <> t) l = l.
Proof.
  induction l as [|x l IH]; intros Hnotin; [done|].
  apply not_elem_of_cons in Hnotin as [Hne Hnotin].
  rewrite filter_cons_True by done. by rewrite IH.
Qed.

Lemma filter_ne_head (t : nat) (l : list nat) :
  t ∉ l -> filter (fun r => r <> t) (t :: l) = l.
Proof.
  intros Hnotin. rewrite filter_cons_False by (by intros ?).
  by apply filter_ne_notin.
Qed.

(** X16: when the threads that take shared access are fewer than
    [-_MAGIC_] and none of them changes the counter between the two reads of
    [exclusiveLock], [sharedLock] succeeds as long as the [cmpxchg] of
    [exclusiveLock] has not succeeded, and from then on fails and leaves the
    counter as it is. *)
Theorem sharedLock_fails_once_exclusive_is_pending _MAGIC_ (threads : list nat)
    schedule s t :
  min_jint <= _MAGIC_ < 0 ->
  Z.of_nat (length threads) < - _MAGIC_ ->
  (forall t, Shared t ∈ schedule -> t ∈ threads) ->
  undisturbed _MAGIC_ schedule initial ->
  run _MAGIC_ schedule initial = Some s ->
  match writer_pc s with
  | AtWait | Returned => sharedLock t s = (false, s)
  | _ => (sharedLock t s).1 = true
  end.
Proof.
  intros Hmagic Hthreads Hsched Hund Hrun.
  destruct (undisturbed_run_counter_inv _MAGIC_ Hmagic threads schedule Hthreads
              initial s Hsched) as [(Hnd & Hbound & Hpc) _];
    [|by apply counter_inv_initial|done..|].
  { intros t' Ht'. by apply elem_of_nil in Ht'. }
  unfold sharedLock.
  cbn zeta in Hbound.
  destruct (writer_pc s) as [| |val|val target| |].
  - rewrite decide_True by lia. done.
  - rewrite decide_True by lia. done.
  - rewrite decide_True by lia. done.
  - rewrite decide_True by lia. done.
  - rewrite decide_False by lia. done.
  - rewrite decide_False by lia. done.
Qed.

Lemma run_app _MAGIC_ l1 : forall l2 s,
  run _MAGIC_ (l1 ++ l2) s = (s' ← run _MAGIC_ l1 s; run _MAGIC_ l2 s').
Proof.
  induction l1 as [|ev l1 IH]; intros l2 s; [done|].
  cbn. destruct (step _MAGIC_ ev s); [|done]. cbn. apply IH.
Qed.

Lemma run_releases _MAGIC_ pc ws (rs : list nat) : forall lk,
  min_jint <= _MAGIC_ < 0 -> NoDup rs ->
  lk = _MAGIC_ + Z.of_nat (length rs) -> lk < 2 ^ 31 ->
  run _MAGIC_ (Release <$> rs) (mkSystem lk rs pc ws) =
    Some (mkSystem _MAGIC_ [] pc ws).
Proof.
  induction rs as [|r rs IH]; intros lk Hmagic Hnd Hlk Hmax.
  - cbn in *. by rewrite Hlk, Z.add_0_r.
  - apply NoDup_cons in Hnd as [Hr Hnd].
    cbn [fmap list_fmap run step]. unfold sharedUnlock.
    cbn [lock readers writer_pc writer_state].
    rewrite decide_True by (apply elem_of_cons; by left).
    cbn [mbind option_bind]. rewrite (filter_ne_head _ _ Hr).
    cbn [length] in Hlk. unfold min_jint in Hmagic.
    rewrite wrap_int_id by (unfold min_jint; lia).
    apply IH; [done|done|lia|lia].
Qed.

(** X17: [exclusiveLock] called while the threads [rs] hold shared access
    adds [_MAGIC_] to the counter when no thread interferes before its
    [cmpxchg], waits, and returns at the first test of the counter after the
    last of them has released: the counter is then [_MAGIC_], no shared lock
    is held and the lock state is [ExclusiveLock]. *)
Theorem exclusiveLock_returns_after_last_release _MAGIC_ (rs : list nat) :
  min_jint <= _MAGIC_ < 0 -> NoDup rs -> Z.of_nat (length rs) < - _MAGIC_ ->
  let s := mkSystem (Z.of_nat (length rs)) rs AtEntry NoLock in
  run _MAGIC_ (replicate 4 Exclusive) s =
    Some (mkSystem (_MAGIC_ + Z.of_nat (length rs)) rs AtWait NoLock) /\
  (rs <> [] ->
   run _MAGIC_ (replicate 5 Exclusive) s =
     Some (mkSystem (_MAGIC_ + Z.of_nat (length rs)) rs AtWait NoLock)) /\
  run _MAGIC_ (replicate 4 Exclusive ++ (Release <$> rs) ++ [Exclusive]) s =
    Some (mkSystem _MAGIC_ [] Returned ExclusiveLock).
Proof.
  intros Hmagic Hnd Hlen s.
  assert (Hwrap : wrap_int (_MAGIC_ + Z.of_nat (length rs)) =
                  _MAGIC_ + Z.of_nat (length rs)).
  { unfold min_jint in Hmagic. apply wrap_int_id. unfold min_jint. lia. }
  assert (H4 : run _MAGIC_ (replicate 4 Exclusive) s =
                 Some (mkSystem (_MAGIC_ + Z.of_nat (length rs)) rs AtWait NoLock)).
  { set (n := Z.of_nat (length rs)) in *.
    assert (E1 : step _MAGIC_ Exclusive s = Some (mkSystem n rs AtReadVal NoLock)).
    { unfold s, step, exclusiveLock_step. cbn [lock readers writer_pc writer_state].
      by rewrite decide_True by (split; [done|lia]). }
    assert (E2 : step _MAGIC_ Exclusive (mkSystem n rs AtReadVal NoLock) =
                   Some (mkSystem n rs (AtReadTarget n) NoLock)) by done.
    assert (E3 : step _MAGIC_ Exclusive (mkSystem n rs (AtReadTarget n) NoLock) =
                   Some (mkSystem n rs (AtCmpxchg n (_MAGIC_ + n)) NoLock)).
    { unfold step, exclusiveLock_step. cbn [lock readers writer_pc writer_state].
      by rewrite Hwrap. }
    assert (E4 : step _MAGIC_ Exclusive (mkSystem n rs (AtCmpxchg n (_MAGIC_ + n)) NoLock) =
                   Some (mkSystem (_MAGIC_ + n) rs AtWait NoLock)).
    { unfold step, exclusiveLock_step. cbn [lock readers writer_pc writer_state].
      by rewrite decide_True. }
    cbn [replicate run]. rewrite E1. cbn [mbind option_bind].
    rewrite E2. cbn [mbind option_bind]. rewrite E3. cbn [mbind option_bind].
    rewrite E4. done. }
  split; [exact H4|]. split.
  - intros Hne. change (replicate 5 Exclusive) with (replicate 4 Exclusive ++ [Exclusive]).
    rewrite run_app, H4. cbn [mbind option_bind run step].
    unfold exclusiveLock_step. cbn [lock readers writer_pc writer_state].
    rewrite decide_True; [done|]. destruct rs; [done|]. cbn [length]. lia.
  - rewrite run_app, H4. cbn [mbind option_bind].
    rewrite run_app, (run_releases _MAGIC_ AtWait NoLock rs _ Hmagic Hnd eq_refl)
      by (unfold min_jint in Hmagic; lia).
    cbn [mbind option_bind run step]. unfold exclusiveLock_step.
    cbn [lock readers writer_pc writer_state].
    by rewrite decide_False by (by intros ?).
Qed.

Lemma sharedLock_fails_once_exclusive_is_pending_witness :
  run min_jint [Shared 1%nat; Exclusive; Exclusive; Exclusive; Exclusive] initial =
    Some (mkSystem (min_jint + 1) [1%nat] AtWait NoLock) /\
  sharedLock 2%nat (mkSystem (min_jint + 1) [1%nat] AtWait NoLock) =
    (false, mkSystem (min_jint + 1) [1%nat] AtWait NoLock).
Proof.
  assert (Hrun : run min_jint [Shared 1%nat; Exclusive; Exclusive; Exclusive; Exclusive]
                   initial = Some (mkSystem (min_jint + 1) [1%nat] AtWait NoLock))
    by (vm_compute; reflexivity).
  split; [exact Hrun|].
  apply (sharedLock_fails_once_exclusive_is_pending min_jint [1%nat]
           [Shared 1%nat; Exclusive; Exclusive; Exclusive; Exclusive]
           (mkSystem (min_jint + 1) [1%nat] AtWait NoLock) 2%nat);
    [unfold min_jint; lia|unfold min_jint; cbn; lia|
    |vm_compute; exact I|exact Hrun].
  intros t Hin.
  repeat (apply elem_of_cons in Hin as [Hin|Hin];
          [first [discriminate Hin|injection Hin as ->; apply elem_of_cons; by left]|]).
  by apply elem_of_nil in Hin.
Defined.

Lemma exclusiveLock_returns_after_last_release_witness :
  run min_jint (replicate 4 Exclusive ++ (Release <$> [1%nat; 2%nat]) ++ [Exclusive])
    (mkSystem 2 [1%nat; 2%nat] AtEntry NoLock) =
    Some (mkSystem min_jint [] Returned ExclusiveLock).
Proof.
  apply (exclusiveLock_returns_after_last_release min_jint [1%nat; 2%nat]).
  - unfold min_jint. lia.
  - apply NoDup_cons. split; [by intros [=]%list_elem_of_singleton|].
    apply NoDup_singleton.
  - unfold min_jint. cbn. lia.
Defined.

End AccessLockProofs.

(** ** MallocSiteTable::walk_malloc_site *)
Module MallocSiteTableAccessProofs.
Import MallocSiteTable AccessLock MallocSiteTableAccess.
Import MallocSiteTableProofs AccessLockProofs.

(** X18: [walk_malloc_site] by a thread that does not hold shared access:
    when the counter is negative (an exclusive lock is pending or held) it
    returns false and the walker is not called; otherwise it returns what
    [walk] returns, having called the walker on the sites of the table in
    bucket order, and the counter and the holders of shared access are as
    before the call. *)
Theorem walk_malloc_site_walks_under_shared_access {W} hash table_size
    (walker : W -> MallocSite -> bool * W) t s st buckets w :
  table_inv hash table_size st buckets ->
  t ∉ readers s -> (min_jint <= lock s < 2 ^ 31 - 1)%Z ->
  walk_malloc_site table_size walker t s st w =
    if decide (0 <= lock s)%Z
    then Some (visit walker (sites_of (store st) (concat buckets)) w, s)
    else Some (false, w, s).
Proof.
  intros Hinv Ht Hlock. unfold walk_malloc_site, sharedLock.
  destruct (decide (0 <= lock s)%Z) as [Hl|Hl]; [|reflexivity].
  cbn iota beta.
  rewrite (walk_visit hash table_size walker st buckets w Hinv).
  cbn [mbind option_bind].
  destruct (visit walker (sites_of (store st) (concat buckets)) w) as [r w'].
  unfold sharedUnlock. cbn [lock readers writer_pc writer_state].
  rewrite decide_True by (apply elem_of_cons; by left).
  cbn [mbind option_bind]. do 2 f_equal.
  rewrite (filter_ne_head _ _ Ht).
  unfold min_jint in Hlock.
  rewrite (wrap_int_id (lock s + 1)) by (unfold min_jint; lia).
  rewrite wrap_int_id by (unfold min_jint; lia).
  destruct s as [lk rs pc ws]. cbn. f_equal. lia.
Qed.

Lemma walk_malloc_site_walks_under_shared_access_witness :
  walk_malloc_site 4 (fun visited site => (true, visited ++ [site])) 7
    (mkSystem 1 [1] AtEntry NoLock) sample_s2 [] =
    Some (true, [mkSite [3%Z; 7%Z; 11%Z] sample_mtNMT; mkSite [3%Z] sample_flags;
                 mkSite [7%Z] sample_flags],
          mkSystem 1 [1] AtEntry NoLock) /\
  walk_malloc_site 4 (fun visited site => (true, visited ++ [site])) 7
    (mkSystem (min_jint + 1) [1] AtWait NoLock) sample_s2 [] =
    Some (false, [], mkSystem (min_jint + 1) [1] AtWait NoLock).
Proof.
  split.
  - apply (walk_malloc_site_walks_under_shared_access sample_hash 4
             (fun visited site => (true, visited ++ [site])) 7
             (mkSystem 1 [1] AtEntry NoLock) sample_s2
             [[]; [1%positive]; []; [2%positive; 3%positive]] [] sample_s2_inv).
    + by intros [=]%list_elem_of_singleton.
    + unfold min_jint. cbn. lia.
  - apply (walk_malloc_site_walks_under_shared_access sample_hash 4
             (fun visited site => (true, visited ++ [site])) 7
             (mkSystem (min_jint + 1) [1] AtWait NoLock) sample_s2
             [[]; [1%positive]; []; [2%positive; 3%positive]] [] sample_s2_inv).
    + by intros [=]%list_elem_of_singleton.
    + unfold min_jint. cbn. lia.
Defined.

End MallocSiteTableAccessProofs.
